(** * Palette Optimizer: the quantization worker

    A shallow embedding of [color_distance_sq] and [analyze_image_worker]
    from [Palette_Optimizer.py], with the properties of the quantization
    engine proved about it. The helpers that name, write, read, sort and
    edit palettes follow the worker, with their own conventions.

    Conventions of the embedding:
    - a colour is the Python 3-tuple of integers [(r, g, b)], here [Z * Z * Z];
      the 8-bit range of a channel is the predicate [valid_color];
    - a PIL image is its [size] and its pixel access object, a total map
      from [(x, y)] to a colour; images are objects in a [heap], so that
      [copy()] allocates and [px[x, y] = v] updates the object in place;
    - Python floats are IEEE binary64 values ([spec_float] at precision 53);
    - the module-level variables and the locals of the worker are the fields
      of [wstate]; the cancellation event is set by the environment at a
      logical time counted in the events the worker has logged. *)

From Stdlib Require Import ZArith SpecFloat.
From stdpp Require Import gmap list strings.
From Stdlib Require Import Ascii HexadecimalString.
From stdpp Require Import pretty.

Local Open Scope Z_scope.

(** ** Colours and the metric *)

Abbreviation Color := (Z * Z * Z)%type.

Definition valid_color (c : Color) : Prop :=
  let '(r, g, b) := c in
  0 <= r <= 255 /\ 0 <= g <= 255 /\ 0 <= b <= 255.

(** [color_distance_sq(rgb1, rgb2)] *)
Definition color_distance_sq (rgb1 rgb2 : Color) : Z :=
  let '(r1, g1, b1) := rgb1 in
  let '(r2, g2, b2) := rgb2 in
  (r1 - r2) ^ 2 + (g1 - g2) ^ 2 + (b1 - b2) ^ 2.

(** The linear scan of both modes:
    [for color in palette[1:]: d = ...; if d < best_dist: best, best_dist = color, d]. *)
Fixpoint scan_nearest (pixel_color best : Color) (best_dist : Z)
    (rest : list Color) : Color :=
  match rest with
  | [] => best
  | color :: rest' =>
      let d := color_distance_sq pixel_color color in
      if d <? best_dist then scan_nearest pixel_color color d rest'
      else scan_nearest pixel_color best best_dist rest'
  end.

(** [best = palette[0]; best_dist = color_distance_sq(pixel_color, best)]
    followed by the scan; [first] is [palette[0]], [rest] is [palette[1:]]. *)
Definition find_nearest (pixel_color first : Color) (rest : list Color) : Color :=
  scan_nearest pixel_color first (color_distance_sq pixel_color first) rest.

(** ** Floating point: binary64 *)

Definition prec : Z := 53.
Definition emax : Z := 1024.

(** An integer converted to a float ([float(n)], exact below 2^53). *)
Definition float_of_Z (n : Z) : spec_float := binary_normalize prec emax n 0 false.

(** The conversion as Python makes it, in [float(n)] and where an integer
    meets a float in an operation: it raises [OverflowError], here [None],
    for an integer beyond the range of the floats. *)
Definition float_of_int (n : Z) : option spec_float :=
  match float_of_Z n with
  | S754_infinity _ => None
  | f => Some f
  end.

(** [max_distance = math.sqrt(255**2 * 3)] *)
Definition max_distance : spec_float := SFsqrt prec emax (float_of_Z (255 ^ 2 * 3)).

(** [allowed_distance = (1.0 - (similarity_threshold / 100.0)) * max_distance]
    [allowed_sq = allowed_distance * allowed_distance]
    for a threshold that [float_of_int] converts; the worker raises for the
    others before it uses these values ([run_checked]). *)
Definition allowed_distance (similarity_threshold : Z) : spec_float :=
  SFmul prec emax
    (SFsub prec emax (float_of_Z 1)
       (SFdiv prec emax (float_of_Z similarity_threshold) (float_of_Z 100)))
    max_distance.

Definition allowed_sq (similarity_threshold : Z) : spec_float :=
  SFmul prec emax (allowed_distance similarity_threshold)
    (allowed_distance similarity_threshold).

(** [d > f] for a Python int [d] and a float [f]: Python compares the two
    numbers exactly, without rounding the integer. *)
Definition int_gt_float (d : Z) (f : spec_float) : bool :=
  match f with
  | S754_zero _ => 0 <? d
  | S754_infinity s => s
  | S754_nan => false
  | S754_finite s m e =>
      let v := if s then Z.neg m else Z.pos m in
      if 0 <=? e then v * 2 ^ e <? d else v <? d * 2 ^ (- e)
  end.

Local Close Scope Z_scope.

(** [max(0.0, min(100.0, float(value)))]: Python's [min] and [max] return
    their first argument unless a later one is strictly smaller (larger). *)
Definition clamp_percent (value : spec_float) : spec_float :=
  let hundred := float_of_Z 100 in
  let zero := float_of_Z 0 in
  let m := if SFltb value hundred then value else hundred in
  if SFltb zero m then m else zero.

(** ** Images, the heap and the state of the worker *)

(** A PIL image: [size] is [(width, height)], [px] is the pixel access
    object returned by [load()]. *)
Record image := Image {
  size : nat * nat;
  px : nat * nat -> Color
}.

#[export] Instance image_inhabited : Inhabited image :=
  populate (Image (0, 0) (fun _ => (0, 0, 0)%Z)).

(** [px[x, y] = v] on an image value. *)
Definition px_set (im : image) (xy : nat * nat) (v : Color) : image :=
  Image (size im) (fun p => if decide (p = xy) then v else px im p).

Abbreviation loc := nat.

(** What the worker does that another thread can observe, in order:
    a call of [_cancel_event.is_set()] with its answer, the end of the
    processing of a pixel ([processed += 1]), and a write of
    [processed_pixels]. *)
Inductive event :=
  | EvCheck (answer : bool)
  | EvPixel (xy : nat * nat)
  | EvPublish (count : nat).

#[export] Instance event_eq_dec : EqDecision event.
Proof. solve_decision. Defined.

(** Module-level variables ([saved_colors], [progress], [total_pixels],
    [processed_pixels]), the image objects, the locals of the worker
    ([nearest_cache], [processed], [canceled]), whether an exception is
    propagating ([raised]), and the log of observable events. *)
Record wstate := WState {
  heap : gmap loc image;
  saved_colors : list Color;
  nearest_cache : gmap Color Color;
  progress : spec_float;
  total_pixels : nat;
  processed_pixels : nat;
  processed : nat;
  canceled : bool;
  raised : bool;
  trace : list event
}.

Definition set_heap (h : gmap loc image) (s : wstate) : wstate :=
  WState h (saved_colors s) (nearest_cache s) (progress s) (total_pixels s)
    (processed_pixels s) (processed s) (canceled s) (raised s) (trace s).

Definition set_saved_colors (p : list Color) (s : wstate) : wstate :=
  WState (heap s) p (nearest_cache s) (progress s) (total_pixels s)
    (processed_pixels s) (processed s) (canceled s) (raised s) (trace s).

Definition set_nearest_cache (c : gmap Color Color) (s : wstate) : wstate :=
  WState (heap s) (saved_colors s) c (progress s) (total_pixels s)
    (processed_pixels s) (processed s) (canceled s) (raised s) (trace s).

Definition set_processed (n : nat) (s : wstate) : wstate :=
  WState (heap s) (saved_colors s) (nearest_cache s) (progress s) (total_pixels s)
    (processed_pixels s) n (canceled s) (raised s) (trace s).

Definition set_canceled (b : bool) (s : wstate) : wstate :=
  WState (heap s) (saved_colors s) (nearest_cache s) (progress s) (total_pixels s)
    (processed_pixels s) (processed s) b (raised s) (trace s).

Definition set_raised (b : bool) (s : wstate) : wstate :=
  WState (heap s) (saved_colors s) (nearest_cache s) (progress s) (total_pixels s)
    (processed_pixels s) (processed s) (canceled s) b (trace s).

Definition log (e : event) (s : wstate) : wstate :=
  WState (heap s) (saved_colors s) (nearest_cache s) (progress s) (total_pixels s)
    (processed_pixels s) (processed s) (canceled s) (raised s) (trace s ++ [e]).

(** [set_progress(value)] *)
Definition set_progress (value : spec_float) (s : wstate) : wstate :=
  WState (heap s) (saved_colors s) (nearest_cache s) (clamp_percent value)
    (total_pixels s) (processed_pixels s) (processed s) (canceled s) (raised s)
    (trace s).

(** [with _progress_lock: processed_pixels = n] *)
Definition publish (n : nat) (s : wstate) : wstate :=
  log (EvPublish n)
    (WState (heap s) (saved_colors s) (nearest_cache s) (progress s)
       (total_pixels s) n (processed s) (canceled s) (raised s) (trace s)).

(** [px[x, y]] and [px[x, y] = v] through the image object at [l]. *)
Definition load_px (l : loc) (xy : nat * nat) (s : wstate) : Color :=
  px (heap s !!! l) xy.

Definition store_px (l : loc) (xy : nat * nat) (v : Color) (s : wstate) : wstate :=
  set_heap (alter (fun im => px_set im xy v) l (heap s)) s.

(** ** Cancellation *)

(** The environment sets [_cancel_event] once, at logical time [r]: after
    the worker has logged [r] events and before it logs the next one.
    [None] is a run in which nobody asks for cancellation. *)
Definition is_set (cancel_req : option nat) (s : wstate) : bool :=
  match cancel_req with
  | Some r => bool_decide (r <= length (trace s))
  | None => false
  end.

(** [if _cancel_event.is_set(): canceled = True; break], then the rest of
    the loop body. *)
Definition guard (cancel_req : option nat) (body : wstate -> wstate)
    (s : wstate) : wstate :=
  if is_set cancel_req s then set_canceled true (log (EvCheck true) s)
  else body (log (EvCheck false) s).

(** A [for] loop whose body may [break]: in this worker a loop is left
    exactly when [canceled] has been set (by its own check or, through
    [if canceled: break], by an inner loop) or an exception propagates. *)
Definition stopped (s : wstate) : bool := canceled s || raised s.

Fixpoint for_each {A} (body : A -> wstate -> wstate) (l : list A)
    (s : wstate) : wstate :=
  match l with
  | [] => s
  | a :: l' =>
      let s' := body a s in
      if stopped s' then s' else for_each body l' s'
  end.

(** [range(start, stop, step)] for [step > 0]. *)
Definition py_range (start stop step : nat) : list nat :=
  map (fun k => start + k * step) (seq 0 ((stop - start + (step - 1)) / step)).

(** ** The worker *)

(** [rng.shuffle(coords)]: the generator is seeded from the clock, so all
    that is known of a shuffle is that it permutes its list. The lists the
    worker shuffles are the coordinates of distinct tiles, so a function of
    the list covers every behaviour of the generator. *)
Record shuffler := Shuffler {
  shuffle :> list (nat * nat) -> list (nat * nat);
  shuffle_perm : forall l, shuffle l ≡ₚ l
}.

(** What the worker reads and does not write: [similarity_threshold],
    [app.get_pallette()], [pallettes], [app.original_image], the generator
    and the time at which the environment requests cancellation. *)
Record config := Config {
  similarity_threshold : Z;
  get_pallette : string;
  pallettes : gmap string (list Color);
  original_image : option loc;
  rng : shuffler;
  cancel_req : option nat
}.

Inductive outcome :=
  | COMPLETED (new_image : loc)   (* [app.analyze_done(new_image)] *)
  | CANCELED                      (* [app.analyze_canceled()] *)
  | FAILED.                       (* an exception reached [except Exception] *)

Definition tile : nat := 300.
Definition batch : nat := 5000.

(** [nearest = nearest_cache.get(pixel_color)], and when it is [None] the
    scan of [first :: rest] followed by [nearest_cache[pixel_color] = nearest]. *)
Definition cached_nearest (pixel_color first : Color) (rest : list Color)
    (s : wstate) : Color * wstate :=
  match nearest_cache s !! pixel_color with
  | Some nearest => (nearest, s)
  | None =>
      let nearest := find_nearest pixel_color first rest in
      (nearest, set_nearest_cache (<[pixel_color := nearest]> (nearest_cache s)) s)
  end.

(** Discovery mode, the decision for one pixel:
    [if pixel_color not in saved_colors: ...] *)
Definition simplify_pixel (allowed : spec_float) (l : loc) (xy : nat * nat)
    (s : wstate) : wstate :=
  let pixel_color := load_px l xy s in
  if decide (pixel_color ∈ saved_colors s) then s
  else
    match saved_colors s with
    | [] => set_saved_colors (saved_colors s ++ [pixel_color]) s
    | first :: rest =>
        let '(nearest, s1) := cached_nearest pixel_color first rest s in
        if int_gt_float (color_distance_sq nearest pixel_color) allowed then
          set_nearest_cache (delete pixel_color (nearest_cache s1))
            (set_saved_colors (saved_colors s1 ++ [pixel_color]) s1)
        else store_px l xy nearest s1
    end.

(** Fixed-palette mode, the decision for one pixel: [if pallette: ...] *)
Definition map_pixel (pallette : list Color) (l : loc) (xy : nat * nat)
    (s : wstate) : wstate :=
  let pixel_color := load_px l xy s in
  match pallette with
  | [] => s
  | first :: rest =>
      let '(nearest, s1) := cached_nearest pixel_color first rest s in
      store_px l xy nearest s1
  end.

(** [processed += 1] and, every [batch] pixels,
    [set_progress((processed / total) * 100.0)] and
    [processed_pixels = processed]. The division raises
    [ZeroDivisionError] when [total] is 0. *)
Definition count_pixel (total : nat) (xy : nat * nat) (s : wstate) : wstate :=
  let s1 := log (EvPixel xy) (set_processed (processed s + 1) s) in
  if decide (processed s1 mod batch = 0) then
    if decide (total = 0) then set_raised true s1
    else
      publish (processed s1)
        (set_progress
           (SFmul prec emax
              (SFdiv prec emax (float_of_Z (Z.of_nat (processed s1)))
                 (float_of_Z (Z.of_nat total)))
              (float_of_Z 100)) s1)
  else s1.

(** [coords = [(x, y) for y in range(y0, y1) for x in range(x0, x1)]] *)
Definition tile_coords (x0 x1 y0 y1 : nat) : list (nat * nat) :=
  y ← seq y0 (y1 - y0); x ← seq x0 (x1 - x0); [(x, y)].

(** The branch [if app.get_pallette() == "Simplify Pallette":] *)
Definition simplify_loops (cfg : config) (l : loc) (width height : nat)
    (s : wstate) : wstate :=
  let allowed := allowed_sq (similarity_threshold cfg) in
  let total := width * height in
  for_each (fun y0 => guard (cancel_req cfg) (fun s =>
    let y1 := Nat.min (y0 + tile) height in
    for_each (fun x0 => guard (cancel_req cfg) (fun s =>
      let x1 := Nat.min (x0 + tile) width in
      let coords := rng cfg (tile_coords x0 x1 y0 y1) in
      for_each (fun xy => guard (cancel_req cfg) (fun s =>
        count_pixel total xy (simplify_pixel allowed l xy s)))
        coords s))
      (py_range 0 width tile) s))
    (py_range 0 height tile) (set_processed 0 s).

(** [total = width * height if pallette else 1] *)
Definition pallette_total (pallette : list Color) (width height : nat) : nat :=
  match pallette with
  | [] => 1
  | _ :: _ => width * height
  end.

(** The [else:] branch, the mapping onto a palette of [pallettes]. *)
Definition pallette_loops (cfg : config) (l : loc) (width height : nat)
    (s : wstate) : wstate :=
  let pallette := default [] (pallettes cfg !! get_pallette cfg) in
  let total := pallette_total pallette width height in
  for_each (fun y => guard (cancel_req cfg) (fun s =>
    for_each (fun x => guard (cancel_req cfg) (fun s =>
      count_pixel total (x, y) (map_pixel pallette l (x, y) s)))
      (seq 0 width) s))
    (seq 0 height) (set_processed 0 s).

(** The state once the worker has copied the image and reset the
    module-level variables and its locals. *)
Definition start_run (new_image : loc) (img : image) (g : wstate) : wstate :=
  WState (<[new_image := img]> (heap g)) [] ∅ (clamp_percent (float_of_Z 0))
    ((size img).1 * (size img).2) 0 0 false false [EvPublish 0].

(** The last lines of a run that was not canceled:
    [set_progress(100.0)] and [processed_pixels = total_pixels]. *)
Definition finish_run (s : wstate) : wstate :=
  publish (total_pixels s) (set_progress (float_of_Z 100) s).

(** The two branches of [if app.get_pallette() == "Simplify Pallette":]. *)
Definition run_loops (cfg : config) (l : loc) (width height : nat)
    (s : wstate) : wstate :=
  if decide (get_pallette cfg = "Simplify Pallette") then
    simplify_loops cfg l width height s
  else pallette_loops cfg l width height s.

(** After the loops: an exception is reported, [if canceled:] schedules
    [analyze_canceled] and returns, otherwise the final update is made and
    [analyze_done(new_image)] is scheduled. *)
Definition conclude (new_image : loc) (s : wstate) : outcome * wstate :=
  if raised s then (FAILED, s)
  else if canceled s then (CANCELED, s)
  else (COMPLETED new_image, finish_run s).

(** What follows the resets, in both modes: the division
    [similarity_threshold / 100.0] in the computation of [allowed_distance]
    converts the integer to a float and raises [OverflowError] when it is
    beyond the range of the floats; otherwise the loops run. *)
Definition run_checked (cfg : config) (l : loc) (width height : nat)
    (s : wstate) : wstate :=
  match float_of_int (similarity_threshold cfg) with
  | None => set_raised true s
  | Some _ => run_loops cfg l width height s
  end.

(** [analyze_image_worker()] *)
Definition analyze_image_worker (cfg : config) (g : wstate) : outcome * wstate :=
  match original_image cfg with
  | None => (FAILED, g)
  | Some orig =>
      match heap g !! orig with
      | None => (FAILED, g)
      | Some img =>
          let new_image := fresh (dom (heap g)) in
          conclude new_image
            (run_checked cfg new_image (size img).1 (size img).2
               (start_run new_image img g))
      end
  end.

(** The image a completed run hands to [analyze_done]. *)
Definition result_image (r : outcome * wstate) : option image :=
  match r.1 with
  | COMPLETED new_image => heap r.2 !! new_image
  | _ => None
  end.

(** ** The nearest entry, as specified *)

(** [r] is the nearest entry of [pal] to [c], the first one on ties: it
    stands at some index, no entry is closer, and every entry before it
    is strictly farther. *)
Definition first_nearest (c : Color) (pal : list Color) (r : Color) : Prop :=
  exists i,
    pal !! i = Some r
    /\ (forall q, q ∈ pal -> (color_distance_sq c r <= color_distance_sq c q)%Z)
    /\ (forall j q, j < i -> pal !! j = Some q ->
          (color_distance_sq c r < color_distance_sq c q)%Z).

(** ** The transition of discovery mode, as specified *)

(** [nearest] is what the look-up of the nearest entry of [P] to [c]
    gives: the cached entry when the cache [K] has one for [c], otherwise
    the nearest entry of [P], the first one on ties. *)
Definition looked_up (K : gmap Color Color) (c : Color) (P : list Color)
    (nearest : Color) : Prop :=
  match K !! c with
  | Some n => nearest = n
  | None => first_nearest c P nearest
  end.

(** The step for one pixel on the palette, the cache and the colour of the
    pixel: a member of the palette changes nothing; with an empty palette
    the colour becomes the seed; otherwise the colour is appended and its
    cache entry removed when the nearest entry is farther than allowed,
    and the pixel is overwritten with the nearest entry when it is not. *)
Inductive pixel_transition (allowed : spec_float) :
    list Color * gmap Color Color * Color ->
    list Color * gmap Color Color * Color -> Prop :=
  | transition_member P K c :
      c ∈ P ->
      pixel_transition allowed (P, K, c) (P, K, c)
  | transition_seed K c :
      pixel_transition allowed ([], K, c) ([c], K, c)
  | transition_insert P K c nearest :
      c ∉ P -> P <> [] -> looked_up K c P nearest ->
      int_gt_float (color_distance_sq nearest c) allowed = true ->
      pixel_transition allowed (P, K, c) (P ++ [c], delete c K, c)
  | transition_replace P K c nearest :
      c ∉ P -> P <> [] -> looked_up K c P nearest ->
      int_gt_float (color_distance_sq nearest c) allowed = false ->
      pixel_transition allowed (P, K, c) (P, <[c := nearest]> K, nearest).

(** ** Invariants of the runs *)

(** The cache holds, for a colour, what [N] gives for it. *)
Definition cache_agrees (N : Color -> Color) (s : wstate) : Prop :=
  forall c n, nearest_cache s !! c = Some n -> n = N c.

(** The image at [l] is [img] with [N] applied to the pixels the worker
    has processed so far. *)
Definition quantized (N : Color -> Color) (img : image) (l : loc)
    (s : wstate) : Prop :=
  exists im, heap s !! l = Some im /\ size im = size img
    /\ forall p, (EvPixel p ∈ trace s -> px im p = N (px img p))
              /\ (EvPixel p ∉ trace s -> px im p = px img p).

(** The pixel the worker processed first, by the log. *)
Fixpoint first_pixel (tr : list event) : option (nat * nat) :=
  match tr with
  | [] => None
  | EvPixel p :: _ => Some p
  | _ :: tr' => first_pixel tr'
  end.

(** Discovery mode at threshold 0: before the first pixel nothing has
    changed; from then on the palette is the colour of the first pixel and
    every processed pixel of the image at [l] has that colour. *)
Definition collapsed (img : image) (l : loc) (s : wstate) : Prop :=
  exists im, heap s !! l = Some im /\ size im = size img
    /\ match first_pixel (trace s) with
       | None =>
           saved_colors s = [] /\ nearest_cache s = ∅
           /\ forall p, px im p = px img p
       | Some p0 =>
           saved_colors s = [px img p0] /\ valid_color (px img p0)
           /\ cache_agrees (fun _ => px img p0) s
           /\ forall p, (EvPixel p ∈ trace s -> px im p = px img p0)
                     /\ (EvPixel p ∉ trace s -> px im p = px img p)
       end.

(** The values written to [processed_pixels], in the order of the log. *)
Definition published (tr : list event) : list nat :=
  omap (fun e => match e with EvPublish n => Some n | _ => None end) tr.

Definition nondecreasing (l : list nat) : Prop :=
  forall i j m n, i <= j -> l !! i = Some m -> l !! j = Some n -> m <= n.

(** The counter of the loops stays within the image, and a canceled run
    over an image that has columns has left a pixel unprocessed. *)
Definition counted (width height : nat) (s : wstate) : Prop :=
  processed s <= width * height
  /\ (canceled s = true -> 0 < width -> processed s < width * height).

(** What has been published is in order, is at most the counter of the
    loops, and ends with the current value of [processed_pixels]. *)
Definition publishes_in_order (total : nat) (s : wstate) : Prop :=
  nondecreasing (published (trace s))
  /\ (forall n, n ∈ published (trace s) -> n <= processed s)
  /\ last (published (trace s)) = Some (processed_pixels s)
  /\ total_pixels s = total.

(** [find_nearest] as a function of the colour, for a palette
    [first :: rest]. *)
Definition nearest_in (first : Color) (rest : list Color) (c : Color) : Color :=
  find_nearest c first rest.

(** With a request at time [r], every pixel is counted at a time no later
    than [r]. *)
Definition timely (r : nat) (s : wstate) : Prop :=
  forall i xy, trace s !! i = Some (EvPixel xy) -> i <= r.

(** With a request at time [r], a check answers whether the request has
    been made. *)
Definition answered (r : nat) (s : wstate) : Prop :=
  forall i b, trace s !! i = Some (EvCheck b) -> b = bool_decide (r <= i).

(** ** The empty palette, as specified *)

(** The specified behaviour of fixed-palette mode on an empty palette:
    loops that rewrite no pixel, count the pixels and report the progress
    as [processed / total]. *)
Definition counting_loops (req : option nat) (total width height : nat)
    (s : wstate) : wstate :=
  for_each (fun y => guard req (fun s =>
    for_each (fun x => guard req (fun s => count_pixel total (x, y) s))
      (seq 0 width) s))
    (seq 0 height) (set_processed 0 s).

(** ** Cancellation, as specified and as amended *)

(** The same run with nobody asking for cancellation. *)
Definition without_cancel (cfg : config) : config :=
  Config (similarity_threshold cfg) (get_pallette cfg) (pallettes cfg)
    (original_image cfg) (rng cfg) None.

(** How a run with a request stands to the run without one: either they
    are in the same state, or the run with the request has been canceled by
    a check that the other run made too, answered [False], and went on
    from. *)
Definition overtaken (s q : wstate) : Prop :=
  s = q
  \/ (canceled s = true
      /\ exists tr, trace s = tr ++ [EvCheck true]
           /\ (tr ++ [EvCheck false]) `prefix_of` trace q).

(** The number of pixels processed in a stretch of the log. *)
Fixpoint count_pixels (tr : list event) : nat :=
  match tr with
  | [] => 0
  | EvPixel _ :: tr' => S (count_pixels tr')
  | _ :: tr' => count_pixels tr'
  end.

(** The property as the specification words it: a request made during a
    run, that is before the worker has logged its last event, ends the run
    as [CANCELED]. *)
Definition every_request_cancels : Prop :=
  forall cfg g orig img r,
    original_image cfg = Some orig ->
    heap g !! orig = Some img ->
    cancel_req cfg = Some r ->
    r < length (trace (analyze_image_worker cfg g).2) ->
    (analyze_image_worker cfg g).1 = CANCELED.

(** ** Sample runs *)

(** A generator whose shuffle leaves the list as it is. *)
Definition id_shuffler : shuffler :=
  Shuffler (fun l => l) (fun l => reflexivity l).

(** A 2 x 1 image with pixels (0,0,0) and (1,1,1), and a 1 x 1 image with
    the pixel (10,10,10). *)
Definition two_pixels : image :=
  Image (2, 1) (fun xy => if decide (xy = (0, 0)) then (0, 0, 0)%Z else (1, 1, 1)%Z).

Definition one_pixel : image := Image (1, 1) (fun _ => (10, 10, 10)%Z).

(** The application with [img] loaded at location 0 and no run made yet. *)
Definition loaded (img : image) : wstate :=
  WState {[ 0 := img ]} [] ∅ (float_of_Z 0) 0 0 0 false false [].

Definition discover (threshold : Z) (req : option nat) : config :=
  Config threshold "Simplify Pallette" ∅ (Some 0) id_shuffler req.

Definition black_white : list Color := [(0, 0, 0)%Z; (255, 255, 255)%Z].

(** Fixed-palette mode on the palette named "bw". *)
Definition onto (pal : list Color) (req : option nat) : config :=
  Config 95 "bw" {[ "bw" := pal ]} (Some 0) id_shuffler req.

(** The worker in the middle of a discovery run on [two_pixels]: the
    palette holds (1,1,1) and the pixel (0,0) is still to be decided. *)
Definition mid_run : wstate :=
  WState {[ 0 := two_pixels ]} [(1, 1, 1)%Z] ∅ (float_of_Z 0) 2 0 1 false false
    [EvPublish 0; EvCheck false; EvCheck false; EvCheck false; EvPixel (1, 0)].

(** What one run and a second run of fixed-palette mode on [black_white]
    hand over, starting from [one_pixel]. *)
Definition quantized_once : image :=
  default one_pixel
    (result_image (analyze_image_worker (onto black_white None) (loaded one_pixel))).

Definition quantized_twice : image :=
  default one_pixel
    (result_image
       (analyze_image_worker (onto black_white None) (loaded quantized_once))).

(** ** More invariants of discovery mode *)

(** Discovery mode in general: the cache holds entries of the palette,
    every entry of the palette is the colour of a pixel of [img], and a
    processed pixel of the image at [l] holds an entry of the palette that
    is not farther than [allowed] from the colour the pixel had. *)
Definition discovered (allowed : spec_float) (img : image) (l : loc)
    (s : wstate) : Prop :=
  exists im, heap s !! l = Some im /\ size im = size img
    /\ (forall c n, nearest_cache s !! c = Some n -> n ∈ saved_colors s)
    /\ (forall q, q ∈ saved_colors s ->
          exists p, p.1 < (size img).1 /\ p.2 < (size img).2 /\ px img p = q)
    /\ forall p,
         (EvPixel p ∈ trace s ->
            px im p ∈ saved_colors s
            /\ int_gt_float (color_distance_sq (px im p) (px img p)) allowed
               = false)
         /\ (EvPixel p ∉ trace s -> px im p = px img p).

(** Discovery mode at threshold 100: the image at [l] is [img] itself and
    the palette holds the colour of every processed pixel. *)
Definition untouched (img : image) (l : loc) (s : wstate) : Prop :=
  heap s !! l = Some img
  /\ (forall c n, nearest_cache s !! c = Some n -> n ∈ saved_colors s)
  /\ forall p, EvPixel p ∈ trace s -> px img p ∈ saved_colors s.

(** The largest integer that is not above a float that is zero or
    positive and finite (0 for the other floats). *)
Definition float_floor (f : spec_float) : Z :=
  match f with
  | S754_finite false m e =>
      if (0 <=? e)%Z then (Z.pos m * 2 ^ e)%Z else (Z.pos m / 2 ^ (- e))%Z
  | _ => 0%Z
  end.

Definition nonneg_finite (f : spec_float) : bool :=
  match f with
  | S754_zero _ | S754_finite false _ _ => true
  | _ => false
  end.

(** The check that, along the thresholds 0, 1, ..., 100, the allowed
    squared distance is zero or positive and finite and its integer part
    does not grow from a threshold to the next. *)
Definition allowed_sq_decreasing : bool :=
  forallb (fun t =>
      nonneg_finite (allowed_sq t) && nonneg_finite (allowed_sq (t + 1))
      && (float_floor (allowed_sq (t + 1)) <=? float_floor (allowed_sq t))%Z)
    (seqZ 0 100).

(** A float between 0.0 and 100.0. *)
Definition percentage (f : spec_float) : Prop :=
  SFleb (float_of_Z 0) f = true /\ SFleb f (float_of_Z 100) = true.

(** * Palette files and the palette editor

    The helpers of [Palette_Optimizer.py] that name, write, read, sort and
    edit palettes. Conventions of the embedding:
    - a Python [str] whose characters the code inspects is the list of its
      code points; what the code asks of the Unicode character database
      above ASCII is the parameter [unicode], so that the results hold for
      every version of the database;
    - the name of a palette, which the code only looks up, is a key of
      [pallettes];
    - a function that can raise returns an [option], [None] standing for
      the exception;
    - reading and decoding a file is left to the environment: a file is
      given by what [json.load], the iteration over its lines or
      [csv.reader] yield. *)

(** ** Text *)

(** A Python [str] is the list of its code points. *)
Abbreviation str := (list N).

Definition ord (ch : ascii) : N := N_of_ascii ch.
Arguments ord ch%_char.

Definition str_of (s : string) : str := ord <$> String.list_ascii_of_string s.

(** What the code consults of the Unicode character database above ASCII:
    [str.isalnum], [str.isspace] and the value of a decimal digit. *)
Record unicode := Unicode {
  unicode_alnum : N -> bool;
  unicode_space : N -> bool;
  unicode_decimal : N -> option N
}.

Definition between (lo hi c : N) : bool := ((lo <=? c) && (c <=? hi))%N.

(** [ch.isalnum()] *)
Definition isalnum (U : unicode) (ch : N) : bool :=
  if (ch <? 128)%N then
    between (ord "0") (ord "9") ch || between (ord "A") (ord "Z") ch
    || between (ord "a") (ord "z") ch
  else unicode_alnum U ch.

(** [ch.isspace()], the characters [str.strip()] removes *)
Definition isspace (U : unicode) (ch : N) : bool :=
  if (ch <? 128)%N then between 9 13 ch || between 28 32 ch
  else unicode_space U ch.

(** [s.lstrip(...)], [s.rstrip(...)] and [s.strip(...)] for the characters
    that satisfy [p] *)
Fixpoint lstrip (p : N -> bool) (s : str) : str :=
  match s with
  | ch :: s' => if p ch then lstrip p s' else s
  | [] => []
  end.

Definition rstrip (p : N -> bool) (s : str) : str :=
  reverse (lstrip p (reverse s)).

Definition strip (p : N -> bool) (s : str) : str := rstrip p (lstrip p s).

(** ** [int(s, 16)] *)

(** Before it reads the digits [int] replaces every character from 127 on
    by a space when it is white space, by the ASCII digit of its value when
    it is a decimal digit, and by a question mark otherwise. *)
Definition to_ascii (U : unicode) (ch : N) : N :=
  if (ch <? 127)%N then ch
  else if isspace U ch then ord " "
  else match (if (ch <? 128)%N then None else unicode_decimal U ch) with
       | Some d => (ord "0" + d)%N
       | None => ord "?"
       end.

(** The white space [int] skips around the number. *)
Definition c_isspace (ch : N) : bool := between 9 13 ch || (ch =? ord " ")%N.

Definition hex_value (ch : N) : option N :=
  if between (ord "0") (ord "9") ch then Some (ch - ord "0")%N
  else if between (ord "a") (ord "f") ch then Some (ch - ord "a" + 10)%N
  else if between (ord "A") (ord "F") ch then Some (ch - ord "A" + 10)%N
  else None.

(** The digits, with single underscores between them: the value read and
    the text left over, or [None] for two underscores in a row or an
    underscore at the end. *)
Fixpoint scan_digits (prev_underscore : bool) (acc : N) (s : str)
    : option (N * str) :=
  match s with
  | [] => if prev_underscore then None else Some (acc, [])
  | ch :: s' =>
      if (ch =? ord "_")%N then
        if prev_underscore then None else scan_digits true acc s'
      else
        match hex_value ch with
        | Some d => scan_digits false (16 * acc + d)%N s'
        | None => if prev_underscore then None else Some (acc, s)
        end
  end.

(** [int(s, 16)]; [None] stands for [ValueError]. *)
Definition int16 (U : unicode) (s : str) : option Z :=
  let s := lstrip c_isspace (to_ascii U <$> s) in
  let '(negative, s) :=
    match s with
    | ch :: s' =>
        if (ch =? ord "+")%N then (false, s')
        else if (ch =? ord "-")%N then (true, s')
        else (false, s)
    | [] => (false, s)
    end in
  let s :=
    match s with
    | zero :: x :: s' =>
        if (zero =? ord "0")%N && ((x =? ord "x")%N || (x =? ord "X")%N) then
          match s' with
          | ch :: s'' => if (ch =? ord "_")%N then s'' else s'
          | [] => s'
          end
        else s
    | _ => s
    end in
  match s with
  | ch :: _ => if (ch =? ord "_")%N then None else Some ()
  | [] => Some ()
  end ≫= fun _ =>
  '(v, rest) ← scan_digits false 0 s;
  if decide (length rest = length s) then None
  else
    match lstrip c_isspace rest with
    | [] => Some (if negative then - Z.of_N v else Z.of_N v)%Z
    | _ :: _ => None
    end.

(** ** Colours and their hexadecimal names *)

(** [format(n, 'x')] of a number that is not negative *)
Definition hex (n : N) : str :=
  str_of (NilEmpty.string_of_uint (N.to_hex_uint n)).

Definition zfill (width : nat) (s : str) : str :=
  replicate (width - length s) (ord "0") ++ s.

(** ['{:02x}'.format(n)]: the sign counts in the width. *)
Definition format_02x (n : Z) : str :=
  if (n <? 0)%Z then ord "-" :: zfill 1 (hex (Z.abs_N n))
  else zfill 2 (hex (Z.abs_N n)).

Definition _hex_from_rgb (t : Color) : str :=
  let '(r, g, b) := t in
  ord "#" :: format_02x r ++ format_02x g ++ format_02x b.

(** [((v >> 16) & 0xFF, (v >> 8) & 0xFF, v & 0xFF)] *)
Definition rgb_of_int (v : Z) : Color :=
  (Z.land (Z.shiftr v 16) 255, Z.land (Z.shiftr v 8) 255, Z.land v 255).

(** [''.join(ch*2 for ch in h)] *)
Definition double_chars (h : str) : str := h ≫= fun ch => [ch; ch].

(** [_rgb_from_hex]; [None] stands for the [ValueError] of [int]. *)
Definition _rgb_from_hex (U : unicode) (h : str) : option Color :=
  let h := lstrip (N.eqb (ord "#")) h in
  let h := if decide (length h = 3) then double_chars h else h in
  v ← int16 U h;
  Some (rgb_of_int v).

(** [_slugify] *)
Definition _slugify (U : unicode) (name : str) : str :=
  let valid :=
    (fun ch =>
       if isalnum U ch || (ch =? ord "-")%N || (ch =? ord "_")%N then ch
       else ord "_") <$> name in
  let s := strip (N.eqb (ord "_")) valid in
  match s with
  | [] => str_of "palette"
  | _ :: _ => s
  end.

(** ** Reading a colour back *)

(** The value of a row of hexadecimal digits, the first one weighing
    most. *)
Definition digits_value (ds : list N) : N :=
  fold_left (fun acc d => 16 * acc + d)%N ds 0%N.

(** [chs] are hexadecimal digits, small or capital, of the values [ds]. *)
Definition hex_digits (chs : str) (ds : list N) : Prop :=
  Forall2 (fun ch d => hex_value ch = Some d) chs ds.

(** The check, value by value, that ['{:02x}'] writes 0..255 as the two
    digits of the value. *)
Definition format_02x_bytes : bool :=
  forallb (fun n =>
      match format_02x n with
      | [hi; lo] =>
          bool_decide (hex_value hi = Some (Z.to_N (n / 16))
                       /\ hex_value lo = Some (Z.to_N (n mod 16)))
      | _ => false
      end)
    (seqZ 0 256).

(** The characters [_slugify] keeps. *)
Definition slug_char (U : unicode) (ch : N) : bool :=
  isalnum U ch || (ch =? ord "-")%N || (ch =? ord "_")%N.

(** The code point of the backslash. *)
Definition backslash : N := 92.

(** ** Palette files *)

(** A value decoded by [json.load]. *)
#[warnings="-register-all"] Inductive json :=
  | JNull
  | JBool (b : bool)
  | JInt (n : Z)
  | JFloat (f : spec_float)
  | JStr (s : str)
  | JList (l : list json)
  | JDict (d : list (str * json)).

(** A palette file after it was read and decoded: the value of
    [json.load], the lines of a text file, the rows of [csv.reader].
    [OtherFile] is a file with another extension, or one that could not be
    opened or decoded. *)
Inductive palette_file :=
  | JsonFile (data : json)
  | TxtFile (lines : list str)
  | CsvFile (rows : list (list str))
  | OtherFile.

(** [for v in data.values(): if isinstance(v, list): data = v; break] *)
Fixpoint first_list_value (d : list (str * json)) (data : json) : json :=
  match d with
  | [] => data
  | (_, v) :: d' =>
      match v with
      | JList _ => v
      | _ => first_list_value d' data
      end
  end.

(** [hx = ....strip()], [if not hx: continue], and the [try] around
    [cols.append(_rgb_from_hex(hx))] *)
Definition stripped_entry (U : unicode) (text : str) : option Color :=
  match strip (isspace U) text with
  | [] => None
  | hx => _rgb_from_hex U hx
  end.

(** [_parse_palette_file] *)
Definition _parse_palette_file (U : unicode) (file : palette_file)
    : option (list Color) :=
  match file with
  | JsonFile data =>
      let data :=
        match data with
        | JDict d => first_list_value d data
        | _ => data
        end in
      match data with
      | JList l =>
          Some (omap (fun hx => match hx with
                                | JStr s => _rgb_from_hex U s
                                | _ => None
                                end) l)
      | _ => None
      end
  | TxtFile lines => Some (omap (stripped_entry U) lines)
  | CsvFile rows =>
      Some (omap (fun row => match row with
                             | [] => None
                             | cell :: _ => stripped_entry U cell
                             end) rows)
  | OtherFile => None
  end.

(** What [save_palettes] dumps for one palette,
    [data = [_hex_from_rgb(c) for c in cols]], as [json.load] reads it
    back. *)
Definition saved_file (cols : list Color) : palette_file :=
  JsonFile (JList ((fun c => JStr (_hex_from_rgb c)) <$> cols)).

(** ** The palette editor *)

(** [lst[i], lst[j] = lst[j], lst[i]]; an index out of range raises
    [IndexError] before anything is stored, and the callers pass over it. *)
Definition swap_items (i j : nat) (lst : list Color) : list Color :=
  match lst !! j, lst !! i with
  | Some a, Some b => <[j := b]> (<[i := a]> lst)
  | _, _ => lst
  end.

(** [move_up] for the row [idx] of the palette [name] *)
Definition move_up (name : string) (idx : nat)
    (pallettes : gmap string (list Color)) : gmap string (list Color) :=
  if decide (idx <= 0) then pallettes
  else alter (swap_items (idx - 1) idx) name pallettes.

(** [move_down] for the row [idx] of the palette [name];
    [idx >= len(lst) - 1] is a comparison of integers. *)
Definition move_down (name : string) (idx : nat)
    (pallettes : gmap string (list Color)) : gmap string (list Color) :=
  let lst := default [] (pallettes !! name) in
  if decide (Z.of_nat idx >= Z.of_nat (length lst) - 1)%Z then pallettes
  else alter (swap_items (idx + 1) idx) name pallettes.

(** [remove_color] for the row [idx]: [pallettes[name].pop(idx)], passing
    over [KeyError] and [IndexError]. *)
Definition remove_color (name : string) (idx : nat)
    (pallettes : gmap string (list Color)) : gmap string (list Color) :=
  alter (delete idx) name pallettes.

Inductive dialog_result :=
  | ADDED           (* the palette was changed and the dialog closed *)
  | NO_PALETTE      (* "Select or create a palette to add colors to." *)
  | INVALID_HEX     (* "Enter a valid hex color like #ffa07a" *)
  | DUPLICATE       (* "This color already exists in the palette." *)
  | INDEX_ERROR.    (* [pallettes[name][on_update_index] = rgb] raised *)

(** [add_from_dialog] with the text [hex_var] of the entry; it is given the
    index of a row when the dialog was opened to edit that row. *)
Definition add_from_dialog (U : unicode) (name : string) (hex_var : str)
    (on_update_index : option nat) (pallettes : gmap string (list Color))
    : dialog_result * gmap string (list Color) :=
  match pallettes !! name with
  | None => (NO_PALETTE, pallettes)
  | Some lst =>
      let h := strip (isspace U) hex_var in
      let h :=
        match h with
        | ch :: _ => if (ch =? ord "#")%N then h else ord "#" :: h
        | [] => ord "#" :: h
        end in
      let h := if decide (length h = 4) then ord "#" :: double_chars (tail h)
               else h in
      match int16 U (tail h) with
      | None => (INVALID_HEX, pallettes)
      | Some v =>
          let rgb := rgb_of_int v in
          if decide (rgb ∈ lst) then (DUPLICATE, pallettes)
          else
            match on_update_index with
            | Some i =>
                if decide (i < length lst) then
                  (ADDED, <[name := <[i := rgb]> lst]> pallettes)
                else (INDEX_ERROR, pallettes)
            | None => (ADDED, <[name := lst ++ [rgb]]> pallettes)
            end
      end
  end.

(** The palettes the editor works on: no colour twice in a palette, and
    every channel of every colour in 0..255. *)
Definition well_formed (pallettes : gmap string (list Color)) : Prop :=
  forall name lst, pallettes !! name = Some lst ->
    NoDup lst /\ Forall valid_color lst.

(** ** Naming and saving a discovered palette *)

(** [while taken(candidate): i += 1; candidate = f"{name} {i}"], for at
    most [fuel] rounds of the loop. *)
Fixpoint next_free (fuel : nat) (taken : string -> bool) (name : string)
    (i : nat) (candidate : string) : option string :=
  if taken candidate then
    match fuel with
    | 0 => None
    | S fuel => next_free fuel taken name (i + 1)
                  (name +:+ " " +:+ pretty (i + 1))
    end
  else Some candidate.

(** [name in pallettes or name in DEFAULT_PALETTE_OPTIONS] *)
Definition name_taken (pallettes : gmap string (list Color))
    (options : list string) (name : string) : bool :=
  bool_decide (name ∈ dom pallettes) || bool_decide (name ∈ options).

(** The name [analyze_done] suggests for the palette of the image [base]. *)
Definition suggested_name (fuel : nat) (pallettes : gmap string (list Color))
    (options : list string) (base : string) : option string :=
  let pal_name := base +:+ " (simplified)" in
  next_free fuel (name_taken pallettes options) pal_name 1 pal_name.

(** The name [import_palette] falls back on when [name] is taken and is
    not to be overwritten: its loop tests
    [newname in pallettes or newname in DEFAULT_PALETTE_OPTIONS]. *)
Definition suffixed_name (fuel : nat) (pallettes : gmap string (list Color))
    (options : list string) (name : string) : option string :=
  next_free fuel (name_taken pallettes options) name 1
    (name +:+ " " +:+ pretty 1).

(** The name [load_palettes] gives a file whose [name] is in [pallettes]:
    its loop tests [newname in pallettes] only. *)
Definition loaded_name (fuel : nat) (pallettes : gmap string (list Color))
    (name : string) : option string :=
  next_free fuel (fun newname => bool_decide (newname ∈ dom pallettes)) name 1
    (name +:+ " " +:+ pretty 1).

(** [_do_save] of [analyze_done] with the stripped text [name] of the entry
    and the answer to "Overwrite it?": the palettes and the menu options
    after it, or [None] when nothing is saved. *)
Definition _do_save (name : string) (overwrite : bool) (s : wstate)
    (pallettes : gmap string (list Color)) (options : list string)
    : option (gmap string (list Color) * list string) :=
  if decide (name = "") then None
  else if name_taken pallettes options name && negb overwrite then None
  else Some (<[name := saved_colors s]> pallettes,
             if decide (name ∈ options) then options else options ++ [name]).

(** The names that are taken, as a set. *)
Definition taken_names (pallettes : gmap string (list Color))
    (options : list string) : gset string :=
  dom pallettes ∪ list_to_set options.

(** ** Sorting a palette *)

(** The floats [0.2126], [0.7152] and [0.0722]. *)
Definition luma_r : spec_float := S754_finite false 7659722246231740 (-55).
Definition luma_g : spec_float := S754_finite false 6441948906990757 (-53).
Definition luma_b : spec_float := S754_finite false 5202558289538397 (-56).

(** [luminance(c)]: [0.2126 * c[0] + 0.7152 * c[1] + 0.0722 * c[2]] *)
Definition luminance (c : Color) : option spec_float :=
  let '(r, g, b) := c in
  r ← float_of_int r;
  g ← float_of_int g;
  b ← float_of_int b;
  Some (SFadd prec emax
          (SFadd prec emax (SFmul prec emax luma_r r) (SFmul prec emax luma_g g))
          (SFmul prec emax luma_b b)).

(** [c1 < c2] for two tuples of three integers *)
Definition color_lt (c1 c2 : Color) : bool :=
  let '(r1, g1, b1) := c1 in
  let '(r2, g2, b2) := c2 in
  if (r1 =? r2)%Z then if (g1 =? g2)%Z then (b1 <? b2)%Z else (g1 <? g2)%Z
  else (r1 <? r2)%Z.

(** [k1 < k2] for two keys [(luminance(c), c)] *)
Definition key_lt (k1 k2 : spec_float * Color) : bool :=
  if SFeqb k1.1 k2.1 then color_lt k1.2 k2.2 else SFltb k1.1 k2.1.

(** [sorted] is stable: an entry is put after the entries that are not
    greater than it. *)
Fixpoint insert_sorted (k : spec_float * Color)
    (l : list (spec_float * Color)) : list (spec_float * Color) :=
  match l with
  | [] => [k]
  | k' :: l' => if key_lt k k' then k :: l else k' :: insert_sorted k l'
  end.

Definition py_sorted (l : list (spec_float * Color))
    : list (spec_float * Color) :=
  fold_left (fun acc k => insert_sorted k acc) l [].

(** The key [(luminance(c), c)] of a colour *)
Definition sort_key (c : Color) : option (spec_float * Color) :=
  l ← luminance c; Some (l, c).

(** [_sort_palette_colors]: the keys are computed first, and an exception
    in that gives [list(cols)]. *)
Definition _sort_palette_colors (cols : list Color) : list Color :=
  match mapM sort_key cols with
  | Some keys => snd <$> py_sorted keys
  | None => cols
  end.

(** No entry of [l] is followed by a smaller one. *)
Fixpoint ordered (l : list (spec_float * Color)) : Prop :=
  match l with
  | k :: l' =>
      match l' with
      | k' :: _ => key_lt k' k = false
      | [] => True
      end /\ ordered l'
  | [] => True
  end.

(** The check that [float] of 0..255 is finite. *)
Definition bytes_are_floats : bool :=
  forallb (fun n => bool_decide (is_Some (float_of_int n))) (seqZ 0 256).

(** ** The progress bar *)

(** [_poll_progress]: the value it puts on the progress bar,
    [val = float(progress)] after [if val < 0.0: val = 0.0] and
    [if val > 100.0: val = 100.0]. *)
Definition _poll_progress (s : wstate) : spec_float :=
  let val := progress s in
  let val := if SFltb val (float_of_Z 0) then float_of_Z 0 else val in
  if SFltb (float_of_Z 100) val then float_of_Z 100 else val.

(** ** Samples for the palette files and the editor *)

(** No character above ASCII counts as a letter, a digit or white space. *)
Definition ascii_only : unicode :=
  Unicode (fun _ => false) (fun _ => false) (fun _ => None).

(** What a discovery run at threshold 95 hands over for [two_pixels]. *)
Definition discovered_two : image :=
  default two_pixels
    (result_image (analyze_image_worker (discover 95 None) (loaded two_pixels))).

Definition bw_palettes : gmap string (list Color) := {[ "bw" := black_white ]}.

(** The palette of that run saved as "mine", and fixed-palette mode on it. *)
Definition saved_mine : gmap string (list Color) * list string :=
  (<["mine" := saved_colors
                 (analyze_image_worker (discover 95 None) (loaded two_pixels)).2]> ∅,
   ["Simplify Pallette"; "mine"]).

Definition onto_mine : config :=
  Config 95 "mine" saved_mine.1 (Some 0) id_shuffler None.

(** * Properties *)

(** ** The metric *)

Lemma color_distance_sq_nonneg (a b : Color) : (0 <= color_distance_sq a b)%Z.
Proof. destruct a as [[r1 g1] b1], b as [[r2 g2] b2]; simpl. nia. Qed.

Lemma color_distance_sq_zero (a b : Color) :
  color_distance_sq a b = 0%Z -> a = b.
Proof.
  destruct a as [[r1 g1] b1], b as [[r2 g2] b2]; simpl; intros H.
  assert (r1 - r2 = 0 /\ g1 - g2 = 0 /\ b1 - b2 = 0)%Z as (? & ? & ?) by nia.
  repeat f_equal; lia.
Qed.

Lemma color_distance_sq_refl (a : Color) : color_distance_sq a a = 0%Z.
Proof. destruct a as [[r g] b]; simpl. ring. Qed.

Lemma color_distance_sq_bound (a b : Color) :
  valid_color a -> valid_color b -> (color_distance_sq a b <= 195075)%Z.
Proof.
  destruct a as [[r1 g1] b1], b as [[r2 g2] b2]; simpl.
  intros (? & ? & ?) (? & ? & ?).
  assert ((r1 - r2) ^ 2 <= 65025)%Z by nia.
  assert ((g1 - g2) ^ 2 <= 65025)%Z by nia.
  assert ((b1 - b2) ^ 2 <= 65025)%Z by nia.
  lia.
Qed.

(** C9: [color_distance_sq] is the integer sum of the squared differences
    of the three channels, it is symmetric, and it is 0 on equal colours. *)
Theorem color_distance_sq_metric (a b : Color) :
  color_distance_sq a b =
    ((a.1.1 - b.1.1) ^ 2 + (a.1.2 - b.1.2) ^ 2 + (a.2 - b.2) ^ 2)%Z
  /\ color_distance_sq a b = color_distance_sq b a
  /\ color_distance_sq a a = 0%Z.
Proof.
  destruct a as [[r1 g1] b1], b as [[r2 g2] b2]; simpl.
  split; [reflexivity | split; ring].
Qed.

(** ** The nearest entry *)

Lemma scan_nearest_spec (c : Color) (rest seen : list Color) (best : Color) :
  first_nearest c seen best ->
  first_nearest c (seen ++ rest)
    (scan_nearest c best (color_distance_sq c best) rest).
Proof.
  revert seen best. induction rest as [|color rest IH]; intros seen best Hb; simpl.
  - by rewrite app_nil_r.
  - replace (seen ++ color :: rest) with ((seen ++ [color]) ++ rest)
      by (by rewrite <- app_assoc).
    destruct Hb as (i & Hi & Hmin & Hfirst).
    destruct (Z.ltb_spec (color_distance_sq c color) (color_distance_sq c best)).
    + apply IH. exists (length seen). split; [|split].
      * rewrite lookup_app_r by lia. by rewrite Nat.sub_diag.
      * intros q [Hq | ->%list_elem_of_singleton]%elem_of_app; [|lia].
        specialize (Hmin q Hq). lia.
      * intros j q Hj Hq. rewrite lookup_app_l in Hq by lia.
        apply list_elem_of_lookup_2, Hmin in Hq. lia.
    + apply IH. exists i. split; [|split].
      * apply lookup_app_l_Some, Hi.
      * intros q [Hq | ->%list_elem_of_singleton]%elem_of_app; [|lia].
        by apply Hmin.
      * intros j q Hj Hq. apply lookup_lt_Some in Hi.
        rewrite lookup_app_l in Hq by lia. by eapply Hfirst.
Qed.

Lemma find_nearest_spec (c first : Color) (rest : list Color) :
  first_nearest c (first :: rest) (find_nearest c first rest).
Proof.
  apply (scan_nearest_spec c rest [first] first).
  exists 0. split; [done | split].
  - by intros q ->%list_elem_of_singleton.
  - intros; lia.
Qed.

Lemma first_nearest_unique (c : Color) (pal : list Color) (r1 r2 : Color) :
  first_nearest c pal r1 -> first_nearest c pal r2 -> r1 = r2.
Proof.
  intros (i & Hi & Hmi & Hfi) (j & Hj & Hmj & Hfj).
  destruct (Nat.lt_trichotomy i j) as [Hlt | [-> | Hlt]].
  - specialize (Hfj _ _ Hlt Hi).
    specialize (Hmi r2 (list_elem_of_lookup_2 _ _ _ Hj)). lia.
  - congruence.
  - specialize (Hfi _ _ Hlt Hj).
    specialize (Hmj r1 (list_elem_of_lookup_2 _ _ _ Hi)). lia.
Qed.

Lemma first_nearest_elem (c : Color) (pal : list Color) (r : Color) :
  first_nearest c pal r -> r ∈ pal.
Proof. intros (i & Hi & _). by eapply list_elem_of_lookup_2. Qed.

(** An entry of the palette is its own nearest entry. *)
Lemma find_nearest_member (c first : Color) (rest : list Color) :
  c ∈ first :: rest -> find_nearest c first rest = c.
Proof.
  intros Hc. destruct (find_nearest_spec c first rest) as (i & Hi & Hmin & _).
  specialize (Hmin c Hc).
  pose proof (color_distance_sq_nonneg c (find_nearest c first rest)).
  pose proof (color_distance_sq_refl c).
  symmetry. apply color_distance_sq_zero. lia.
Qed.

(** ** Loops *)

(** A property that every iteration keeps holds after the loop. *)
Lemma for_each_preserve {A} (P : wstate -> Prop) (body : A -> wstate -> wstate)
    (l : list A) (s : wstate) :
  P s -> (forall a s, a ∈ l -> P s -> P (body a s)) -> P (for_each body l s).
Proof.
  revert s. induction l as [|a l IH]; intros s Hs Hbody; simpl; [done|].
  assert (P (body a s)) by (apply Hbody; [left | done]).
  destruct (stopped (body a s)); [done|].
  apply IH; [done|]. intros a' s' Ha'. apply Hbody. by right.
Qed.

(** The rule for a loop that may be left early: [I seen] holds between
    iterations, where [seen] are the items already iterated over, and [Q]
    holds when the loop is left by a [break] or an exception. *)
Lemma for_each_break {A} (I : list A -> wstate -> Prop) (Q : wstate -> Prop)
    (body : A -> wstate -> wstate) (l : list A) (s : wstate) :
  I [] s ->
  (forall seen a rest s, l = seen ++ a :: rest -> I seen s ->
     if stopped (body a s) then Q (body a s) else I (seen ++ [a]) (body a s)) ->
  match l with
  | [] => I [] (for_each body l s)
  | _ :: _ =>
      if stopped (for_each body l s) then Q (for_each body l s)
      else I l (for_each body l s)
  end.
Proof.
  intros H0 Hstep.
  assert (forall rest seen s, l = seen ++ rest -> I seen s ->
            rest <> [] ->
            if stopped (for_each body rest s) then Q (for_each body rest s)
            else I l (for_each body rest s)) as Hgen.
  { induction rest as [|a rest IH]; intros seen s' Hl Hd Hne; [done|].
    simpl. specialize (Hstep seen a rest s' Hl Hd).
    destruct (stopped (body a s')) eqn:Hst; [by rewrite Hst|].
    destruct rest as [|b rest'].
    - simpl. rewrite Hst. by rewrite Hl.
    - apply (IH (seen ++ [a])); [by rewrite <- app_assoc | done | done]. }
  destruct l as [|a l']; [done|].
  by apply (Hgen (a :: l') []).
Qed.

Lemma guard_preserve (P : wstate -> Prop) (req : option nat)
    (body : wstate -> wstate) (s : wstate) :
  (forall s b, P s -> P (log (EvCheck b) s)) ->
  (forall s, P s -> P (set_canceled true s)) ->
  (forall s, P s -> P (body s)) ->
  P s -> P (guard req body s).
Proof. intros Hlog Hc Hb Hs. unfold guard. destruct (is_set req s); auto. Qed.

Lemma elem_of_tile_coords (x0 x1 y0 y1 : nat) (xy : nat * nat) :
  xy ∈ tile_coords x0 x1 y0 y1 <->
  x0 <= xy.1 < x1 /\ y0 <= xy.2 < y1.
Proof.
  unfold tile_coords. rewrite list_elem_of_bind. split.
  - intros (y & (x & ->%list_elem_of_singleton & Hx%elem_of_seq)%list_elem_of_bind
              & Hy%elem_of_seq).
    simpl. lia.
  - intros [Hx Hy]. exists xy.2. split; [|apply elem_of_seq; lia].
    apply list_elem_of_bind. exists xy.1. split; [|apply elem_of_seq; lia].
    destruct xy. by apply list_elem_of_singleton.
Qed.

Lemma elem_of_py_range (stop step a : nat) :
  a ∈ py_range 0 stop step -> a < stop.
Proof.
  unfold py_range.
  intros (k & -> & Hk%elem_of_seq)%list_elem_of_fmap.
  destruct Hk as [_ Hk]. rewrite Nat.add_0_l, Nat.sub_0_r in Hk.
  destruct (decide (step = 0)) as [-> | Hstep]; [simpl in Hk; lia|].
  pose proof (Nat.Div0.mul_div_le (stop + (step - 1)) step).
  nia.
Qed.

(** Induction over the loops of a mode: the outer loops check for
    cancellation and run their inner loop, the innermost body checks,
    decides a pixel of the image and counts it. *)
Lemma simplify_loops_ind (P : wstate -> Prop) (cfg : config) (l : loc)
    (width height : nat) (s : wstate) :
  (forall body s, (forall s', P s' -> P (body s')) -> P s ->
     P (guard (cancel_req cfg) body s)) ->
  (forall xy s, xy.1 < width -> xy.2 < height -> P s ->
     P (guard (cancel_req cfg) (fun s =>
          count_pixel (width * height) xy
            (simplify_pixel (allowed_sq (similarity_threshold cfg)) l xy s)) s)) ->
  P (set_processed 0 s) -> P (simplify_loops cfg l width height s).
Proof.
  intros Hg Hsimp Hs.
  unfold simplify_loops. apply for_each_preserve; [done|].
  intros y0 s1 Hy0 Hs1. apply Hg; [|done]. intros s2 Hs2.
  apply for_each_preserve; [done|].
  intros x0 s3 Hx0 Hs3. apply Hg; [|done]. intros s4 Hs4.
  apply for_each_preserve; [done|]. intros xy s5 Hxy Hs5.
  rewrite (shuffle_perm (rng cfg)) in Hxy.
  apply elem_of_tile_coords in Hxy. apply Hsimp; [lia | lia | done].
Qed.

Lemma pallette_loops_ind (P : wstate -> Prop) (cfg : config) (l : loc)
    (width height : nat) (s : wstate) :
  (forall body s, (forall s', P s' -> P (body s')) -> P s ->
     P (guard (cancel_req cfg) body s)) ->
  (forall xy s, xy.1 < width -> xy.2 < height -> P s ->
     let pallette := default [] (pallettes cfg !! get_pallette cfg) in
     P (guard (cancel_req cfg) (fun s =>
          count_pixel (pallette_total pallette width height) xy
            (map_pixel pallette l xy s))
          s)) ->
  P (set_processed 0 s) -> P (pallette_loops cfg l width height s).
Proof.
  intros Hg Hmap Hs.
  unfold pallette_loops. apply for_each_preserve; [done|].
  intros y s1 Hy%elem_of_seq Hs1. apply Hg; [|done]. intros s2 Hs2.
  apply for_each_preserve; [done|]. intros x s3 Hx%elem_of_seq Hs3.
  apply (Hmap (x, y)); simpl; [lia | lia | done].
Qed.

Lemma pallette_total_nonzero pal width height x y :
  x < width -> y < height -> pallette_total pal width height <> 0.
Proof. intros. destruct pal; simpl; [lia | nia]. Qed.

Lemma run_loops_ind (P : wstate -> Prop) (cfg : config) (l : loc)
    (width height : nat) (s : wstate) :
  (forall body s, (forall s', P s' -> P (body s')) -> P s ->
     P (guard (cancel_req cfg) body s)) ->
  (forall total xy s, total <> 0 -> P s ->
     P (guard (cancel_req cfg) (fun s =>
          count_pixel total xy
            (simplify_pixel (allowed_sq (similarity_threshold cfg)) l xy s)) s)) ->
  (forall total pal xy s, total <> 0 -> P s ->
     P (guard (cancel_req cfg) (fun s =>
          count_pixel total xy (map_pixel pal l xy s)) s)) ->
  P (set_processed 0 s) -> P (run_loops cfg l width height s).
Proof.
  intros Hg Hsimp Hmap Hs. unfold run_loops. case_decide.
  - apply simplify_loops_ind; auto. intros xy s1 Hx Hy. apply Hsimp. nia.
  - apply pallette_loops_ind; auto. intros xy s1 Hx Hy. apply Hmap.
    by eapply pallette_total_nonzero.
Qed.

(** The same, for a property that each primitive step keeps. *)
Lemma run_loops_preserve (P : wstate -> Prop) (cfg : config) (l : loc)
    (width height : nat) (s : wstate) :
  (forall s b, P s -> P (log (EvCheck b) s)) ->
  (forall s, P s -> P (set_canceled true s)) ->
  (forall total xy s, total <> 0 -> P s -> P (count_pixel total xy s)) ->
  (forall a xy s, P s -> P (simplify_pixel a l xy s)) ->
  (forall pal xy s, P s -> P (map_pixel pal l xy s)) ->
  P (set_processed 0 s) -> P (run_loops cfg l width height s).
Proof.
  intros Hlog Hc Hcount Hsimp Hmap Hs.
  apply run_loops_ind; [ | | | done].
  - intros body s1 Hb Hs1. by apply guard_preserve.
  - intros total xy s1 Ht Hs1. apply guard_preserve; auto.
  - intros total pal xy s1 Ht Hs1. apply guard_preserve; auto.
Qed.

(** ** What each step changes *)

Lemma cached_nearest_state (c first : Color) (rest : list Color) (s s1 : wstate)
    (n : Color) :
  cached_nearest c first rest s = (n, s1) ->
  exists K, s1 = set_nearest_cache K s /\ K !! c = Some n
    /\ (nearest_cache s !! c = Some n /\ K = nearest_cache s
        \/ nearest_cache s !! c = None /\ n = find_nearest c first rest
           /\ K = <[c := n]> (nearest_cache s)).
Proof.
  unfold cached_nearest. destruct (nearest_cache s !! c) as [n'|] eqn:Hc;
    intros [= <- <-].
  - exists (nearest_cache s). split; [by destruct s | auto].
  - eexists. split; [done|]. split; [apply lookup_insert_eq | auto].
Qed.

Lemma count_pixel_heap total xy s : heap (count_pixel total xy s) = heap s.
Proof. unfold count_pixel. repeat case_decide; done. Qed.

Lemma count_pixel_saved_colors total xy s :
  saved_colors (count_pixel total xy s) = saved_colors s.
Proof. unfold count_pixel. repeat case_decide; done. Qed.

Lemma count_pixel_nearest_cache total xy s :
  nearest_cache (count_pixel total xy s) = nearest_cache s.
Proof. unfold count_pixel. repeat case_decide; done. Qed.

Lemma count_pixel_canceled total xy s :
  canceled (count_pixel total xy s) = canceled s.
Proof. unfold count_pixel. repeat case_decide; done. Qed.

Lemma count_pixel_total_pixels total xy s :
  total_pixels (count_pixel total xy s) = total_pixels s.
Proof. unfold count_pixel. repeat case_decide; done. Qed.

Lemma count_pixel_processed total xy s :
  processed (count_pixel total xy s) = processed s + 1.
Proof. unfold count_pixel. repeat case_decide; done. Qed.

(** The decision for a pixel writes to the image at [l] only. *)
Lemma simplify_pixel_heap_other a l xy s l' :
  l' <> l -> heap (simplify_pixel a l xy s) !! l' = heap s !! l'.
Proof.
  intros Hne. unfold simplify_pixel. case_decide; [done|].
  destruct (saved_colors s); [done|].
  destruct (cached_nearest _ _ _ s) as [n s1] eqn:Hn.
  apply cached_nearest_state in Hn as (K & -> & _).
  destruct (int_gt_float _ a); [done|].
  simpl. by rewrite lookup_alter_ne.
Qed.

Lemma map_pixel_heap_other pal l xy s l' :
  l' <> l -> heap (map_pixel pal l xy s) !! l' = heap s !! l'.
Proof.
  intros Hne. unfold map_pixel. destruct pal; [done|].
  destruct (cached_nearest _ _ _ s) as [n s1] eqn:Hn.
  apply cached_nearest_state in Hn as (K & -> & _).
  simpl. by rewrite lookup_alter_ne.
Qed.

Lemma run_loops_heap_other cfg l width height s l' :
  l' <> l -> heap (run_loops cfg l width height s) !! l' = heap s !! l'.
Proof.
  intros Hne.
  apply (run_loops_preserve (fun s' => heap s' !! l' = heap s !! l'));
    try done.
  - intros total xy s1 _ Hs1. by rewrite count_pixel_heap.
  - intros a xy s1 Hs1. by rewrite simplify_pixel_heap_other.
  - intros pal xy s1 Hs1. by rewrite map_pixel_heap_other.
Qed.

Lemma conclude_heap l s : heap (conclude l s).2 = heap s.
Proof. unfold conclude. by destruct (raised s), (canceled s). Qed.

Lemma fresh_not_allocated (h : gmap loc image) (l : loc) :
  is_Some (h !! l) -> l <> fresh (dom h).
Proof.
  intros Hl%elem_of_dom ->. by apply (is_fresh (dom h)).
Qed.

(** ** The caller's image *)

(** C10: a run leaves the image object [app.original_image] as it was, in
    both modes and whatever the outcome: the worker allocates a copy and
    writes to the copy only. *)
Theorem original_image_unchanged (cfg : config) (g : wstate) (orig : loc) :
  original_image cfg = Some orig ->
  heap (analyze_image_worker cfg g).2 !! orig = heap g !! orig.
Proof.
  intros Ho. unfold analyze_image_worker. rewrite Ho.
  destruct (heap g !! orig) as [img|] eqn:Himg; [|by simpl].
  assert (orig <> fresh (dom (heap g))) as Hne
    by (by apply fresh_not_allocated).
  rewrite conclude_heap. unfold run_checked.
  destruct (float_of_int _) as [f|]; [rewrite run_loops_heap_other by done|];
    simpl; by rewrite lookup_insert_ne.
Qed.

(** ** The discovered palette *)

Lemma simplify_pixel_NoDup a l xy s :
  NoDup (saved_colors s) -> NoDup (saved_colors (simplify_pixel a l xy s)).
Proof.
  intros Hnd. unfold simplify_pixel. case_decide as Hin; [done|].
  destruct (saved_colors s) as [|first rest] eqn:Hsaved.
  { simpl. apply NoDup_singleton. }
  destruct (cached_nearest _ _ _ s) as [n s1] eqn:Hn.
  apply cached_nearest_state in Hn as (K & -> & _).
  destruct (int_gt_float _ a); simpl; [|by rewrite Hsaved].
  rewrite Hsaved. apply NoDup_app. split; [done|]. split.
  - intros q Hq ->%list_elem_of_singleton. by apply Hin.
  - apply NoDup_singleton.
Qed.

Lemma map_pixel_saved_colors pal l xy s :
  saved_colors (map_pixel pal l xy s) = saved_colors s.
Proof.
  unfold map_pixel. destruct pal; [done|].
  destruct (cached_nearest _ _ _ s) as [n s1] eqn:Hn.
  by apply cached_nearest_state in Hn as (K & -> & _).
Qed.

Lemma conclude_saved_colors l s : saved_colors (conclude l s).2 = saved_colors s.
Proof. unfold conclude. by destruct (raised s), (canceled s). Qed.

(** C8: the palette of discovery mode holds no colour twice. A run that is
    canceled at time [r] ends in the state the worker is in at its first
    check after [r], so the statement for every [cancel_req] covers the
    palette during a run as well as after it. *)
Theorem saved_colors_NoDup (cfg : config) (g : wstate) :
  (analyze_image_worker cfg g).1 <> FAILED ->
  NoDup (saved_colors (analyze_image_worker cfg g).2).
Proof.
  unfold analyze_image_worker.
  destruct (original_image cfg) as [orig|]; [|done].
  destruct (heap g !! orig) as [img|]; [|done].
  intros _. rewrite conclude_saved_colors. unfold run_checked.
  destruct (float_of_int _) as [f|]; [|apply NoDup_nil_2].
  apply (run_loops_preserve (fun s => NoDup (saved_colors s))); try done.
  - intros total xy s _ Hs. by rewrite count_pixel_saved_colors.
  - intros a xy s Hs. by apply simplify_pixel_NoDup.
  - intros pal xy s Hs. by rewrite map_pixel_saved_colors.
  - simpl. apply NoDup_nil_2.
Qed.

(** ** The step of discovery mode *)

Lemma cached_nearest_looked_up c first rest s n s1 :
  cached_nearest c first rest s = (n, s1) ->
  looked_up (nearest_cache s) c (first :: rest) n.
Proof.
  intros (K & _ & _ & [[Hc _] | (Hc & -> & _)])%cached_nearest_state;
    unfold looked_up; rewrite Hc; [done|]. apply find_nearest_spec.
Qed.

Lemma load_px_store_px l xy v s xy' :
  is_Some (heap s !! l) ->
  load_px l xy' (store_px l xy v s) =
    if decide (xy' = xy) then v else load_px l xy' s.
Proof.
  intros [im Him]. unfold load_px, store_px; simpl.
  by rewrite lookup_total_alter_eq, (lookup_total_correct _ _ _ Him), Him.
Qed.

(** C1: in discovery mode the decision for one pixel is the specified
    transition on the palette, the cache and the colour of the pixel; no
    other pixel and no other variable of the worker changes. *)
Theorem simplify_pixel_transition (allowed : spec_float) (l : loc)
    (xy : nat * nat) (s : wstate) :
  is_Some (heap s !! l) ->
  let s' := simplify_pixel allowed l xy s in
  pixel_transition allowed
    (saved_colors s, nearest_cache s, load_px l xy s)
    (saved_colors s', nearest_cache s', load_px l xy s')
  /\ (forall xy', xy' <> xy -> load_px l xy' s' = load_px l xy' s)
  /\ s' = set_heap (heap s')
            (set_saved_colors (saved_colors s')
               (set_nearest_cache (nearest_cache s') s)).
Proof.
  intros Hl. unfold simplify_pixel.
  set (c := load_px l xy s).
  destruct (decide (c ∈ saved_colors s)) as [Hin | Hin]; simpl.
  { split; [by constructor | split; [done | by destruct s]]. }
  destruct (saved_colors s) as [|first rest] eqn:Hsaved.
  { simpl. split; [constructor | split; [done | by destruct s]]. }
  destruct (cached_nearest c first rest s) as [n s1] eqn:Hn.
  pose proof (cached_nearest_looked_up _ _ _ _ _ _ Hn) as Hlook.
  apply cached_nearest_state in Hn as (K & -> & HK & Hcase).
  destruct (int_gt_float (color_distance_sq n c) allowed) eqn:Hfar; simpl.
  - rewrite Hsaved. split; [|split; [done | by destruct s]].
    replace (delete c K) with (delete c (nearest_cache s)).
    { by eapply transition_insert. }
    destruct Hcase as [[_ ->] | (_ & _ & ->)]; [done|].
    by rewrite delete_insert_eq.
  - rewrite Hsaved.
    assert (is_Some (heap (set_nearest_cache K s) !! l)) as Hl' by done.
    split; [|split].
    + rewrite (load_px_store_px _ _ _ _ _ Hl'), decide_True by done.
      replace K with (<[c := n]> (nearest_cache s)).
      { by eapply transition_replace. }
      destruct Hcase as [[Hc ->] | (_ & _ & ->)]; [|done].
      by apply insert_id.
    + intros xy' Hne.
      by rewrite (load_px_store_px _ _ _ _ _ Hl'), decide_False.
    + rewrite <- Hsaved. by destruct s.
Qed.

(** ** The log *)

Lemma simplify_pixel_frame a l xy s :
  exists h P K,
    simplify_pixel a l xy s = set_heap h (set_saved_colors P (set_nearest_cache K s)).
Proof.
  unfold simplify_pixel. case_decide.
  { exists (heap s), (saved_colors s), (nearest_cache s). by destruct s. }
  destruct (saved_colors s) eqn:Hsaved.
  { exists (heap s), [load_px l xy s], (nearest_cache s). by destruct s. }
  destruct (cached_nearest _ _ _ s) as [n s1] eqn:Hn.
  apply cached_nearest_state in Hn as (K & -> & _).
  destruct (int_gt_float _ a).
  - exists (heap s), (saved_colors s ++ [load_px l xy s]),
      (delete (load_px l xy s) K).
    by destruct s.
  - exists (alter (fun im => px_set im xy n) l (heap s)), (saved_colors s), K.
    by destruct s.
Qed.

Lemma map_pixel_frame pal l xy s :
  exists h K, map_pixel pal l xy s = set_heap h (set_nearest_cache K s).
Proof.
  unfold map_pixel. destruct pal.
  { exists (heap s), (nearest_cache s). by destruct s. }
  destruct (cached_nearest _ _ _ s) as [n s1] eqn:Hn.
  apply cached_nearest_state in Hn as (K & -> & _).
  exists (alter (fun im => px_set im xy n) l (heap s)), K. by destruct s.
Qed.

Lemma simplify_pixel_trace a l xy s : trace (simplify_pixel a l xy s) = trace s.
Proof. by destruct (simplify_pixel_frame a l xy s) as (h & P & K & ->). Qed.

Lemma map_pixel_trace pal l xy s : trace (map_pixel pal l xy s) = trace s.
Proof. by destruct (map_pixel_frame pal l xy s) as (h & K & ->). Qed.

Lemma count_pixel_trace total xy s :
  exists tl, trace (count_pixel total xy s) = trace s ++ EvPixel xy :: tl
    /\ (tl = [] \/ exists n, tl = [EvPublish n]).
Proof.
  unfold count_pixel. repeat case_decide; simpl.
  - exists []. auto.
  - eexists [_]. rewrite <- app_assoc. eauto.
  - exists []. auto.
Qed.

Lemma visited_count_pixel p total xy s :
  EvPixel p ∈ trace (count_pixel total xy s) <-> EvPixel p ∈ trace s \/ p = xy.
Proof.
  destruct (count_pixel_trace total xy s) as (tl & -> & Htl).
  rewrite elem_of_app, elem_of_cons.
  split.
  - intros [? | [[= ->] | Hp]]; auto.
    destruct Htl as [-> | [n ->]]; [by apply elem_of_nil in Hp|].
    by apply list_elem_of_singleton in Hp.
  - intros [? | ->]; auto.
Qed.

Lemma visited_log_check p b s :
  EvPixel p ∈ trace (log (EvCheck b) s) <-> EvPixel p ∈ trace s.
Proof.
  simpl. rewrite elem_of_app, list_elem_of_singleton.
  split; [by intros [? | ?] | auto].
Qed.

Lemma guard_grows req body s :
  (forall s, trace s `prefix_of` trace (body s)) ->
  trace s `prefix_of` trace (guard req body s).
Proof.
  intros Hb. unfold guard. destruct (is_set req s); simpl.
  - by apply prefix_app_r.
  - etrans; [|apply Hb]. simpl. by apply prefix_app_r.
Qed.

Lemma for_each_grows {A} (body : A -> wstate -> wstate) l s :
  (forall a s, trace s `prefix_of` trace (body a s)) ->
  trace s `prefix_of` trace (for_each body l s).
Proof.
  intros Hb.
  apply (for_each_preserve (fun s' => trace s `prefix_of` trace s')); [done|].
  intros a s' _ Hs'. etrans; [done | apply Hb].
Qed.

Lemma count_pixel_grows total xy s :
  trace s `prefix_of` trace (count_pixel total xy s).
Proof.
  destruct (count_pixel_trace total xy s) as (tl & -> & _). by apply prefix_app_r.
Qed.

(** A loop that ran to its end has done every iteration: what an
    iteration establishes, and later ones keep, holds for every item. *)
Lemma for_each_covers {A} (E : A -> wstate -> Prop)
    (body : A -> wstate -> wstate) (l : list A) (s : wstate) :
  (forall a s, stopped (body a s) = false -> E a (body a s)) ->
  (forall a b s, E a s -> E a (body b s)) ->
  stopped (for_each body l s) = false ->
  forall a, a ∈ l -> E a (for_each body l s).
Proof.
  intros Hdo Hkeep. revert s.
  induction l as [|b l IH]; intros s Hrun a Ha; [by apply elem_of_nil in Ha|].
  simpl in *. destruct (stopped (body b s)) eqn:Hst; [congruence|].
  apply elem_of_cons in Ha as [-> | Ha]; [|by apply IH].
  apply (for_each_preserve (E b)); [by apply Hdo | auto].
Qed.

(** ** Exceptions and cancellation *)

Lemma count_pixel_raised total xy s :
  total <> 0 -> raised (count_pixel total xy s) = raised s.
Proof. intros. unfold count_pixel. repeat case_decide; done. Qed.

Lemma simplify_pixel_raised a l xy s : raised (simplify_pixel a l xy s) = raised s.
Proof. by destruct (simplify_pixel_frame a l xy s) as (h & P & K & ->). Qed.

Lemma map_pixel_raised pal l xy s : raised (map_pixel pal l xy s) = raised s.
Proof. by destruct (map_pixel_frame pal l xy s) as (h & K & ->). Qed.

Lemma simplify_pixel_canceled a l xy s :
  canceled (simplify_pixel a l xy s) = canceled s.
Proof. by destruct (simplify_pixel_frame a l xy s) as (h & P & K & ->). Qed.

Lemma map_pixel_canceled pal l xy s : canceled (map_pixel pal l xy s) = canceled s.
Proof. by destruct (map_pixel_frame pal l xy s) as (h & K & ->). Qed.

(** No division by zero: a batch is only ever counted inside an image
    that has pixels. *)
Lemma run_loops_raised cfg l width height s :
  raised s = false -> raised (run_loops cfg l width height s) = false.
Proof.
  apply (run_loops_preserve (fun s => raised s = false)); try done.
  - intros total xy s1 Ht Hs1. by rewrite count_pixel_raised.
  - intros a xy s1 Hs1. by rewrite simplify_pixel_raised.
  - intros pal xy s1 Hs1. by rewrite map_pixel_raised.
Qed.

(** Without a request the worker never sets [canceled]. *)
Lemma run_loops_canceled cfg l width height s :
  cancel_req cfg = None -> canceled s = false ->
  canceled (run_loops cfg l width height s) = false.
Proof.
  intros Hreq.
  apply (run_loops_ind (fun s => canceled s = false)).
  - intros body s1 Hb Hs1. unfold guard. rewrite Hreq. simpl. by apply Hb.
  - intros total xy s1 _ Hs1. unfold guard. rewrite Hreq. simpl.
    by rewrite count_pixel_canceled, simplify_pixel_canceled.
  - intros total pal xy s1 _ Hs1. unfold guard. rewrite Hreq. simpl.
    by rewrite count_pixel_canceled, map_pixel_canceled.
Qed.

(** ** Fixed-palette mode *)

Section fixed_palette.
Context (first : Color) (rest : list Color).

Local Abbreviation N := (nearest_in first rest).

Lemma nearest_idempotent c : N (N c) = N c.
Proof.
  apply find_nearest_member. eapply first_nearest_elem, find_nearest_spec.
Qed.

Lemma cached_nearest_agrees c s n s1 :
  cache_agrees N s ->
  cached_nearest c first rest s = (n, s1) ->
  n = N c /\ cache_agrees N s1.
Proof.
  intros Hagree (K & -> & _ & [[Hc ->] | (Hc & -> & ->)])%cached_nearest_state.
  - split; [by apply Hagree | done].
  - split; [done|]. intros c' n'. simpl.
    rewrite lookup_insert. case_decide; [by intros [= <-]; subst | apply Hagree].
Qed.

Lemma map_pixel_step req total img l xy s :
  cache_agrees N s /\ quantized N img l s ->
  let s' := guard req (fun s =>
              count_pixel total xy (map_pixel (first :: rest) l xy s)) s in
  cache_agrees N s' /\ quantized N img l s'.
Proof.
  intros [Hagree (im & Him & Hsize & Hpx)]. unfold guard.
  destruct (is_set req s).
  { split; [done|]. exists im. split; [done|]. split; [done|].
    intros p. rewrite (visited_log_check p true s). apply Hpx. }
  unfold map_pixel.
  destruct (cached_nearest _ _ _ _) as [n s1] eqn:Hn.
  assert (cache_agrees N (log (EvCheck false) s)) as Hagree' by done.
  destruct (cached_nearest_agrees _ _ _ _ Hagree' Hn) as [-> Hagree1].
  apply cached_nearest_state in Hn as (K & -> & _).
  split.
  { intros c n. rewrite count_pixel_nearest_cache. apply Hagree1. }
  exists (px_set im xy (N (px im xy))). split; [|split; [done|]].
  - rewrite count_pixel_heap. simpl. rewrite lookup_alter_eq, Him. simpl.
    unfold load_px. simpl. by rewrite (lookup_total_correct _ _ _ Him).
  - intros p. rewrite visited_count_pixel. simpl.
    change (EvPixel p ∈ trace s ++ [EvCheck false])
      with (EvPixel p ∈ trace (log (EvCheck false) s)).
    rewrite (visited_log_check p false s).
    destruct (Hpx p) as [Hyes Hno], (Hpx xy) as [Hyes' Hno'].
    case_decide as Hp; [subst p|].
    + split; [intros _ | tauto].
      destruct (decide (EvPixel xy ∈ trace s)) as [Hv | Hv].
      * rewrite (Hyes' Hv). apply nearest_idempotent.
      * by rewrite (Hno' Hv).
    + split; [intros [? | ?]; [auto | done] | auto].
Qed.

Lemma pallette_loops_quantized cfg img l width height s :
  pallettes cfg !! get_pallette cfg = Some (first :: rest) ->
  cache_agrees N s /\ quantized N img l s ->
  quantized N img l (pallette_loops cfg l width height s).
Proof.
  intros Hpal Hs.
  apply (pallette_loops_ind
           (fun s => cache_agrees N s /\ quantized N img l s)); [ | | done].
  - intros body s1 Hb [Ha (im & Him & Hsize & Hpx)].
    apply guard_preserve; [| |done|].
    + intros s2 b [Ha2 (im2 & Him2 & Hsize2 & Hpx2)]. split; [done|].
      exists im2. split; [done|]. split; [done|].
      intros p. rewrite (visited_log_check p b s2). apply Hpx2.
    + done.
    + split; [done | by exists im].
  - intros xy s1 _ _ Hs1. rewrite Hpal. simpl. by apply map_pixel_step.
Qed.
End fixed_palette.

(** ** Coverage: a loop that was not left early has processed every pixel *)

Lemma map_body_grows req total pal l xy s :
  trace s `prefix_of`
    trace (guard req (fun s => count_pixel total xy (map_pixel pal l xy s)) s).
Proof.
  apply guard_grows. intros s1.
  etrans; [|apply count_pixel_grows]. by rewrite map_pixel_trace.
Qed.

Lemma simplify_body_grows req total a l xy s :
  trace s `prefix_of`
    trace (guard req (fun s => count_pixel total xy (simplify_pixel a l xy s)) s).
Proof.
  apply guard_grows. intros s1.
  etrans; [|apply count_pixel_grows]. by rewrite simplify_pixel_trace.
Qed.

Lemma guard_not_stopped req body s :
  stopped (guard req body s) = false ->
  guard req body s = body (log (EvCheck false) s).
Proof.
  unfold guard. destruct (is_set req s); [|done].
  unfold stopped. simpl. done.
Qed.

Lemma pallette_loops_covers cfg l width height s :
  stopped (pallette_loops cfg l width height s) = false ->
  forall x y, x < width -> y < height ->
    EvPixel (x, y) ∈ trace (pallette_loops cfg l width height s).
Proof.
  intros Hrun x y Hx Hy. unfold pallette_loops in *.
  revert x Hx.
  apply (for_each_covers
           (fun y s => forall x, x < width -> EvPixel (x, y) ∈ trace s))
    with (a := y); [| |done|apply elem_of_seq; lia].
  - intros y' s1 Hst x Hx.
    pose proof (guard_not_stopped _ _ _ Hst) as Heq. rewrite Heq in Hst |- *.
    apply (for_each_covers (fun x s => EvPixel (x, y') ∈ trace s));
      [| |done|apply elem_of_seq; lia].
    + intros x' s2 Hst2. rewrite (guard_not_stopped _ _ _ Hst2).
      apply visited_count_pixel. by right.
    + intros x' b s2 Hin. eapply elem_of_prefix; [done|]. apply map_body_grows.
  - intros y' b s1 Hin x Hx. eapply elem_of_prefix; [by apply Hin|].
    apply guard_grows. intros s2. apply for_each_grows. intros x' s3.
    apply map_body_grows.
Qed.

(** ** The worker as a whole *)

(** A run on a loaded image whose threshold converts to a float is the
    loops and their conclusion. *)
Lemma worker_unfold cfg g orig img :
  original_image cfg = Some orig -> heap g !! orig = Some img ->
  is_Some (float_of_int (similarity_threshold cfg)) ->
  analyze_image_worker cfg g =
    conclude (fresh (dom (heap g)))
      (run_loops cfg (fresh (dom (heap g))) (size img).1 (size img).2
         (start_run (fresh (dom (heap g))) img g)).
Proof.
  intros Ho Himg [f Hf]. unfold analyze_image_worker, run_checked.
  by rewrite Ho, Himg, Hf.
Qed.

(** With a threshold beyond the range of the floats the run fails after
    the resets, before any pixel is looked at. *)
Lemma worker_overflow cfg g orig img :
  original_image cfg = Some orig -> heap g !! orig = Some img ->
  float_of_int (similarity_threshold cfg) = None ->
  analyze_image_worker cfg g =
    (FAILED, set_raised true (start_run (fresh (dom (heap g))) img g)).
Proof.
  intros Ho Himg Hf. unfold analyze_image_worker, run_checked.
  by rewrite Ho, Himg, Hf.
Qed.

(** The thresholds of the settings dialog, and the common ones, convert. *)
Lemma float_of_int_percent (t : Z) :
  (0 <= t <= 100)%Z -> is_Some (float_of_int t).
Proof.
  intros Ht.
  assert (forallb (fun t => bool_decide (is_Some (float_of_int t)))
            (seqZ 0 101) = true) as H by (vm_compute; reflexivity).
  rewrite forallb_forall in H.
  eapply bool_decide_eq_true_1, H, list_elem_of_In, elem_of_seqZ. lia.
Qed.

(** A run that hands over an image had a threshold that converts. *)
Lemma result_image_converts cfg g orig img out :
  original_image cfg = Some orig -> heap g !! orig = Some img ->
  result_image (analyze_image_worker cfg g) = Some out ->
  is_Some (float_of_int (similarity_threshold cfg)).
Proof.
  intros Ho Himg. destruct (float_of_int _) as [f|] eqn:Hf; [by eauto|].
  by rewrite (worker_overflow _ _ _ _ Ho Himg Hf).
Qed.

Lemma conclude_completed l s :
  stopped s = false -> conclude l s = (COMPLETED l, finish_run s).
Proof.
  unfold stopped, conclude. by destruct (raised s), (canceled s).
Qed.

Lemma conclude_result_image l s out :
  result_image (conclude l s) = Some out ->
  stopped s = false /\ heap s !! l = Some out.
Proof.
  unfold stopped, conclude, result_image.
  by destruct (raised s), (canceled s).
Qed.

Lemma run_loops_fixed cfg l width height s :
  get_pallette cfg <> "Simplify Pallette" ->
  run_loops cfg l width height s = pallette_loops cfg l width height s.
Proof. intros. unfold run_loops. by rewrite decide_False. Qed.

Lemma run_loops_discover cfg l width height s :
  get_pallette cfg = "Simplify Pallette" ->
  run_loops cfg l width height s = simplify_loops cfg l width height s.
Proof. intros. unfold run_loops. by rewrite decide_True. Qed.

Lemma run_loops_completes cfg l width height s :
  cancel_req cfg = None -> stopped s = false ->
  stopped (run_loops cfg l width height s) = false.
Proof.
  unfold stopped. intros Hreq [Hc Hr]%orb_false_elim.
  by rewrite run_loops_canceled, run_loops_raised.
Qed.

Lemma start_run_quantized N l img g :
  cache_agrees N (start_run l img g) /\ quantized N img l (start_run l img g).
Proof.
  split; [by intros c n; simpl; rewrite lookup_empty|].
  exists img. simpl. rewrite lookup_insert_eq. split; [done|]. split; [done|].
  intros p. split; [|done].
  intros Hp%list_elem_of_singleton. discriminate.
Qed.

(** What a run of fixed-palette mode that reaches its end hands over:
    every pixel of the image replaced by [find_nearest] of its colour. *)
Lemma fixed_palette_result cfg g orig img first rest :
  get_pallette cfg <> "Simplify Pallette" ->
  pallettes cfg !! get_pallette cfg = Some (first :: rest) ->
  original_image cfg = Some orig ->
  heap g !! orig = Some img ->
  (cancel_req cfg = None ->
   is_Some (float_of_int (similarity_threshold cfg)) ->
   is_Some (result_image (analyze_image_worker cfg g)))
  /\ forall out, result_image (analyze_image_worker cfg g) = Some out ->
       is_Some (float_of_int (similarity_threshold cfg))
       /\ size out = size img
       /\ forall x y, x < (size img).1 -> y < (size img).2 ->
            px out (x, y) = find_nearest (px img (x, y)) first rest.
Proof.
  intros Hmode Hpal Ho Himg.
  set (l := fresh (dom (heap g))).
  pose proof (pallette_loops_quantized first rest cfg img l
                (size img).1 (size img).2 _ Hpal
                (start_run_quantized _ l img g)) as (im & Him & Hsize & Hpx).
  split.
  - intros Hreq Hthr.
    rewrite (worker_unfold _ _ _ _ Ho Himg Hthr), run_loops_fixed by done.
    rewrite conclude_completed.
    + unfold result_image. simpl. fold l. by rewrite Him.
    + rewrite <- run_loops_fixed by done. by apply run_loops_completes.
  - intros out Hres.
    pose proof (result_image_converts _ _ _ _ _ Ho Himg Hres) as Hthr.
    split; [done|]. revert Hres.
    rewrite (worker_unfold _ _ _ _ Ho Himg Hthr), run_loops_fixed by done.
    fold l. intros [Hrun Hout]%conclude_result_image.
    assert (out = im) as -> by congruence.
    split; [done|]. intros x y Hx Hy.
    apply Hpx. by apply pallette_loops_covers.
Qed.

(** C2: in fixed-palette mode with a non-empty palette a run without a
    cancellation request hands over an image exactly when the similarity
    threshold converts to a float (otherwise the run fails), and every pixel
    of the image a run hands over is the entry of the palette nearest to the
    original colour of the pixel, the earliest such entry on ties. *)
Theorem fixed_palette_nearest cfg g orig img first rest :
  get_pallette cfg <> "Simplify Pallette" ->
  pallettes cfg !! get_pallette cfg = Some (first :: rest) ->
  original_image cfg = Some orig ->
  heap g !! orig = Some img ->
  (cancel_req cfg = None ->
   (is_Some (result_image (analyze_image_worker cfg g))
    <-> is_Some (float_of_int (similarity_threshold cfg))))
  /\ forall out, result_image (analyze_image_worker cfg g) = Some out ->
       forall x y, x < (size img).1 -> y < (size img).2 ->
         exists i,
           (first :: rest) !! i = Some (px out (x, y))
           /\ (forall q, q ∈ first :: rest ->
                 (color_distance_sq (px img (x, y)) (px out (x, y))
                  <= color_distance_sq (px img (x, y)) q)%Z)
           /\ (forall j q, j < i -> (first :: rest) !! j = Some q ->
                 (color_distance_sq (px img (x, y)) (px out (x, y))
                  < color_distance_sq (px img (x, y)) q)%Z).
Proof.
  intros Hmode Hpal Ho Himg.
  destruct (fixed_palette_result cfg g orig img first rest) as [Hex Hout];
    try done.
  split.
  - intros Hreq. split; [|by apply Hex].
    intros [out Hres]. by apply (Hout out).
  - intros out Hres x y Hx Hy.
    destruct (Hout out Hres) as (_ & _ & Hpx). rewrite (Hpx x y Hx Hy).
    apply find_nearest_spec.
Qed.

(** C4: fixed-palette mode is idempotent. When a run has handed over
    [out1] and a second run with the same palette is made on [out1] and
    hands over [out2], the two images have the same size and the same
    pixels. *)
Theorem fixed_palette_idempotent cfg1 g1 orig1 img cfg2 g2 orig2 first rest
    out1 out2 :
  get_pallette cfg1 <> "Simplify Pallette" ->
  pallettes cfg1 !! get_pallette cfg1 = Some (first :: rest) ->
  original_image cfg1 = Some orig1 ->
  heap g1 !! orig1 = Some img ->
  result_image (analyze_image_worker cfg1 g1) = Some out1 ->
  get_pallette cfg2 <> "Simplify Pallette" ->
  pallettes cfg2 !! get_pallette cfg2 = Some (first :: rest) ->
  original_image cfg2 = Some orig2 ->
  heap g2 !! orig2 = Some out1 ->
  result_image (analyze_image_worker cfg2 g2) = Some out2 ->
  size out2 = size out1
  /\ forall x y, x < (size out1).1 -> y < (size out1).2 ->
       px out2 (x, y) = px out1 (x, y).
Proof.
  intros Hm1 Hp1 Ho1 Hi1 Hr1 Hm2 Hp2 Ho2 Hi2 Hr2.
  destruct (fixed_palette_result cfg1 g1 orig1 img first rest) as [_ H1];
    try done.
  destruct (fixed_palette_result cfg2 g2 orig2 out1 first rest) as [_ H2];
    try done.
  destruct (H1 out1 Hr1) as (_ & Hs1 & Hpx1), (H2 out2 Hr2) as (_ & Hs2 & Hpx2).
  split; [done|]. intros x y Hx Hy.
  rewrite Hpx2, Hpx1 by (rewrite <- ?Hs1; done).
  apply nearest_idempotent.
Qed.

Lemma conclude_not_failed l s : raised s = false -> (conclude l s).1 <> FAILED.
Proof. unfold conclude. intros ->. by destruct (canceled s). Qed.

(** With an empty palette the loops of fixed-palette mode are the loops
    that only count, reporting against a total of 1. *)
Lemma run_loops_empty cfg l width height s :
  get_pallette cfg <> "Simplify Pallette" ->
  default [] (pallettes cfg !! get_pallette cfg) = [] ->
  run_loops cfg l width height s
  = counting_loops (cancel_req cfg) 1 width height s.
Proof.
  intros Hmode Hpal. rewrite run_loops_fixed by done.
  unfold pallette_loops. by rewrite Hpal.
Qed.

(** The report after the first batch, against a total of 1, is 100.0. *)
Lemma first_report_total_1 :
  clamp_percent
    (SFmul prec emax
       (SFdiv prec emax (float_of_Z (Z.of_nat batch)) (float_of_Z (Z.of_nat 1)))
       (float_of_Z 100))
  = float_of_Z 100.
Proof. vm_compute. reflexivity. Qed.

Lemma count_pixel_first_report xy s :
  (processed_pixels s = batch -> progress s = float_of_Z 100) ->
  processed_pixels (count_pixel 1 xy s) = batch ->
  progress (count_pixel 1 xy s) = float_of_Z 100.
Proof.
  intros Hs. unfold count_pixel. cbv zeta.
  change (processed (log (EvPixel xy) (set_processed (processed s + 1) s)))
    with (processed s + 1).
  case_decide as Hbatch; [|done]. rewrite decide_False by done.
  change (processed_pixels (publish (processed s + 1) ?x)) with (processed s + 1).
  intros ->. apply first_report_total_1.
Qed.

Lemma counting_loops_first_report req width height s :
  processed_pixels s <> batch ->
  processed_pixels (counting_loops req 1 width height s) = batch ->
  progress (counting_loops req 1 width height s) = float_of_Z 100.
Proof.
  intros Hs. unfold counting_loops.
  apply (for_each_preserve
           (fun s => processed_pixels s = batch -> progress s = float_of_Z 100));
    [done|].
  intros y s1 _ Hs1. apply guard_preserve; [done | done | | done].
  intros s2 Hs2. apply for_each_preserve; [done|].
  intros x s3 _ Hs3. apply guard_preserve; [done | done | | done].
  intros s4 Hs4. by apply count_pixel_first_report.
Qed.

(** C5: fixed-palette mode with an empty palette is not an error and
    changes no pixel. The run fails only for a similarity threshold that
    does not convert to a float; the working copy is the original image
    whenever the run stops; a run that is not canceled completes and hands
    over the original image; and the progress is reported against a total
    of 1: the run is the run of the loops that only count and report
    [processed / 1], so that the report after the first 5000 pixels is
    already 100.0. *)
Theorem empty_pallette_noop cfg g orig img :
  get_pallette cfg <> "Simplify Pallette" ->
  default [] (pallettes cfg !! get_pallette cfg) = [] ->
  original_image cfg = Some orig ->
  heap g !! orig = Some img ->
  let new_image := fresh (dom (heap g)) in
  let r := analyze_image_worker cfg g in
  (r.1 = FAILED <-> float_of_int (similarity_threshold cfg) = None)
  /\ heap r.2 !! new_image = Some img
  /\ (cancel_req cfg = None ->
      is_Some (float_of_int (similarity_threshold cfg)) ->
      r.1 = COMPLETED new_image /\ result_image r = Some img)
  /\ (is_Some (float_of_int (similarity_threshold cfg)) ->
      r = conclude new_image
            (counting_loops (cancel_req cfg) 1 (size img).1 (size img).2
               (start_run new_image img g)))
  /\ (processed_pixels r.2 = batch -> progress r.2 = float_of_Z 100).
Proof.
  intros Hmode Hpal Ho Himg new_image r. subst r.
  destruct (float_of_int (similarity_threshold cfg)) as [f|] eqn:Hthr.
  2: { rewrite (worker_overflow _ _ _ _ Ho Himg Hthr). fold new_image. simpl.
       split; [done|]. split; [apply lookup_insert_eq|].
       split; [by intros _ [? [=]]|]. split; [by intros [? [=]]|].
       unfold batch. done. }
  rewrite (worker_unfold _ _ _ _ Ho Himg) by eauto. fold new_image.
  set (s' := run_loops cfg new_image (size img).1 (size img).2
               (start_run new_image img g)).
  assert (raised s' = false) as Hraised by (by apply run_loops_raised).
  assert (heap s' !! new_image = Some img) as Hheap.
  { unfold s'. rewrite run_loops_fixed by done.
    apply (pallette_loops_ind (fun s => heap s !! new_image = Some img)).
    - intros body s Hb Hs. by apply guard_preserve.
    - intros xy s _ _ Hs. rewrite Hpal. simpl.
      apply guard_preserve; try done.
      intros s1 Hs1. by rewrite count_pixel_heap.
    - simpl. apply lookup_insert_eq. }
  split; [|split; [|split; [|split]]].
  - split; [|done]. intros Hf. by apply conclude_not_failed in Hf.
  - by rewrite conclude_heap.
  - intros Hreq _.
    rewrite conclude_completed by (by apply run_loops_completes).
    split; [done|]. unfold result_image. simpl. done.
  - intros _. unfold s'. by rewrite run_loops_empty.
  - unfold conclude. rewrite Hraised.
    destruct (canceled s') eqn:Hc; simpl.
    + unfold s'. rewrite run_loops_empty by done.
      by apply counting_loops_first_report.
    + intros _. vm_compute. reflexivity.
Qed.

(** ** Discovery mode at threshold 0 *)

Lemma allowed_sq_0 : allowed_sq 0 = S754_finite false 6702725962137600 (-35).
Proof. vm_compute. reflexivity. Qed.

(** At threshold 0 no two 8-bit colours are too far apart. *)
Lemma never_too_far (a b : Color) :
  valid_color a -> valid_color b ->
  int_gt_float (color_distance_sq a b) (allowed_sq 0) = false.
Proof.
  intros Ha Hb. pose proof (color_distance_sq_bound a b Ha Hb).
  rewrite allowed_sq_0. unfold int_gt_float.
  change (0 <=? -35)%Z with false. cbv iota.
  apply Z.ltb_ge. change (2 ^ (- -35))%Z with 34359738368%Z. lia.
Qed.

Lemma first_pixel_app tr tl :
  first_pixel (tr ++ tl) =
    match first_pixel tr with Some p => Some p | None => first_pixel tl end.
Proof. induction tr as [|[] tr IH]; simpl; auto. Qed.

Lemma first_pixel_None tr p : first_pixel tr = None -> EvPixel p ∉ tr.
Proof.
  induction tr as [|e tr IH]; [intros _; apply not_elem_of_nil|].
  destruct e; simpl; try done;
    intros Hfp [Heq | Hin]%elem_of_cons; try done; by apply IH.
Qed.

Lemma first_pixel_count_pixel total xy s :
  first_pixel (trace (count_pixel total xy s)) =
    match first_pixel (trace s) with Some p => Some p | None => Some xy end.
Proof.
  destruct (count_pixel_trace total xy s) as (tl & -> & _).
  by rewrite first_pixel_app.
Qed.

Lemma collapsed_log_check img l b s :
  collapsed img l s -> collapsed img l (log (EvCheck b) s).
Proof.
  intros (im & Him & Hsize & Hcase). exists im. split; [done|]. split; [done|].
  simpl. rewrite first_pixel_app. simpl.
  destruct (first_pixel (trace s)) as [p0|]; [|done].
  destruct Hcase as (? & ? & ? & Hpx). repeat split; try done.
  - intros Hp. apply Hpx. by apply (visited_log_check p b s).
  - intros Hp. apply Hpx. intros Hin. apply Hp.
    by apply (visited_log_check p b s).
Qed.

Lemma collapsed_pixel img l total xy s :
  valid_color (px img xy) ->
  collapsed img l s ->
  collapsed img l (count_pixel total xy (simplify_pixel (allowed_sq 0) l xy s)).
Proof.
  intros Hvalid (im & Him & Hsize & Hcase).
  unfold collapsed. rewrite first_pixel_count_pixel, simplify_pixel_trace.
  rewrite count_pixel_heap, count_pixel_saved_colors.
  unfold cache_agrees. rewrite count_pixel_nearest_cache.
  assert (forall p,
            EvPixel p ∈ trace (count_pixel total xy
                                 (simplify_pixel (allowed_sq 0) l xy s))
            <-> EvPixel p ∈ trace s \/ p = xy) as Hvis.
  { intros p. by rewrite visited_count_pixel, simplify_pixel_trace. }
  revert Hvis.
  generalize (trace (count_pixel total xy
                       (simplify_pixel (allowed_sq 0) l xy s))).
  intros tr' Hvis.
  unfold simplify_pixel, load_px. rewrite (lookup_total_correct _ _ _ Him).
  destruct (first_pixel (trace s)) as [p0|] eqn:Hfp.
  - destruct Hcase as (Hsaved & Hv0 & Hagree & Hpx).
    destruct (decide (px im xy ∈ saved_colors s)) as [Hin | Hin].
    { exists im. repeat split; try done.
      - intros [Hp | ->]%Hvis; [by apply Hpx|].
        rewrite Hsaved in Hin. by apply list_elem_of_singleton in Hin.
      - intros Hp. apply Hpx. rewrite Hvis in Hp. tauto. }
    assert (EvPixel xy ∉ trace s) as Hnew.
    { intros Hv. apply Hin. rewrite Hsaved. apply list_elem_of_singleton.
      by apply Hpx. }
    assert (px im xy = px img xy) as Hc by (by apply Hpx).
    rewrite Hsaved.
    destruct (cached_nearest _ _ _ s) as [n s1] eqn:Hn.
    apply cached_nearest_state in Hn as (K & -> & _ & Hn).
    assert (n = px img p0 /\ cache_agrees (fun _ => px img p0)
                               (set_nearest_cache K s)) as [-> HK].
    { destruct Hn as [[Hn ->] | (_ & -> & ->)].
      - split; [by eapply Hagree | done].
      - split; [done|]. intros c n. simpl. rewrite lookup_insert.
        case_decide; [by intros [= <-] | apply Hagree]. }
    rewrite Hc, never_too_far by done.
    exists (px_set im xy (px img p0)). simpl.
    rewrite lookup_alter_eq, Him. repeat split; try done.
    + case_decide; [done|]. intros [Hp | ->]%Hvis; [by apply Hpx | done].
    + rewrite Hvis. case_decide as Hp; [subst; tauto|].
      intros Hno. apply Hpx. tauto.
  - destruct Hcase as (Hsaved & Hcache & Hpx).
    rewrite Hsaved. rewrite decide_False by apply not_elem_of_nil.
    exists im. simpl. rewrite Hpx. repeat split; try done.
    + intros c n. rewrite Hcache, lookup_empty. done.
    + intros [Hp | ->]%Hvis; [|by rewrite Hpx].
      by apply (first_pixel_None _ p) in Hfp.
Qed.

Lemma py_range_tile_elem (stop x : nat) :
  x < stop -> tile * (x / tile) ∈ py_range 0 stop tile.
Proof.
  intros Hx. unfold py_range. apply list_elem_of_fmap.
  exists (x / tile). split; [lia|]. apply elem_of_seq.
  split; [lia|]. rewrite Nat.add_0_l, Nat.sub_0_r.
  apply Nat.lt_le_trans with ((x + 1 * tile) / tile).
  - rewrite Nat.div_add by done. lia.
  - apply Nat.Div0.div_le_mono. unfold tile. lia.
Qed.

Lemma tile_bounds (x : nat) : tile * (x / tile) <= x < tile * (x / tile) + tile.
Proof.
  pose proof (Nat.div_mod_eq x tile).
  pose proof (Nat.mod_upper_bound x tile). unfold tile in *. lia.
Qed.

Lemma simplify_loops_covers cfg l width height s :
  stopped (simplify_loops cfg l width height s) = false ->
  forall x y, x < width -> y < height ->
    EvPixel (x, y) ∈ trace (simplify_loops cfg l width height s).
Proof.
  intros Hrun x y Hx Hy. unfold simplify_loops in *.
  pose proof (tile_bounds x) as Hbx. pose proof (tile_bounds y) as Hby.
  apply (for_each_covers
           (fun y0 s => forall x y, x < width ->
              y0 <= y < Nat.min (y0 + tile) height -> EvPixel (x, y) ∈ trace s))
    with (a := tile * (y / tile));
    [| |done|by apply py_range_tile_elem|done|lia].
  - clear. intros y0 s1 Hst x y Hx Hy.
    pose proof (tile_bounds x) as Hbx.
    pose proof (guard_not_stopped _ _ _ Hst) as Heq. rewrite Heq in Hst |- *.
    apply (for_each_covers
             (fun x0 s => forall x y, x0 <= x < Nat.min (x0 + tile) width ->
                y0 <= y < Nat.min (y0 + tile) height -> EvPixel (x, y) ∈ trace s))
      with (a := tile * (x / tile));
      [| |done|by apply py_range_tile_elem|lia|done].
    + clear. intros x0 s2 Hst x y Hx Hy.
      pose proof (guard_not_stopped _ _ _ Hst) as Heq. rewrite Heq in Hst |- *.
      apply (for_each_covers (fun xy s => EvPixel xy ∈ trace s));
        [| |done|].
      * intros xy s3 Hst3. rewrite (guard_not_stopped _ _ _ Hst3).
        apply visited_count_pixel. by right.
      * intros xy b s3 Hin. eapply elem_of_prefix; [done|].
        apply simplify_body_grows.
      * rewrite (shuffle_perm (rng cfg)). by apply elem_of_tile_coords.
    + intros x0 b s2 Hin x' y' Hx' Hy'.
      eapply elem_of_prefix; [by apply Hin|].
      apply guard_grows. intros s3. apply for_each_grows. intros xy s4.
      apply simplify_body_grows.
  - intros y0 b s1 Hin x' y' Hx' Hy'.
    eapply elem_of_prefix; [by apply Hin|].
    apply guard_grows. intros s2. apply for_each_grows. intros x0 s3.
    apply guard_grows. intros s4. apply for_each_grows. intros xy s5.
    apply simplify_body_grows.
Qed.

Lemma simplify_loops_collapsed cfg img l s :
  similarity_threshold cfg = 0%Z ->
  (forall x y, x < (size img).1 -> y < (size img).2 ->
     valid_color (px img (x, y))) ->
  collapsed img l s ->
  collapsed img l (simplify_loops cfg l (size img).1 (size img).2 s).
Proof.
  intros Hthr Hvalid.
  apply (simplify_loops_ind (collapsed img l)).
  - intros body s1 Hb Hs1.
    apply guard_preserve;
      [intros s2 b; apply collapsed_log_check | done | done | done].
  - intros [x y] s1 Hx Hy Hs1. rewrite Hthr.
    apply guard_preserve;
      [intros s2 b; apply collapsed_log_check | done | | done].
    intros s2 Hs2. apply collapsed_pixel; [by apply Hvalid | done].
Qed.

Lemma start_run_collapsed l img g : collapsed img l (start_run l img g).
Proof.
  exists img. simpl. by rewrite lookup_insert_eq.
Qed.

(** C3: at similarity threshold 0 discovery mode collapses an image of
    8-bit colours onto the colour of the pixel it processes first: a run
    that is not canceled hands over an image, and when a run hands over an
    image the palette is that one colour and every pixel has it. *)
Theorem threshold_0_collapses cfg g orig img :
  get_pallette cfg = "Simplify Pallette" ->
  similarity_threshold cfg = 0%Z ->
  original_image cfg = Some orig ->
  heap g !! orig = Some img ->
  0 < (size img).1 -> 0 < (size img).2 ->
  (forall x y, x < (size img).1 -> y < (size img).2 ->
     valid_color (px img (x, y))) ->
  let r := analyze_image_worker cfg g in
  (cancel_req cfg = None -> is_Some (result_image r))
  /\ forall out, result_image r = Some out ->
       exists p0,
         first_pixel (trace r.2) = Some p0
         /\ saved_colors r.2 = [px img p0]
         /\ forall x y, x < (size img).1 -> y < (size img).2 ->
              px out (x, y) = px img p0.
Proof.
  intros Hmode Hthr Ho Himg Hw Hh Hvalid r. subst r.
  rewrite (worker_unfold _ _ _ _ Ho Himg)
    by (rewrite Hthr; by apply float_of_int_percent).
  rewrite run_loops_discover by done.
  set (l := fresh (dom (heap g))).
  pose proof (simplify_loops_collapsed cfg img l _ Hthr Hvalid
                (start_run_collapsed l img g)) as (im & Him & Hsize & Hcase).
  split.
  - intros Hreq. rewrite conclude_completed.
    + unfold result_image. simpl. by rewrite Him.
    + rewrite <- run_loops_discover by done. by apply run_loops_completes.
  - intros out Hres.
    pose proof Hres as [Hrun Hout]%conclude_result_image.
    assert (out = im) as -> by congruence.
    rewrite conclude_completed by done. simpl.
    pose proof (simplify_loops_covers _ _ _ _ _ Hrun) as Hcov.
    rewrite first_pixel_app.
    destruct (first_pixel (trace (simplify_loops cfg l _ _ _)))
      as [p0|] eqn:Hfp.
    + destruct Hcase as (Hsaved & _ & _ & Hpx).
      exists p0. split; [done|]. split; [done|].
      intros x y Hx Hy. apply Hpx. by apply Hcov.
    + exfalso. eapply first_pixel_None; [done|]. by apply (Hcov 0 0).
Qed.

(** ** Counting the pixels *)

Lemma seq_split n seen a rest :
  seq 0 n = seen ++ a :: rest -> a = length seen /\ a < n.
Proof.
  intros Hl. assert (seq 0 n !! length seen = Some a) as Ha.
  { rewrite Hl. by apply list_lookup_middle. }
  apply lookup_seq in Ha. lia.
Qed.

Lemma py_range_split n seen a rest :
  py_range 0 n tile = seen ++ a :: rest -> a = length seen * tile /\ a < n.
Proof.
  intros Hl. split.
  - assert (py_range 0 n tile !! length seen = Some a) as Ha.
    { rewrite Hl. by apply list_lookup_middle. }
    unfold py_range in Ha. rewrite list_lookup_fmap in Ha.
    destruct (seq 0 _ !! length seen) as [k|] eqn:Hk; [|done].
    apply lookup_seq in Hk as [-> _]. simpl in Ha. by injection Ha as <-.
  - apply (elem_of_py_range n tile). rewrite Hl.
    apply elem_of_app. right. by left.
Qed.

Lemma py_range_length n : n <= length (py_range 0 n tile) * tile.
Proof.
  unfold py_range. rewrite length_fmap, length_seq, Nat.sub_0_r.
  pose proof (Nat.div_mod_eq (n + (tile - 1)) tile).
  pose proof (Nat.mod_upper_bound (n + (tile - 1)) tile).
  unfold tile in *. lia.
Qed.

Lemma length_bind_const {A B} (f : A -> list B) (l : list A) (k : nat) :
  (forall a, length (f a) = k) -> length (l ≫= f) = length l * k.
Proof.
  intros Hf. induction l as [|a l IH]; [done|].
  rewrite bind_cons, length_app, IH, Hf. simpl. lia.
Qed.

Lemma length_tile_coords x0 x1 y0 y1 :
  length (tile_coords x0 x1 y0 y1) = (y1 - y0) * (x1 - x0).
Proof.
  unfold tile_coords.
  rewrite (length_bind_const _ _ (x1 - x0)), length_seq; [done|].
  intros y. rewrite (length_bind_const _ _ 1), length_seq; [lia | done].
Qed.

Lemma guard_pixel_count req total xy (f : wstate -> wstate) s :
  (forall s, processed (f s) = processed s) ->
  (forall s, canceled (f s) = canceled s) ->
  canceled s = false ->
  let s' := guard req (fun s => count_pixel total xy (f s)) s in
  canceled s' = true /\ processed s' = processed s
  \/ canceled s' = false /\ processed s' = processed s + 1.
Proof.
  intros Hp Hc Hs. unfold guard. destruct (is_set req s); simpl; [by left|].
  right. rewrite count_pixel_canceled, count_pixel_processed, Hc, Hp. done.
Qed.

Lemma stopped_canceled s : canceled s = true -> stopped s = true.
Proof. unfold stopped. by intros ->. Qed.

(** The check at the head of a loop body, in the form of the loop rule. *)
Lemma guard_break (Q I : wstate -> Prop) req body s :
  Q (set_canceled true (log (EvCheck true) s)) ->
  (if stopped (body (log (EvCheck false) s))
   then Q (body (log (EvCheck false) s))
   else I (body (log (EvCheck false) s))) ->
  if stopped (guard req body s) then Q (guard req body s)
  else I (guard req body s).
Proof.
  intros Hc Hb. unfold guard. destruct (is_set req s); [|done].
  by rewrite stopped_canceled.
Qed.

(** From the conclusion of [for_each_break] to the two facts a caller
    needs: [Q] in any case, and [I] for a loop that ran to its end. *)
Lemma for_each_break_result {A} (I : list A -> wstate -> Prop)
    (Q : wstate -> Prop) (body : A -> wstate -> wstate) (l : list A)
    (s : wstate) :
  I [] s ->
  (forall seen a rest s, l = seen ++ a :: rest -> I seen s ->
     if stopped (body a s) then Q (body a s) else I (seen ++ [a]) (body a s)) ->
  (forall s, I l s -> Q s) ->
  Q (for_each body l s)
  /\ (stopped (for_each body l s) = false -> I l (for_each body l s)).
Proof.
  intros H0 Hstep HIQ.
  pose proof (for_each_break I Q body l s H0 Hstep) as Hres.
  destruct l as [|a l']; [by auto|].
  destruct (stopped (for_each body (a :: l') s)); [by split | auto].
Qed.

Lemma simplify_pixel_processed a l xy s :
  processed (simplify_pixel a l xy s) = processed s.
Proof. by destruct (simplify_pixel_frame a l xy s) as (h & P & K & ->). Qed.

Lemma map_pixel_processed pal l xy s : processed (map_pixel pal l xy s) = processed s.
Proof. by destruct (map_pixel_frame pal l xy s) as (h & K & ->). Qed.

Lemma pallette_loops_count cfg l width height s :
  canceled s = false ->
  counted width height (pallette_loops cfg l width height s)
  /\ (stopped (pallette_loops cfg l width height s) = false ->
      processed (pallette_loops cfg l width height s) = width * height).
Proof.
  intros Hs. unfold pallette_loops.
  set (pal := default [] (pallettes cfg !! get_pallette cfg)).
  set (total := pallette_total pal width height).
  destruct (for_each_break_result
              (fun seen s => canceled s = false
                             /\ processed s = length seen * width)
              (counted width height)
              (fun y => guard (cancel_req cfg) (fun s =>
                 for_each (fun x => guard (cancel_req cfg) (fun s =>
                   count_pixel total (x, y) (map_pixel pal l (x, y) s)))
                   (seq 0 width) s))
              (seq 0 height) (set_processed 0 s)) as [HQ HI].
  - done.
  - intros seen y rest s1 Hl [Hc Hp]. apply seq_split in Hl as [-> Hy].
    apply (guard_break (counted width height)
             (fun s => canceled s = false
                       /\ processed s = length (seen ++ [length seen]) * width)).
    { split; simpl; intros; nia. }
    destruct (for_each_break_result
                (fun seen' s => canceled s = false
                   /\ processed s = length seen * width + length seen')
                (counted width height)
                (fun x => guard (cancel_req cfg) (fun s =>
                   count_pixel total (x, length seen)
                     (map_pixel pal l (x, length seen) s)))
                (seq 0 width) (log (EvCheck false) s1)) as [HQ' HI'].
    + simpl. split; [done | lia].
    + intros seen' x rest' s2 Hl' [Hc2 Hp2]. apply seq_split in Hl' as [-> Hx].
      destruct (guard_pixel_count (cancel_req cfg) total (length seen', length seen)
                  (map_pixel pal l (length seen', length seen)) s2)
        as [[Hc3 Hp3] | [Hc3 Hp3]];
        [apply map_pixel_processed | apply map_pixel_canceled | done | |].
      * rewrite stopped_canceled by done. split; intros; nia.
      * destruct (stopped _).
        -- split; [nia | congruence].
        -- split; [done | rewrite length_app; simpl; lia].
    + intros s2 [Hc2 Hp2]. rewrite length_seq in Hp2. split; [nia | congruence].
    + destruct (stopped _) eqn:Hst; [done|].
      destruct (HI' eq_refl) as [Hc' Hp']. rewrite length_seq in Hp'.
      split; [done | rewrite length_app; simpl; lia].
  - intros s1 [Hc1 Hp1]. rewrite length_seq in Hp1. split; [nia | congruence].
  - split; [done|]. intros Hst. destruct (HI Hst) as [_ Hp].
    rewrite length_seq in Hp. lia.
Qed.

Lemma tile_sum (w y0 y1 : nat) : y0 <= y1 -> w * y0 + (y1 - y0) * w = w * y1.
Proof. intros. nia. Qed.

Lemma tile_part (d x0 x1 : nat) : x0 <= x1 -> d * x0 + d * (x1 - x0) = d * x1.
Proof. intros. nia. Qed.

Lemma tile_count_le (w h x0 x1 y0 y1 k : nat) :
  y0 <= y1 <= h -> x0 <= x1 <= w -> k <= (y1 - y0) * (x1 - x0) ->
  w * y0 + (y1 - y0) * x0 + k <= w * h.
Proof.
  intros Hy Hx Hk.
  pose proof (tile_part (y1 - y0) x0 x1 (proj1 Hx)).
  pose proof (tile_sum w y0 y1 (proj1 Hy)).
  assert ((y1 - y0) * x1 <= (y1 - y0) * w) by (apply Nat.mul_le_mono_l; lia).
  assert (w * y1 <= w * h) by (apply Nat.mul_le_mono_l; lia).
  lia.
Qed.

Lemma tile_count_lt (w h x0 x1 y0 y1 k : nat) :
  y0 <= y1 <= h -> x0 <= x1 <= w -> k < (y1 - y0) * (x1 - x0) ->
  w * y0 + (y1 - y0) * x0 + k < w * h.
Proof.
  intros Hy Hx Hk.
  pose proof (tile_count_le w h x0 x1 y0 y1 (S k) Hy Hx Hk). lia.
Qed.

Lemma simplify_loops_count cfg l width height s :
  canceled s = false ->
  counted width height (simplify_loops cfg l width height s)
  /\ (stopped (simplify_loops cfg l width height s) = false ->
      processed (simplify_loops cfg l width height s) = width * height).
Proof.
  intros Hs. unfold simplify_loops.
  set (allowed := allowed_sq (similarity_threshold cfg)).
  set (total := width * height).
  pose proof (py_range_length height) as Hlh.
  pose proof (py_range_length width) as Hlw.
  destruct (for_each_break_result
              (fun seen s => canceled s = false
                 /\ processed s = width * Nat.min (length seen * tile) height)
              (counted width height)
              (fun y0 => guard (cancel_req cfg) (fun s =>
                 let y1 := Nat.min (y0 + tile) height in
                 for_each (fun x0 => guard (cancel_req cfg) (fun s =>
                   let x1 := Nat.min (x0 + tile) width in
                   let coords := rng cfg (tile_coords x0 x1 y0 y1) in
                   for_each (fun xy => guard (cancel_req cfg) (fun s =>
                     count_pixel total xy (simplify_pixel allowed l xy s)))
                     coords s))
                   (py_range 0 width tile) s))
              (py_range 0 height tile) (set_processed 0 s)) as [HQ HI].
  - simpl. split; [done | lia].
  - intros seen y0 rest s1 Hl [Hc Hp]. apply py_range_split in Hl as [Hy0 Hy].
    rewrite <- Hy0, Nat.min_l in Hp by lia.
    apply (guard_break (counted width height)
             (fun s => canceled s = false
                       /\ processed s
                          = width * Nat.min (length (seen ++ [y0]) * tile) height)).
    { split; simpl; [|intros _ Hw]; rewrite Hp.
      - apply Nat.mul_le_mono_l. lia.
      - by apply Nat.mul_lt_mono_pos_l. }
    cbv zeta.
    assert (Nat.min (length (seen ++ [y0]) * tile) height
            = Nat.min (y0 + tile) height) as ->.
    { rewrite length_app. simpl. lia. }
    set (y1 := Nat.min (y0 + tile) height).
    assert (y0 < y1 <= height) as Hy1 by (unfold y1, tile; lia).
    clearbody y1.
    destruct (for_each_break_result
                (fun seen' s => canceled s = false
                   /\ processed s = width * y0
                        + (y1 - y0) * Nat.min (length seen' * tile) width)
                (counted width height)
                (fun x0 => guard (cancel_req cfg) (fun s =>
                   let x1 := Nat.min (x0 + tile) width in
                   let coords := rng cfg (tile_coords x0 x1 y0 y1) in
                   for_each (fun xy => guard (cancel_req cfg) (fun s =>
                     count_pixel total xy (simplify_pixel allowed l xy s)))
                     coords s))
                (py_range 0 width tile) (log (EvCheck false) s1)) as [HQ' HI'].
    + simpl. split; [done | lia].
    + intros seen' x0 rest' s2 Hl' [Hc2 Hp2].
      apply py_range_split in Hl' as [Hx0 Hx].
      rewrite <- Hx0, Nat.min_l in Hp2 by lia.
      apply (guard_break (counted width height)
               (fun s => canceled s = false
                  /\ processed s
                     = width * y0
                       + (y1 - y0) * Nat.min (length (seen' ++ [x0]) * tile) width)).
      { assert (0 < (y1 - y0) * (Nat.min (x0 + tile) width - x0)) as Hpos
          by (apply Nat.mul_pos_pos; unfold tile; lia).
        pose proof (tile_count_lt width height x0 (Nat.min (x0 + tile) width)
                      y0 y1 0) as Hlt.
        split; simpl; intros; lia. }
      cbv zeta.
      assert (Nat.min (length (seen' ++ [x0]) * tile) width
              = Nat.min (x0 + tile) width) as ->.
      { rewrite length_app. simpl. lia. }
      set (x1 := Nat.min (x0 + tile) width).
      assert (x0 < x1 <= width) as Hx1 by (unfold x1, tile; lia).
      clearbody x1.
      set (coords := rng cfg (tile_coords x0 x1 y0 y1)).
      assert (length coords = (y1 - y0) * (x1 - x0)) as Hlen.
      { unfold coords. by rewrite (shuffle_perm (rng cfg)), length_tile_coords. }
      clearbody coords.
      destruct (for_each_break_result
                  (fun seen'' s => canceled s = false
                     /\ processed s = width * y0 + (y1 - y0) * x0 + length seen'')
                  (counted width height)
                  (fun xy => guard (cancel_req cfg) (fun s =>
                     count_pixel total xy (simplify_pixel allowed l xy s)))
                  coords (log (EvCheck false) s2)) as [HQ'' HI''].
      * simpl. split; [done | lia].
      * intros seen'' xy rest'' s3 Hl'' [Hc3 Hp3].
        assert (length seen'' < (y1 - y0) * (x1 - x0)) as Hlt.
        { rewrite <- Hlen, Hl'', length_app. simpl. lia. }
        pose proof (tile_count_lt width height x0 x1 y0 y1 _
                      ltac:(lia) ltac:(lia) Hlt) as Hbound.
        destruct (guard_pixel_count (cancel_req cfg) total xy
                    (simplify_pixel allowed l xy) s3)
          as [[Hc4 Hp4] | [Hc4 Hp4]];
          [apply simplify_pixel_processed | apply simplify_pixel_canceled
          | done | |].
        -- rewrite stopped_canceled by done. split; intros; lia.
        -- destruct (stopped _).
           ++ split; [lia | congruence].
           ++ split; [done | rewrite length_app; simpl; lia].
      * intros s3 [Hc3 Hp3]. rewrite Hlen in Hp3.
        pose proof (tile_count_le width height x0 x1 y0 y1 _
                      ltac:(lia) ltac:(lia) (Nat.le_refl _)).
        split; [lia | congruence].
      * destruct (stopped _) eqn:Hst; [done|].
        destruct (HI'' eq_refl) as [Hc' Hp']. rewrite Hlen in Hp'.
        split; [done|].
        pose proof (tile_part (y1 - y0) x0 x1 ltac:(lia)).
        etrans; [exact Hp' | lia].
    + intros s2 [Hc2 Hp2].
      rewrite Nat.min_r in Hp2 by done.
      pose proof (tile_sum width y0 y1 ltac:(lia)).
      assert (width * y1 <= width * height) by (apply Nat.mul_le_mono_l; lia).
      split; [lia | congruence].
    + destruct (stopped _) eqn:Hst; [done|].
      destruct (HI' eq_refl) as [Hc' Hp']. rewrite Nat.min_r in Hp' by done.
      split; [done|].
      pose proof (tile_sum width y0 y1 ltac:(lia)).
      etrans; [exact Hp' | lia].
  - intros s1 [Hc1 Hp1]. rewrite Nat.min_r in Hp1 by done.
    split; [lia | congruence].
  - split; [done|]. intros Hst. destruct (HI Hst) as [_ Hp].
    by rewrite Nat.min_r in Hp.
Qed.

Lemma run_loops_count cfg l width height s :
  canceled s = false ->
  counted width height (run_loops cfg l width height s)
  /\ (stopped (run_loops cfg l width height s) = false ->
      processed (run_loops cfg l width height s) = width * height).
Proof.
  intros Hs. unfold run_loops. case_decide.
  - by apply simplify_loops_count.
  - by apply pallette_loops_count.
Qed.

(** ** Published progress *)

Lemma nondecreasing_snoc l x :
  nondecreasing l -> (forall n, n ∈ l -> n <= x) -> nondecreasing (l ++ [x]).
Proof.
  intros Hl Hx i j m n Hij Hi Hj.
  destruct (decide (j < length l)) as [Hlt | Hge].
  - rewrite lookup_app_l in Hi, Hj by lia. exact (Hl i j m n Hij Hi Hj).
  - rewrite lookup_app_r in Hj by lia.
    assert (n = x) as ->.
    { destruct (j - length l) as [|k]; simpl in Hj; [congruence|].
      by rewrite lookup_nil in Hj. }
    destruct (decide (i < length l)) as [Hlti | Hgei].
    + rewrite lookup_app_l in Hi by lia.
      by eapply Hx, list_elem_of_lookup_2.
    + rewrite lookup_app_r in Hi by lia.
      destruct (i - length l) as [|k]; simpl in Hi; [by injection Hi as -> |].
      by rewrite lookup_nil in Hi.
Qed.

Lemma published_snoc tr e :
  published (tr ++ [e]) =
    published tr ++ match e with EvPublish n => [n] | _ => [] end.
Proof. unfold published. rewrite omap_app. by destruct e. Qed.

Lemma publishes_in_order_frame total s s' :
  trace s' = trace s -> processed s' = processed s ->
  processed_pixels s' = processed_pixels s -> total_pixels s' = total_pixels s ->
  publishes_in_order total s -> publishes_in_order total s'.
Proof. unfold publishes_in_order. by intros -> -> -> ->. Qed.

Lemma publishes_in_order_check total b s :
  publishes_in_order total s -> publishes_in_order total (log (EvCheck b) s).
Proof.
  unfold publishes_in_order. simpl. rewrite published_snoc, app_nil_r. done.
Qed.

Lemma publishes_in_order_count total tot xy s :
  tot <> 0 ->
  publishes_in_order total s -> publishes_in_order total (count_pixel tot xy s).
Proof.
  intros Htot (Hnd & Hle & Hlast & Htotal). unfold count_pixel.
  case_decide as Hbatch; [rewrite decide_False by done|];
    unfold publishes_in_order; simpl.
  - rewrite !published_snoc, app_nil_r.
    split; [|split; [|split; [apply last_snoc | done]]].
    + apply nondecreasing_snoc; [done|]. intros n Hn%Hle. lia.
    + intros n [Hn%Hle | ->%list_elem_of_singleton]%elem_of_app; lia.
  - rewrite published_snoc, app_nil_r.
    split; [done | split; [|done]]. intros n Hn%Hle. lia.
Qed.

Lemma run_loops_publishes_in_order total cfg l width height s :
  publishes_in_order total (set_processed 0 s) ->
  publishes_in_order total (run_loops cfg l width height s).
Proof.
  apply (run_loops_preserve (publishes_in_order total)).
  - intros s1 b. apply publishes_in_order_check.
  - done.
  - intros tot xy s1. apply publishes_in_order_count.
  - intros a xy s1.
    destruct (simplify_pixel_frame a l xy s1) as (h & P & K & ->).
    by apply publishes_in_order_frame.
  - intros pal xy s1.
    destruct (map_pixel_frame pal l xy s1) as (h & K & ->).
    by apply publishes_in_order_frame.
Qed.

Lemma start_run_publishes_in_order l img g :
  publishes_in_order ((size img).1 * (size img).2) (start_run l img g).
Proof.
  unfold publishes_in_order. simpl. repeat split; try done.
  - intros i j m n Hij Hi Hj.
    destruct i, j; simpl in *; rewrite ?lookup_nil in *; congruence.
  - by intros n ->%list_elem_of_singleton.
Qed.

(** C6: the values published in [processed_pixels] during a run never
    decrease and never exceed [total_pixels], which is width * height; the
    last one is the total when the run completes, and less than the total
    when a run over an image that has columns is canceled. *)
Theorem processed_pixels_monotone cfg g orig img :
  original_image cfg = Some orig ->
  heap g !! orig = Some img ->
  let r := analyze_image_worker cfg g in
  let total := (size img).1 * (size img).2 in
  total_pixels r.2 = total
  /\ nondecreasing (published (trace r.2))
  /\ (forall n, n ∈ published (trace r.2) -> n <= total)
  /\ last (published (trace r.2)) = Some (processed_pixels r.2)
  /\ (forall l, r.1 = COMPLETED l -> processed_pixels r.2 = total)
  /\ (r.1 = CANCELED -> 0 < (size img).1 -> processed_pixels r.2 < total).
Proof.
  intros Ho Himg r total. subst r.
  destruct (float_of_int (similarity_threshold cfg)) as [f|] eqn:Hthr.
  2: { rewrite (worker_overflow _ _ _ _ Ho Himg Hthr).
       destruct (start_run_publishes_in_order (fresh (dom (heap g))) img g)
         as (Hnd & Hle & Hlast & Htotal).
       repeat split; try done. intros n Hn%Hle. simpl in Hn. lia. }
  rewrite (worker_unfold _ _ _ _ Ho Himg) by eauto.
  set (l := fresh (dom (heap g))).
  set (s' := run_loops cfg l (size img).1 (size img).2 (start_run l img g)).
  pose proof (run_loops_publishes_in_order total cfg l (size img).1 (size img).2
                (start_run l img g) (start_run_publishes_in_order l img g))
    as (Hnd & Hle & Hlast & Htotal).
  destruct (run_loops_count cfg l (size img).1 (size img).2
              (start_run l img g) eq_refl) as [[Hcount Hstrict] Hdone].
  fold s' in Hnd, Hle, Hlast, Htotal, Hcount, Hstrict, Hdone. fold total in Hcount, Hstrict, Hdone.
  unfold conclude. destruct (raised s') eqn:Hr; [|destruct (canceled s') eqn:Hc];
    simpl.
  - repeat split; try done. intros n Hn%Hle. lia.
  - repeat split; try done.
    + intros n Hn%Hle. lia.
    + intros _ Hw. apply last_Some_elem_of, Hle in Hlast.
      specialize (Hstrict eq_refl Hw). lia.
  - rewrite published_snoc, Htotal. repeat split; try done.
    + apply nondecreasing_snoc; [done|]. intros n Hn%Hle. lia.
    + intros n [Hn%Hle | ->%list_elem_of_singleton]%elem_of_app; lia.
    + apply last_snoc.
Qed.

(** ** Cancellation *)

Section cancellation.
Context (cfg : config) (r : nat) (Hreq : cancel_req cfg = Some r).

Lemma lookup_snoc_Some (tr : list event) e i e' :
  (tr ++ [e]) !! i = Some e' ->
  tr !! i = Some e' \/ i = length tr /\ e' = e.
Proof.
  destruct (decide (i < length tr)).
  - rewrite lookup_app_l by done. auto.
  - rewrite lookup_app_r by lia.
    destruct (i - length tr) as [|k] eqn:Hk; simpl.
    + intros [= <-]. right. split; [lia | done].
    + by rewrite lookup_nil.
Qed.

Lemma timely_pixel_body total xy (f : wstate -> wstate) s :
  (forall s, trace (f s) = trace s) ->
  timely r s ->
  timely r (guard (cancel_req cfg) (fun s => count_pixel total xy (f s)) s).
Proof.
  intros Hf Hs. unfold guard, is_set. rewrite Hreq. case_bool_decide as Hr.
  - intros i p [Hi | [_ [=]]]%lookup_snoc_Some. by eapply Hs.
  - intros i p. destruct (count_pixel_trace total xy (f (log (EvCheck false) s)))
      as (tl & -> & Htl).
    rewrite Hf. simpl. rewrite <- app_assoc. simpl. intros Hi.
    destruct (decide (i < length (trace s))).
    { rewrite lookup_app_l in Hi by done. by eapply Hs. }
    rewrite lookup_app_r in Hi by lia.
    destruct (i - length (trace s)) as [|[|k]] eqn:Hk; simpl in Hi;
      [done | lia |].
    destruct Htl as [-> | [m ->]]; [by rewrite lookup_nil in Hi|].
    destruct k; simpl in Hi; [done | by rewrite lookup_nil in Hi].
Qed.

Lemma run_loops_timely l width height s :
  timely r (set_processed 0 s) -> timely r (run_loops cfg l width height s).
Proof.
  apply (run_loops_ind (timely r)).
  - intros body s1 Hb Hs1. apply guard_preserve; [|done..].
    intros s2 b Hs2 i p [Hi | [_ [=]]]%lookup_snoc_Some. by eapply Hs2.
  - intros total xy s1 _. apply timely_pixel_body, simplify_pixel_trace.
  - intros total pal xy s1 _. apply timely_pixel_body, map_pixel_trace.
Qed.

Lemma answered_frame s s' tl :
  trace s' = trace s ++ tl ->
  (forall e, e ∈ tl -> forall b, e <> EvCheck b) ->
  answered r s -> answered r s'.
Proof.
  intros Htr Htl Hs i b. rewrite Htr. intros Hi.
  destruct (decide (i < length (trace s))).
  - rewrite lookup_app_l in Hi by done. by apply Hs.
  - rewrite lookup_app_r in Hi by lia.
    apply list_elem_of_lookup_2 in Hi. by apply Htl with (b := b) in Hi.
Qed.

Lemma answered_guard body s :
  (forall s, answered r s -> answered r (body s)) ->
  answered r s -> answered r (guard (cancel_req cfg) body s).
Proof.
  intros Hb Hs. unfold guard, is_set. rewrite Hreq.
  case_bool_decide as Hr; [|apply Hb];
    intros i b [Hi | [-> [= ->]]]%lookup_snoc_Some; try (by apply Hs);
    symmetry; [by apply bool_decide_eq_true | by apply bool_decide_eq_false].
Qed.

Lemma answered_count_pixel total xy (f : wstate -> wstate) s :
  (forall s, trace (f s) = trace s) ->
  answered r s -> answered r (count_pixel total xy (f s)).
Proof.
  intros Hf. destruct (count_pixel_trace total xy (f s)) as (tl & Htr & Htl).
  rewrite Hf in Htr. apply (answered_frame _ _ _ Htr).
  intros e [-> | He]%elem_of_cons b; [done|].
  destruct Htl as [-> | [n ->]]; [by apply elem_of_nil in He|].
  by apply list_elem_of_singleton in He as ->.
Qed.

Lemma run_loops_answered l width height s :
  answered r (set_processed 0 s) -> answered r (run_loops cfg l width height s).
Proof.
  apply (run_loops_ind (answered r)).
  - intros body s1 Hb Hs1. by apply answered_guard.
  - intros total xy s1 _ Hs1. apply answered_guard; [|done].
    intros s2. apply answered_count_pixel, simplify_pixel_trace.
  - intros total pal xy s1 _ Hs1. apply answered_guard; [|done].
    intros s2. apply answered_count_pixel, map_pixel_trace.
Qed.
End cancellation.

(** A check that found the event set leaves [canceled] set. *)
Lemma run_loops_check_true cfg l width height s :
  (EvCheck true ∈ trace (set_processed 0 s) -> canceled s = true) ->
  EvCheck true ∈ trace (run_loops cfg l width height s) ->
  canceled (run_loops cfg l width height s) = true.
Proof.
  assert (forall body s,
            (forall s, (EvCheck true ∈ trace s -> canceled s = true) ->
                       EvCheck true ∈ trace (body s) -> canceled (body s) = true) ->
            (EvCheck true ∈ trace s -> canceled s = true) ->
            EvCheck true ∈ trace (guard (cancel_req cfg) body s) ->
            canceled (guard (cancel_req cfg) body s) = true) as Hguard.
  { intros body s1 Hb Hs1. unfold guard.
    destruct (is_set (cancel_req cfg) s1); [done|]. apply Hb. simpl.
    intros [Hin | [=]%list_elem_of_singleton]%elem_of_app. by apply Hs1. }
  assert (forall total xy (f : wstate -> wstate) s,
            (forall s, trace (f s) = trace s) ->
            (forall s, canceled (f s) = canceled s) ->
            (EvCheck true ∈ trace s -> canceled s = true) ->
            EvCheck true ∈ trace (count_pixel total xy (f s)) ->
            canceled (count_pixel total xy (f s)) = true) as Hcount.
  { intros total xy f s1 Hf Hc Hs1.
    destruct (count_pixel_trace total xy (f s1)) as (tl & -> & Htl).
    rewrite count_pixel_canceled, Hf, Hc.
    intros [Hin | [[=] | Hin]%elem_of_cons]%elem_of_app; [by apply Hs1|].
    destruct Htl as [-> | [n ->]]; [by apply elem_of_nil in Hin|].
    by apply list_elem_of_singleton in Hin. }
  apply (run_loops_ind
           (fun s => EvCheck true ∈ trace s -> canceled s = true)).
  - intros body s1 Hb Hs1. by apply Hguard.
  - intros total xy s1 _ Hs1. apply Hguard; [|done]. intros s2.
    apply Hcount; [apply simplify_pixel_trace | apply simplify_pixel_canceled].
  - intros total pal xy s1 _ Hs1. apply Hguard; [|done]. intros s2.
    apply Hcount; [apply map_pixel_trace | apply map_pixel_canceled].
Qed.

(** A run in which no check found the event set is the run without a
    request. *)
Lemma for_each_agree {A} (body body' : A -> wstate -> wstate) l s :
  (forall a s, canceled (body a s) = false -> body a s = body' a s) ->
  canceled (for_each body l s) = false ->
  for_each body l s = for_each body' l s.
Proof.
  intros Hb. revert s. induction l as [|a l IH]; intros s; simpl; [done|].
  destruct (stopped (body a s)) eqn:Hst.
  - intros Hc. by rewrite <- (Hb a s Hc), Hst.
  - intros Hc. assert (canceled (body a s) = false) as Hca.
    { unfold stopped in Hst. by apply orb_false_elim in Hst as [? _]. }
    rewrite <- (Hb a s Hca), Hst. by apply IH.
Qed.

Lemma guard_agree req body body' s :
  (forall s, canceled (body s) = false -> body s = body' s) ->
  canceled (guard req body s) = false ->
  guard req body s = guard None body' s.
Proof.
  intros Hb. unfold guard. destruct (is_set req s); [done|].
  simpl. apply Hb.
Qed.

Lemma run_loops_agree cfg l width height s :
  canceled (run_loops cfg l width height s) = false ->
  run_loops cfg l width height s
  = run_loops (without_cancel cfg) l width height s.
Proof.
  unfold run_loops. simpl. case_decide.
  - unfold simplify_loops. simpl.
    apply for_each_agree. intros y0 s1. apply guard_agree. intros s2.
    apply for_each_agree. intros x0 s3. apply guard_agree. intros s4.
    apply for_each_agree. intros xy s5. by apply guard_agree.
  - unfold pallette_loops. simpl.
    apply for_each_agree. intros y s1. apply guard_agree. intros s2.
    apply for_each_agree. intros x s3. by apply guard_agree.
Qed.

Lemma count_pixels_drop (tr : list event) (r : nat) :
  (forall i xy, tr !! i = Some (EvPixel xy) -> i <= r) ->
  count_pixels (drop r tr) <= 1.
Proof.
  intros Htr.
  assert (forall tl, (forall j xy, tl !! j <> Some (EvPixel xy)) ->
                     count_pixels tl = 0) as Hnone.
  { induction tl as [|e tl IH]; intros Htl; [done|].
    assert (count_pixels tl = 0) as Hrec.
    { apply IH. intros j xy. apply (Htl (S j)). }
    destruct e; simpl; try done. by destruct (Htl 0 xy). }
  destruct (drop r tr) as [|e tl] eqn:Hdrop; [simpl; lia|].
  assert (count_pixels tl = 0) as Htl.
  { apply Hnone. intros j xy Hj.
    assert (tr !! (r + S j) = Some (EvPixel xy)) as Hi.
    { by rewrite <- lookup_drop, Hdrop. }
    apply Htr in Hi. lia. }
  destruct e; simpl; lia.
Qed.

(** A run with a request follows the run without one up to the check
    that sees the request. *)
Lemma for_each_overtaken {A} (body body' : A -> wstate -> wstate) l s :
  (forall a s, overtaken (body a s) (body' a s)) ->
  (forall a s, trace s `prefix_of` trace (body' a s)) ->
  overtaken (for_each body l s) (for_each body' l s).
Proof.
  intros Hb Hgrow. revert s. induction l as [|a l IH]; intros s; simpl.
  { by left. }
  destruct (Hb a s) as [Heq | (Hc & tr & Htr & Hpre)].
  - rewrite Heq. destruct (stopped (body' a s)); [by left | apply IH].
  - rewrite (stopped_canceled _ Hc). right. split; [done|].
    exists tr. split; [done|]. etrans; [done|].
    destruct (stopped (body' a s)); [done|]. by apply for_each_grows.
Qed.

Lemma guard_overtaken req body body' s :
  (forall s, overtaken (body s) (body' s)) ->
  (forall s, trace s `prefix_of` trace (body' s)) ->
  overtaken (guard req body s) (guard None body' s).
Proof.
  intros Hb Hgrow. unfold guard. simpl. destruct (is_set req s); [|apply Hb].
  right. split; [done|]. exists (trace s). split; [done|].
  apply (Hgrow (log (EvCheck false) s)).
Qed.

Lemma run_loops_overtaken cfg l width height s :
  overtaken (run_loops cfg l width height s)
    (run_loops (without_cancel cfg) l width height s).
Proof.
  unfold run_loops. simpl. case_decide.
  - unfold simplify_loops. simpl.
    apply for_each_overtaken.
    + intros y0 s1. apply guard_overtaken.
      * intros s2. apply for_each_overtaken.
        -- intros x0 s3. apply guard_overtaken.
           ++ intros s4. apply for_each_overtaken.
              ** intros xy s5. apply guard_overtaken; [by left|].
                 intros s6. etrans; [|apply count_pixel_grows].
                 by rewrite simplify_pixel_trace.
              ** intros xy s5. apply simplify_body_grows.
           ++ intros s4. apply for_each_grows. intros xy s5.
              apply simplify_body_grows.
        -- intros x0 s3. apply guard_grows. intros s4.
           apply for_each_grows. intros xy s5. apply simplify_body_grows.
      * intros s2. apply for_each_grows. intros x0 s3.
        apply guard_grows. intros s4. apply for_each_grows. intros xy s5.
        apply simplify_body_grows.
    + intros y0 s1. apply guard_grows. intros s2.
      apply for_each_grows. intros x0 s3. apply guard_grows. intros s4.
      apply for_each_grows. intros xy s5. apply simplify_body_grows.
  - unfold pallette_loops. simpl.
    apply for_each_overtaken.
    + intros y s1. apply guard_overtaken.
      * intros s2. apply for_each_overtaken.
        -- intros x s3. apply guard_overtaken; [by left|].
           intros s4. etrans; [|apply count_pixel_grows].
           by rewrite map_pixel_trace.
        -- intros x s3. apply map_body_grows.
      * intros s2. apply for_each_grows. intros x s3. apply map_body_grows.
    + intros y s1. apply guard_grows. intros s2.
      apply for_each_grows. intros x s3. apply map_body_grows.
Qed.

(** C7, amended. With a request made at time [r]: the request never makes
    the run fail (a run fails only for a threshold that does not convert to
    a float, requested or not); a check sees the request exactly when it is
    made at or after [r]; the run ends as [CANCELED] exactly when one of its
    checks has seen the request, which is exactly when the worker, left
    alone, would still have made a check at or after [r]; from [r] on the
    worker counts at most one pixel; and a request that no check sees goes
    unobserved: the run is the run without a request, ending as it would
    have ended. In particular a request made after the last check of a run
    that does not fail is not observed, and the run ends as [COMPLETED]. *)
Theorem cancellation_observed cfg g orig img r :
  original_image cfg = Some orig ->
  heap g !! orig = Some img ->
  cancel_req cfg = Some r ->
  let res := analyze_image_worker cfg g in
  let quiet := analyze_image_worker (without_cancel cfg) g in
  (res.1 = FAILED <-> float_of_int (similarity_threshold cfg) = None)
  /\ (forall i b, trace res.2 !! i = Some (EvCheck b) -> b = bool_decide (r <= i))
  /\ (res.1 = CANCELED <-> exists i, trace res.2 !! i = Some (EvCheck true))
  /\ count_pixels (drop r (trace res.2)) <= 1
  /\ (res.1 = CANCELED <->
      exists i b, r <= i /\ trace quiet.2 !! i = Some (EvCheck b))
  /\ (res.1 <> CANCELED -> res = quiet)
  /\ (is_Some (float_of_int (similarity_threshold cfg)) ->
      (forall i b, trace quiet.2 !! i = Some (EvCheck b) -> i < r) ->
      res.1 = COMPLETED (fresh (dom (heap g))) /\ res = quiet).
Proof.
  intros Ho Himg Hreq res quiet. subst res quiet.
  destruct (float_of_int (similarity_threshold cfg)) as [f|] eqn:Hthr.
  2: { rewrite (worker_overflow cfg g orig img Ho Himg Hthr).
       rewrite (worker_overflow (without_cancel cfg) g orig img Ho Himg Hthr).
       simpl. split; [done|]. split; [by intros [|i] b|].
       split; [split; [done | by intros [[|i] ?]]|].
       split; [by destruct r as [|[|r]]; simpl; lia|].
       split; [split; [done|]; by intros ([|i] & b & _ & ?)|].
       split; [done|]. by intros [? [=]]. }
  rewrite (worker_unfold cfg g orig img Ho Himg) by eauto.
  rewrite (worker_unfold (without_cancel cfg) g orig img Ho Himg)
    by (simpl; eauto).
  set (l := fresh (dom (heap g))).
  set (s' := run_loops cfg l (size img).1 (size img).2 (start_run l img g)).
  set (q' := run_loops (without_cancel cfg) l (size img).1 (size img).2
               (start_run l img g)).
  assert (raised s' = false) as Hraised by (by apply run_loops_raised).
  assert (stopped q' = false) as Hquiet by (by apply run_loops_completes).
  assert (forall i xy, trace s' !! i = Some (EvPixel xy) -> i <= r) as Htimely.
  { apply (run_loops_timely cfg r Hreq). by intros [|[|i]] xy. }
  assert (forall i b, trace s' !! i = Some (EvCheck b) -> b = bool_decide (r <= i))
    as Hans.
  { apply (run_loops_answered cfg r Hreq). by intros [|[|i]] b. }
  assert (canceled s' = true ->
          exists tr, trace s' = tr ++ [EvCheck true]
            /\ (tr ++ [EvCheck false]) `prefix_of` trace q') as Hover.
  { intros Hc.
    destruct (run_loops_overtaken cfg l (size img).1 (size img).2
                (start_run l img g)) as [Heq | [_ Hov]]; [|done].
    fold s' q' in Heq. unfold stopped in Hquiet.
    apply orb_false_elim in Hquiet as [Hq _]. congruence. }
  assert (forall i, trace s' !! i = Some (EvCheck true) -> canceled s' = true)
    as Hseen.
  { intros i Hi%list_elem_of_lookup_2.
    apply run_loops_check_true in Hi; [done|].
    simpl. by intros [=]%list_elem_of_singleton. }
  rewrite (conclude_completed l q' Hquiet).
  unfold conclude. rewrite Hraised.
  destruct (canceled s') eqn:Hc; simpl.
  - destruct (Hover eq_refl) as (tr & Htr & Hpre).
    assert (r <= length tr) as Hr.
    { specialize (Hans (length tr) true). rewrite Htr in Hans.
      rewrite lookup_app_r, Nat.sub_diag in Hans by done.
      specialize (Hans eq_refl). symmetry in Hans.
      by apply bool_decide_eq_true in Hans. }
    split; [done|]. split; [done|]. split.
    { split; [|done]. intros _. exists (length tr).
      by rewrite Htr, lookup_app_r, Nat.sub_diag. }
    split; [by apply count_pixels_drop|].
    assert ((trace q' ++ [EvPublish (total_pixels q')]) !! length tr
            = Some (EvCheck false)) as Hlate.
    { destruct Hpre as [more Hmore]. rewrite Hmore, <- !app_assoc.
      by rewrite lookup_app_r, Nat.sub_diag. }
    split; [split; [|done]; intros _; by exists (length tr), false|].
    split; [done|]. intros _ Hnone. apply Hnone in Hlate. lia.
  - split; [done|]. split.
    { intros i b [Hi | [_ [=]]]%lookup_snoc_Some. by apply Hans. }
    split.
    { split; [done|]. intros [i [Hi | [_ [=]]]%lookup_snoc_Some].
      apply Hseen in Hi. congruence. }
    split.
    { apply count_pixels_drop.
      intros i xy [Hi | [_ [=]]]%lookup_snoc_Some. by eapply Htimely. }
    pose proof (run_loops_agree cfg l _ _ _ Hc) as Hagree. fold s' q' in Hagree.
    split.
    { split; [done|]. intros (i & b & Hri & Hi). exfalso.
      rewrite <- Hagree in Hi. apply lookup_snoc_Some in Hi as [Hi | [_ [=]]].
      pose proof (Hans i b Hi) as Hb.
      rewrite bool_decide_eq_true_2 in Hb by done. subst b.
      apply Hseen in Hi. congruence. }
    split; [by rewrite Hagree|]. intros _ _. split; [done | by rewrite Hagree].
Qed.

(** * The theorems at sample runs *)

Lemma simplify_pixel_transition_witness :
  is_Some (heap mid_run !! 0)
  /\ (let s' := simplify_pixel (allowed_sq 95) 0 (0, 0) mid_run in
      pixel_transition (allowed_sq 95)
        (saved_colors mid_run, nearest_cache mid_run, load_px 0 (0, 0) mid_run)
        (saved_colors s', nearest_cache s', load_px 0 (0, 0) s')
      /\ (forall xy', xy' <> (0, 0) -> load_px 0 xy' s' = load_px 0 xy' mid_run)
      /\ s' = set_heap (heap s')
                (set_saved_colors (saved_colors s')
                   (set_nearest_cache (nearest_cache s') mid_run))).
Proof.
  assert (is_Some (heap mid_run !! 0)) as H by (exists two_pixels; reflexivity).
  split; [exact H | exact (simplify_pixel_transition (allowed_sq 95) 0 (0, 0) mid_run H)].
Defined.

Lemma fixed_palette_nearest_witness :
  get_pallette (onto black_white None) <> "Simplify Pallette"
  /\ pallettes (onto black_white None) !! get_pallette (onto black_white None)
     = Some black_white
  /\ original_image (onto black_white None) = Some 0
  /\ heap (loaded one_pixel) !! 0 = Some one_pixel
  /\ is_Some (float_of_int (similarity_threshold (onto black_white None)))
  /\ is_Some (result_image
                (analyze_image_worker (onto black_white None) (loaded one_pixel))).
Proof.
  assert (get_pallette (onto black_white None) <> "Simplify Pallette") as H1
    by discriminate.
  assert (pallettes (onto black_white None) !! get_pallette (onto black_white None)
          = Some black_white) as H2 by reflexivity.
  assert (original_image (onto black_white None) = Some 0) as H3 by reflexivity.
  assert (heap (loaded one_pixel) !! 0 = Some one_pixel) as H4 by reflexivity.
  assert (is_Some (float_of_int (similarity_threshold (onto black_white None))))
    as H5 by (eexists; reflexivity).
  split; [exact H1|]. split; [exact H2|]. split; [exact H3|]. split; [exact H4|].
  split; [exact H5|].
  exact (proj2 (proj1 (fixed_palette_nearest (onto black_white None)
                         (loaded one_pixel) 0 one_pixel (0, 0, 0)%Z
                         [(255, 255, 255)%Z] H1 H2 H3 H4)
                  eq_refl) H5).
Defined.

Lemma two_pixels_valid x y :
  x < (size two_pixels).1 -> y < (size two_pixels).2 ->
  valid_color (px two_pixels (x, y)).
Proof. intros _ _. simpl. case_decide; simpl; lia. Qed.

Lemma threshold_0_collapses_witness :
  get_pallette (discover 0 None) = "Simplify Pallette"
  /\ similarity_threshold (discover 0 None) = 0%Z
  /\ original_image (discover 0 None) = Some 0
  /\ heap (loaded two_pixels) !! 0 = Some two_pixels
  /\ 0 < (size two_pixels).1 /\ 0 < (size two_pixels).2
  /\ (forall x y, x < (size two_pixels).1 -> y < (size two_pixels).2 ->
        valid_color (px two_pixels (x, y)))
  /\ (let r := analyze_image_worker (discover 0 None) (loaded two_pixels) in
      (cancel_req (discover 0 None) = None -> is_Some (result_image r))
      /\ forall out, result_image r = Some out ->
           exists p0,
             first_pixel (trace r.2) = Some p0
             /\ saved_colors r.2 = [px two_pixels p0]
             /\ forall x y, x < (size two_pixels).1 -> y < (size two_pixels).2 ->
                  px out (x, y) = px two_pixels p0).
Proof.
  assert (0 < (size two_pixels).1) as Hw by (simpl; lia).
  assert (0 < (size two_pixels).2) as Hh by (simpl; lia).
  do 4 (split; [reflexivity|]). split; [exact Hw|]. split; [exact Hh|].
  split; [exact two_pixels_valid|].
  exact (threshold_0_collapses (discover 0 None) (loaded two_pixels) 0
           two_pixels eq_refl eq_refl eq_refl eq_refl Hw Hh two_pixels_valid).
Defined.

Lemma fixed_palette_idempotent_witness :
  get_pallette (onto black_white None) <> "Simplify Pallette"
  /\ pallettes (onto black_white None) !! get_pallette (onto black_white None)
     = Some black_white
  /\ original_image (onto black_white None) = Some 0
  /\ heap (loaded one_pixel) !! 0 = Some one_pixel
  /\ result_image (analyze_image_worker (onto black_white None) (loaded one_pixel))
     = Some quantized_once
  /\ heap (loaded quantized_once) !! 0 = Some quantized_once
  /\ result_image
       (analyze_image_worker (onto black_white None) (loaded quantized_once))
     = Some quantized_twice
  /\ size quantized_twice = size quantized_once
  /\ forall x y, x < (size quantized_once).1 -> y < (size quantized_once).2 ->
       px quantized_twice (x, y) = px quantized_once (x, y).
Proof.
  assert (get_pallette (onto black_white None) <> "Simplify Pallette") as H1
    by discriminate.
  assert (pallettes (onto black_white None) !! get_pallette (onto black_white None)
          = Some black_white) as H2 by reflexivity.
  assert (result_image
            (analyze_image_worker (onto black_white None) (loaded one_pixel))
          = Some quantized_once) as H3 by reflexivity.
  assert (result_image
            (analyze_image_worker (onto black_white None) (loaded quantized_once))
          = Some quantized_twice) as H4 by reflexivity.
  split; [exact H1|]. split; [exact H2|]. do 2 (split; [reflexivity|]).
  split; [exact H3|]. split; [reflexivity|]. split; [exact H4|].
  exact (fixed_palette_idempotent
           (onto black_white None) (loaded one_pixel) 0 one_pixel
           (onto black_white None) (loaded quantized_once) 0
           (0, 0, 0)%Z [(255, 255, 255)%Z] quantized_once quantized_twice
           H1 H2 eq_refl eq_refl H3 H1 H2 eq_refl eq_refl H4).
Defined.

Lemma empty_pallette_noop_witness :
  get_pallette (onto [] None) <> "Simplify Pallette"
  /\ default [] (pallettes (onto [] None) !! get_pallette (onto [] None)) = []
  /\ original_image (onto [] None) = Some 0
  /\ heap (loaded two_pixels) !! 0 = Some two_pixels
  /\ is_Some (float_of_int (similarity_threshold (onto [] None)))
  /\ (let new_image := fresh (dom (heap (loaded two_pixels))) in
      let r := analyze_image_worker (onto [] None) (loaded two_pixels) in
      r.1 = COMPLETED new_image /\ result_image r = Some two_pixels).
Proof.
  assert (get_pallette (onto [] None) <> "Simplify Pallette") as H1 by discriminate.
  assert (is_Some (float_of_int (similarity_threshold (onto [] None)))) as H2
    by (eexists; reflexivity).
  split; [exact H1|]. do 3 (split; [reflexivity|]). split; [exact H2|].
  exact (proj1 (proj2 (proj2
           (empty_pallette_noop (onto [] None) (loaded two_pixels) 0 two_pixels
              H1 eq_refl eq_refl eq_refl)))
           eq_refl H2).
Defined.

Lemma processed_pixels_monotone_witness :
  original_image (discover 95 None) = Some 0
  /\ heap (loaded two_pixels) !! 0 = Some two_pixels
  /\ (let r := analyze_image_worker (discover 95 None) (loaded two_pixels) in
      let total := (size two_pixels).1 * (size two_pixels).2 in
      total_pixels r.2 = total
      /\ nondecreasing (published (trace r.2))
      /\ (forall n, n ∈ published (trace r.2) -> n <= total)
      /\ last (published (trace r.2)) = Some (processed_pixels r.2)
      /\ (forall l, r.1 = COMPLETED l -> processed_pixels r.2 = total)
      /\ (r.1 = CANCELED -> 0 < (size two_pixels).1 ->
          processed_pixels r.2 < total)).
Proof.
  split; [reflexivity|]. split; [reflexivity|].
  exact (processed_pixels_monotone (discover 95 None) (loaded two_pixels) 0
           two_pixels eq_refl eq_refl).
Defined.

(** A request at time 4 on a 1 x 1 image arrives after the last check,
    while the only pixel is being processed: the run completes. *)
Lemma late_request_completes : ~ every_request_cancels.
Proof.
  intros H.
  specialize (H (discover 95 (Some 4)) (loaded one_pixel) 0 one_pixel 4
                eq_refl eq_refl eq_refl).
  assert (length (trace (analyze_image_worker (discover 95 (Some 4))
                           (loaded one_pixel)).2) = 6) as Hlen
    by (vm_compute; reflexivity).
  rewrite Hlen in H. specialize (H ltac:(lia)).
  vm_compute in H. discriminate H.
Qed.

Lemma cancellation_observed_witness :
  original_image (discover 95 (Some 2)) = Some 0
  /\ heap (loaded two_pixels) !! 0 = Some two_pixels
  /\ cancel_req (discover 95 (Some 2)) = Some 2
  /\ (analyze_image_worker (discover 95 (Some 2)) (loaded two_pixels)).1 = CANCELED.
Proof.
  split; [reflexivity|]. split; [reflexivity|]. split; [reflexivity|].
  apply (proj1 (proj2 (proj2 (proj2 (proj2
           (cancellation_observed (discover 95 (Some 2)) (loaded two_pixels) 0
              two_pixels 2 eq_refl eq_refl eq_refl)))))).
  exists 2, false. split; [lia | reflexivity].
Defined.

Lemma saved_colors_NoDup_witness :
  (analyze_image_worker (discover 100 None) (loaded two_pixels)).1 <> FAILED
  /\ NoDup (saved_colors
              (analyze_image_worker (discover 100 None) (loaded two_pixels)).2).
Proof.
  assert ((analyze_image_worker (discover 100 None) (loaded two_pixels)).1
          <> FAILED) as H by (vm_compute; discriminate).
  split; [exact H|].
  exact (saved_colors_NoDup (discover 100 None) (loaded two_pixels) H).
Defined.

Lemma original_image_unchanged_witness :
  original_image (discover 0 None) = Some 0
  /\ heap (analyze_image_worker (discover 0 None) (loaded two_pixels)).2 !! 0
     = heap (loaded two_pixels) !! 0.
Proof.
  split; [reflexivity|].
  exact (original_image_unchanged (discover 0 None) (loaded two_pixels) 0 eq_refl).
Defined.

(** * The scenarios of the specification *)

(** Scenario A: one pixel (255,0,0), discovery at threshold 95. *)
Example scenario_a :
  let r := analyze_image_worker (discover 95 None)
             (loaded (Image (1, 1) (fun _ => (255, 0, 0)%Z))) in
  r.1 = COMPLETED 1 /\ saved_colors r.2 = [(255, 0, 0)%Z]
  /\ (fun im => px im (0, 0)) <$> result_image r = Some (255, 0, 0)%Z.
Proof. vm_compute. done. Qed.

(** Scenario B: (0,0,0) and (1,1,1) at threshold 100 are both kept. *)
Example scenario_b :
  let r := analyze_image_worker (discover 100 None) (loaded two_pixels) in
  saved_colors r.2 = [(0, 0, 0)%Z; (1, 1, 1)%Z]
  /\ (fun im => (px im (0, 0), px im (1, 0))) <$> result_image r
     = Some ((0, 0, 0)%Z, (1, 1, 1)%Z).
Proof. vm_compute. done. Qed.

(** Scenario C: at threshold 0 the second pixel is rewritten to the first. *)
Example scenario_c :
  let r := analyze_image_worker (discover 0 None) (loaded two_pixels) in
  saved_colors r.2 = [(0, 0, 0)%Z]
  /\ (fun im => (px im (0, 0), px im (1, 0))) <$> result_image r
     = Some ((0, 0, 0)%Z, (0, 0, 0)%Z).
Proof. vm_compute. done. Qed.

(** Scenario D: (10,10,10) is mapped onto (0,0,0) of the palette
    [(0,0,0); (255,255,255)]. *)
Example scenario_d :
  (fun im => px im (0, 0))
    <$> result_image (analyze_image_worker (onto black_white None) (loaded one_pixel))
  = Some (0, 0, 0)%Z.
Proof. vm_compute. done. Qed.

(** The maximal distance is not too far at threshold 0: the float
    [allowed_sq 0] is exactly 195075. *)
Example black_white_merge :
  int_gt_float (color_distance_sq (0, 0, 0)%Z (255, 255, 255)%Z) (allowed_sq 0)
  = false.
Proof. vm_compute. reflexivity. Qed.

(** A 301 x 2 image has two tiles; every pixel is counted once. *)
Example two_tiles :
  let r := analyze_image_worker (discover 95 None)
             (loaded (Image (301, 2) (fun _ => (10, 10, 10)%Z))) in
  r.1 = COMPLETED 1 /\ processed r.2 = 602
  /\ trace r.2 !! 604 = Some (EvPixel (0, 1)).
Proof. vm_compute. done. Qed.

(** * Further properties of the worker *)

(** ** The allowed distance is never negative *)

Lemma SFmul_square_nonneg (a : spec_float) :
  int_gt_float 0 (SFmul prec emax a a) = false.
Proof.
  destruct a as [s | s | | s m e]; simpl; try done.
  - by destruct s.
  - unfold binary_round_aux.
    destruct (shr_fexp _ _ _ _ _) as [mrs' e'].
    destruct (shr_fexp _ _ _ _ _) as [mrs'' e''].
    replace (xorb s s) with false by (by destruct s).
    destruct (shr_m mrs'') as [|m'|m']; simpl; try done.
    destruct (e'' <=? emax - prec)%Z; simpl; [|done].
    destruct (0 <=? e'')%Z; apply Z.ltb_ge; lia.
Qed.

Lemma allowed_sq_nonneg (t : Z) : int_gt_float 0 (allowed_sq t) = false.
Proof. apply SFmul_square_nonneg. Qed.

(** ** Discovery mode: every pixel ends on the palette *)

Lemma find_nearest_elem c first rest : find_nearest c first rest ∈ first :: rest.
Proof. eapply first_nearest_elem, find_nearest_spec. Qed.

Lemma discovered_log_check allowed img l b s :
  discovered allowed img l s -> discovered allowed img l (log (EvCheck b) s).
Proof.
  intros (im & Him & Hsize & Hcache & Hpal & Hpx).
  exists im. do 4 (split; [done|]). intros p.
  rewrite (visited_log_check p b s). apply Hpx.
Qed.

Lemma discovered_pixel t img l total xy s :
  xy.1 < (size img).1 -> xy.2 < (size img).2 ->
  discovered (allowed_sq t) img l s ->
  discovered (allowed_sq t) img l
    (count_pixel total xy (simplify_pixel (allowed_sq t) l xy s)).
Proof.
  intros Hx Hy (im & Him & Hsize & Hcache & Hpal & Hpx).
  unfold discovered.
  rewrite count_pixel_heap, count_pixel_saved_colors, count_pixel_nearest_cache.
  assert (forall p,
            EvPixel p ∈ trace (count_pixel total xy
                                 (simplify_pixel (allowed_sq t) l xy s))
            <-> EvPixel p ∈ trace s \/ p = xy) as Hvis.
  { intros p. by rewrite visited_count_pixel, simplify_pixel_trace. }
  revert Hvis.
  generalize (trace (count_pixel total xy
                       (simplify_pixel (allowed_sq t) l xy s))).
  intros tr' Hvis.
  assert (forall c, int_gt_float (color_distance_sq c c) (allowed_sq t) = false)
    as Hself.
  { intros c. rewrite color_distance_sq_refl. apply allowed_sq_nonneg. }
  unfold simplify_pixel, load_px. rewrite (lookup_total_correct _ _ _ Him).
  destruct (decide (px im xy ∈ saved_colors s)) as [Hin | Hin].
  { exists im. do 4 (split; [done|]). intros p. rewrite Hvis. split.
    - intros [Hp | ->]; [by apply Hpx|]. split; [done|].
      destruct (decide (EvPixel xy ∈ trace s)) as [Hv | Hv]; [by apply Hpx|].
      destruct (Hpx xy) as [_ ->]; done.
    - intros Hp. apply Hpx. tauto. }
  assert (EvPixel xy ∉ trace s) as Hnew.
  { intros Hv. apply Hin. by apply Hpx. }
  assert (px im xy = px img xy) as Hc by (by apply Hpx).
  destruct (saved_colors s) as [|first rest] eqn:Hsaved.
  { exists im. simpl. do 2 (split; [done|]). split; [|split].
    - intros c n Hn. by apply Hcache, elem_of_nil in Hn.
    - intros q ->%list_elem_of_singleton. by exists xy.
    - intros p. rewrite Hvis. split.
      + intros [Hp | ->]; [by apply Hpx, proj1, elem_of_nil in Hp|].
        split; [by apply list_elem_of_singleton|]. by rewrite Hc.
      + intros Hp. apply Hpx. tauto. }
  destruct (cached_nearest _ _ _ s) as [n s1] eqn:Hn.
  apply cached_nearest_state in Hn as (K & -> & _ & Hn).
  assert (n ∈ first :: rest
          /\ forall c' n', K !! c' = Some n' -> n' ∈ first :: rest) as [Hnin HK].
  { destruct Hn as [[Hn ->] | (_ & -> & ->)].
    - split; [by eapply Hcache | done].
    - split; [apply find_nearest_elem|].
      intros c' n'. rewrite lookup_insert.
      case_decide; [intros [= <-]; apply find_nearest_elem | apply Hcache]. }
  destruct (int_gt_float (color_distance_sq n (px im xy)) (allowed_sq t))
    eqn:Hfar; simpl; rewrite ?Hsaved.
  - exists im. do 2 (split; [done|]). split; [|split].
    + intros c' n'. rewrite lookup_delete.
      case_decide; [done|]. intros Hk%HK. apply elem_of_app. by left.
    + intros q [Hq | ->%list_elem_of_singleton]%elem_of_app;
        [by apply Hpal | by exists xy].
    + intros p. rewrite Hvis. split.
      * intros [Hp | ->].
        -- destruct (Hpx p) as [[? ?] _]; [done|].
           split; [apply elem_of_app; by left | done].
        -- split; [|by rewrite Hc].
           apply elem_of_app. right. by apply list_elem_of_singleton.
      * intros Hp. apply Hpx. tauto.
  - exists (px_set im xy n). rewrite lookup_alter_eq, Him. simpl.
    do 4 (split; [done|]). intros p. rewrite Hvis.
    case_decide as Hp.
    + subst p. split; [|tauto]. intros _. split; [done | by rewrite <- Hc].
    + split; [|intros Hno; apply Hpx; tauto].
      intros [Hp' | ->]; [by apply Hpx | done].
Qed.

Lemma simplify_loops_discovered cfg img l s :
  discovered (allowed_sq (similarity_threshold cfg)) img l (set_processed 0 s) ->
  discovered (allowed_sq (similarity_threshold cfg)) img l
    (simplify_loops cfg l (size img).1 (size img).2 s).
Proof.
  apply (simplify_loops_ind
           (discovered (allowed_sq (similarity_threshold cfg)) img l)).
  - intros body s1 Hb Hs1.
    apply guard_preserve;
      [intros s2 b; apply discovered_log_check | done | done | done].
  - intros xy s1 Hx Hy Hs1.
    apply guard_preserve;
      [intros s2 b; apply discovered_log_check | done | | done].
    intros s2 Hs2. by apply discovered_pixel.
Qed.

Lemma start_run_discovered allowed l img g :
  discovered allowed img l (start_run l img g).
Proof.
  exists img. simpl. rewrite lookup_insert_eq. do 2 (split; [done|]).
  split; [done|]. split.
  - intros q Hq. by apply elem_of_nil in Hq.
  - intros p. split; [|done]. by intros [=]%list_elem_of_singleton.
Qed.

Lemma discovery_result cfg g orig img out :
  get_pallette cfg = "Simplify Pallette" ->
  original_image cfg = Some orig ->
  heap g !! orig = Some img ->
  result_image (analyze_image_worker cfg g) = Some out ->
  let pal := saved_colors (analyze_image_worker cfg g).2 in
  size out = size img
  /\ (forall x y, x < (size img).1 -> y < (size img).2 ->
        px out (x, y) ∈ pal
        /\ int_gt_float (color_distance_sq (px out (x, y)) (px img (x, y)))
             (allowed_sq (similarity_threshold cfg)) = false)
  /\ (forall q, q ∈ pal ->
        exists x y, x < (size img).1 /\ y < (size img).2 /\ px img (x, y) = q).
Proof.
  intros Hmode Ho Himg Hres.
  pose proof (result_image_converts _ _ _ _ _ Ho Himg Hres) as Hthr.
  revert Hres.
  rewrite (worker_unfold _ _ _ _ Ho Himg Hthr), run_loops_discover by done.
  set (l := fresh (dom (heap g))).
  intros [Hrun Hout]%conclude_result_image. rewrite conclude_saved_colors.
  pose proof (simplify_loops_discovered cfg img l _
                (start_run_discovered _ l img g))
    as (im & Him & Hsize & _ & Hpal & Hpx).
  assert (out = im) as -> by congruence.
  split; [done|]. split.
  - intros x y Hx Hy. apply Hpx. by apply simplify_loops_covers.
  - intros q [[x y] (Hx & Hy & Hq)]%Hpal. by exists x, y.
Qed.

(** X1: when a discovery run hands over an image, the image has the size
    of the original, every pixel holds an entry of the discovered palette
    that is not farther than the allowed distance from the original colour
    of the pixel, and every entry of the palette is the colour of some
    pixel of the original. *)
Theorem discovery_result_on_palette cfg g orig img out :
  get_pallette cfg = "Simplify Pallette" ->
  original_image cfg = Some orig ->
  heap g !! orig = Some img ->
  result_image (analyze_image_worker cfg g) = Some out ->
  let pal := saved_colors (analyze_image_worker cfg g).2 in
  size out = size img
  /\ (forall x y, x < (size img).1 -> y < (size img).2 ->
        px out (x, y) ∈ pal
        /\ int_gt_float (color_distance_sq (px out (x, y)) (px img (x, y)))
             (allowed_sq (similarity_threshold cfg)) = false)
  /\ (forall q, q ∈ pal ->
        exists x y, x < (size img).1 /\ y < (size img).2 /\ px img (x, y) = q).
Proof. apply discovery_result. Qed.

(** ** Discovery mode at threshold 100 *)

Lemma allowed_sq_100 : allowed_sq 100 = S754_zero false.
Proof. vm_compute. reflexivity. Qed.

(** At threshold 100 every two different colours are too far apart. *)
Lemma always_too_far (a b : Color) :
  a <> b -> int_gt_float (color_distance_sq a b) (allowed_sq 100) = true.
Proof.
  intros Hne. rewrite allowed_sq_100. simpl. apply Z.ltb_lt.
  pose proof (color_distance_sq_nonneg a b).
  destruct (decide (color_distance_sq a b = 0%Z)) as [H0%color_distance_sq_zero|];
    [done | lia].
Qed.

Lemma untouched_log_check img l b s :
  untouched img l s -> untouched img l (log (EvCheck b) s).
Proof.
  intros (Him & Hcache & Hpx). do 2 (split; [done|]). intros p.
  rewrite (visited_log_check p b s). apply Hpx.
Qed.

Lemma untouched_pixel img l total xy s :
  untouched img l s ->
  untouched img l (count_pixel total xy (simplify_pixel (allowed_sq 100) l xy s)).
Proof.
  intros (Him & Hcache & Hpx). unfold untouched.
  rewrite count_pixel_heap, count_pixel_saved_colors, count_pixel_nearest_cache.
  assert (forall p,
            EvPixel p ∈ trace (count_pixel total xy
                                 (simplify_pixel (allowed_sq 100) l xy s))
            <-> EvPixel p ∈ trace s \/ p = xy) as Hvis.
  { intros p. by rewrite visited_count_pixel, simplify_pixel_trace. }
  revert Hvis.
  generalize (trace (count_pixel total xy
                       (simplify_pixel (allowed_sq 100) l xy s))).
  intros tr' Hvis.
  unfold simplify_pixel, load_px. rewrite (lookup_total_correct _ _ _ Him).
  destruct (decide (px img xy ∈ saved_colors s)) as [Hin | Hin].
  { do 2 (split; [done|]). intros p [Hp | ->]%Hvis; [by apply Hpx | done]. }
  destruct (saved_colors s) as [|first rest] eqn:Hsaved.
  { simpl. split; [done|]. split.
    - intros c n Hn. by apply Hcache, elem_of_nil in Hn.
    - intros p [Hp | ->]%Hvis; [by apply Hpx, elem_of_nil in Hp|].
      by apply list_elem_of_singleton. }
  destruct (cached_nearest _ _ _ s) as [n s1] eqn:Hn.
  apply cached_nearest_state in Hn as (K & -> & _ & Hn).
  assert (n ∈ first :: rest
          /\ forall c' n', K !! c' = Some n' -> n' ∈ first :: rest) as [Hnin HK].
  { destruct Hn as [[Hn ->] | (_ & -> & ->)].
    - split; [by eapply Hcache | done].
    - split; [apply find_nearest_elem|].
      intros c' n'. rewrite lookup_insert.
      case_decide; [intros [= <-]; apply find_nearest_elem | apply Hcache]. }
  rewrite always_too_far by (intros ->; done). simpl. rewrite Hsaved.
  split; [done|]. split.
  - intros c' n'. rewrite lookup_delete.
    case_decide; [done|]. intros Hk%HK. apply elem_of_app. by left.
  - intros p [Hp | ->]%Hvis; apply elem_of_app;
      [left; by apply Hpx | right; by apply list_elem_of_singleton].
Qed.

Lemma simplify_loops_untouched cfg img l width height s :
  similarity_threshold cfg = 100%Z ->
  untouched img l (set_processed 0 s) ->
  untouched img l (simplify_loops cfg l width height s).
Proof.
  intros Hthr.
  apply (simplify_loops_ind (untouched img l)).
  - intros body s1 Hb Hs1.
    apply guard_preserve;
      [intros s2 b; apply untouched_log_check | done | done | done].
  - intros xy s1 _ _ Hs1. rewrite Hthr.
    apply guard_preserve;
      [intros s2 b; apply untouched_log_check | done | | done].
    intros s2 Hs2. by apply untouched_pixel.
Qed.

Lemma run_loops_NoDup cfg l width height s :
  NoDup (saved_colors s) -> NoDup (saved_colors (run_loops cfg l width height s)).
Proof.
  apply (run_loops_preserve (fun s => NoDup (saved_colors s))); try done.
  - intros total xy s1 _ Hs. by rewrite count_pixel_saved_colors.
  - intros a xy s1 Hs. by apply simplify_pixel_NoDup.
  - intros pal xy s1 Hs. by rewrite map_pixel_saved_colors.
Qed.

(** X2: at similarity threshold 100 discovery mode never rewrites a pixel:
    whenever the run stops the working copy is the original image, and when
    the run completes the palette holds exactly the colours of the image,
    each of them once. *)
Theorem threshold_100_keeps_image cfg g orig img :
  get_pallette cfg = "Simplify Pallette" ->
  similarity_threshold cfg = 100%Z ->
  original_image cfg = Some orig ->
  heap g !! orig = Some img ->
  let r := analyze_image_worker cfg g in
  heap r.2 !! fresh (dom (heap g)) = Some img
  /\ (is_Some (result_image r) ->
      result_image r = Some img
      /\ NoDup (saved_colors r.2)
      /\ forall q, q ∈ saved_colors r.2 <->
           exists x y, x < (size img).1 /\ y < (size img).2 /\ px img (x, y) = q).
Proof.
  intros Hmode Hthr Ho Himg r. subst r.
  rewrite (worker_unfold _ _ _ _ Ho Himg)
    by (rewrite Hthr; by apply float_of_int_percent).
  set (l := fresh (dom (heap g))).
  set (s' := run_loops cfg l (size img).1 (size img).2 (start_run l img g)).
  assert (untouched img l s') as (Him & _ & Hpx).
  { unfold s'. rewrite run_loops_discover by done.
    apply simplify_loops_untouched; [done|].
    split; [apply lookup_insert_eq|]. split; [done|].
    by intros p [=]%list_elem_of_singleton. }
  rewrite conclude_heap, conclude_saved_colors. split; [done|].
  intros [out [Hrun Hout]%conclude_result_image].
  rewrite conclude_completed by done. unfold result_image. simpl.
  split; [done|]. split; [by apply run_loops_NoDup; apply NoDup_nil_2|].
  intros q. split.
  - unfold s'. rewrite run_loops_discover by done.
    pose proof (simplify_loops_discovered cfg img l _
                  (start_run_discovered _ l img g))
      as (im & _ & _ & _ & Hpal & _).
    intros [[x y] (Hx & Hy & Hq)]%Hpal. by exists x, y.
  - intros (x & y & Hx & Hy & <-). apply Hpx.
    unfold s' in *. rewrite run_loops_discover in * by done.
    by apply simplify_loops_covers.
Qed.

(** ** When the worker fails *)

(** X3: a run on a loaded image fails exactly when the similarity threshold
    is beyond the range of the floats, in either mode, and then right after
    the resets, before any pixel is looked at; in particular the division in
    the progress report never divides by zero. A run that does not fail and
    is not asked to cancel completes. Without an image the run fails and
    changes nothing. *)
Theorem worker_outcome cfg g :
  let r := analyze_image_worker cfg g in
  match original_image cfg ≫= (heap g !!.) with
  | Some img =>
      (r.1 = FAILED <-> float_of_int (similarity_threshold cfg) = None)
      /\ (r.1 = FAILED ->
          r.2 = set_raised true (start_run (fresh (dom (heap g))) img g))
      /\ (cancel_req cfg = None -> r.1 <> FAILED ->
          r.1 = COMPLETED (fresh (dom (heap g))))
  | None => r = (FAILED, g)
  end.
Proof.
  unfold analyze_image_worker, run_checked.
  destruct (original_image cfg) as [orig|]; simpl; [|done].
  destruct (heap g !! orig) as [img|]; [|done].
  destruct (float_of_int (similarity_threshold cfg)) as [f|] eqn:Hthr.
  - set (s' := run_loops cfg _ _ _ _).
    assert ((conclude (fresh (dom (heap g))) s').1 <> FAILED) as Hnf
      by (by apply conclude_not_failed, run_loops_raised).
    split; [by split|]. split; [done|].
    intros Hreq _.
    by rewrite conclude_completed by (by apply run_loops_completes).
  - by repeat split.
Qed.

(** ** The published percentage *)

Lemma clamp_percent_range (value : spec_float) :
  percentage (clamp_percent value).
Proof.
  unfold percentage, clamp_percent. cbv zeta.
  assert (SFltb (float_of_Z 0) (float_of_Z 100) = true) as Hzh
    by (vm_compute; reflexivity).
  assert (SFleb (float_of_Z 0) (float_of_Z 100) = true) as Hzh'
    by (vm_compute; reflexivity).
  assert (SFleb (float_of_Z 0) (float_of_Z 0) = true) as Hzz
    by (vm_compute; reflexivity).
  assert (SFleb (float_of_Z 100) (float_of_Z 100) = true) as Hhh
    by (vm_compute; reflexivity).
  revert Hzh Hzh' Hzz Hhh.
  generalize (float_of_Z 100) (float_of_Z 0). intros h z Hzh Hzh' Hzz Hhh.
  destruct (SFltb value h) eqn:Hv.
  - destruct (SFltb z value) eqn:H0; [|by split].
    unfold SFltb, SFleb in *.
    destruct (SFcompare z value) as [[]|]; try done.
    by destruct (SFcompare value h) as [[]|].
  - rewrite Hzh. by split.
Qed.

(** X4: whatever float [set_progress] is given, NaN and the infinities
    included, the value it stores lies between 0.0 and 100.0. *)
Theorem set_progress_range (value : spec_float) (s : wstate) :
  SFleb (float_of_Z 0) (progress (set_progress value s)) = true
  /\ SFleb (progress (set_progress value s)) (float_of_Z 100) = true.
Proof.
  change (progress (set_progress value s)) with (clamp_percent value).
  apply clamp_percent_range.
Qed.

(** ** The threshold and the allowed distance *)

(** An integer is above a float that is zero or positive and finite when it
    is above the integer part of the float. *)
Lemma int_gt_float_floor (d : Z) (f : spec_float) :
  nonneg_finite f = true -> int_gt_float d f = (float_floor f <? d)%Z.
Proof.
  destruct f as [s | s | | [] m e]; simpl; try done. intros _.
  destruct (0 <=? e)%Z eqn:He; [done|].
  apply Z.leb_gt in He.
  assert (0 < 2 ^ (- e))%Z as Hpow by (apply Z.pow_pos_nonneg; lia).
  destruct (Z.ltb_spec (Z.pos m) (d * 2 ^ (- e))) as [Hlt | Hge];
    symmetry; [apply Z.ltb_lt | apply Z.ltb_ge].
  - apply Z.div_lt_upper_bound; lia.
  - apply Z.div_le_lower_bound; lia.
Qed.

Lemma allowed_sq_decreasing_true : allowed_sq_decreasing = true.
Proof. vm_compute. reflexivity. Qed.

Lemma allowed_sq_step (t : Z) :
  (0 <= t < 100)%Z ->
  nonneg_finite (allowed_sq t) = true
  /\ nonneg_finite (allowed_sq (t + 1)) = true
  /\ (float_floor (allowed_sq (t + 1)) <= float_floor (allowed_sq t))%Z.
Proof.
  intros Ht. pose proof allowed_sq_decreasing_true as H.
  unfold allowed_sq_decreasing in H. rewrite forallb_forall in H.
  specialize (H t). rewrite !andb_true_iff, Z.leb_le in H.
  destruct H as [[? ?] ?]; [|done].
  apply list_elem_of_In, elem_of_seqZ. lia.
Qed.

Lemma allowed_sq_nonneg_finite (t : Z) :
  (0 <= t <= 100)%Z -> nonneg_finite (allowed_sq t) = true.
Proof.
  intros Ht. destruct (decide (t = 100%Z)) as [-> | Hne].
  - apply (allowed_sq_step 99%Z). lia.
  - apply allowed_sq_step. lia.
Qed.

Lemma float_floor_allowed_sq_mono (t1 t2 : Z) :
  (0 <= t1 <= t2)%Z -> (t2 <= 100)%Z ->
  (float_floor (allowed_sq t2) <= float_floor (allowed_sq t1))%Z.
Proof.
  intros [H0 Hle] H100. revert H100.
  pattern t2. apply (Zlt_lower_bound_ind _ t1); [|done].
  intros t IH Ht H100.
  destruct (decide (t = t1)) as [-> | Hne]; [lia|].
  etrans; [|apply (IH (t - 1)%Z); lia].
  replace t with (t - 1 + 1)%Z at 1 by lia. apply allowed_sq_step. lia.
Qed.

(** X5: for thresholds between 0 and 100 the allowed distance does not
    grow with the threshold: a distance that is too far at a threshold is
    too far at every higher threshold. *)
Theorem allowed_sq_monotone (t1 t2 d : Z) :
  (0 <= t1 <= t2)%Z -> (t2 <= 100)%Z ->
  int_gt_float d (allowed_sq t1) = true ->
  int_gt_float d (allowed_sq t2) = true.
Proof.
  intros Ht H100.
  rewrite !int_gt_float_floor by (apply allowed_sq_nonneg_finite; lia).
  intros Hd%Z.ltb_lt. apply Z.ltb_lt.
  pose proof (float_floor_allowed_sq_mono t1 t2 Ht H100). lia.
Qed.

(** * Palette files and the palette editor *)

(** ** Reading hexadecimal digits *)

Lemma hex_value_Some (ch d : N) :
  hex_value ch = Some d ->
  (48 <= ch <= 57 /\ d = ch - 48)%N
  \/ (97 <= ch <= 102 /\ d = ch - 87)%N
  \/ (65 <= ch <= 70 /\ d = ch - 55)%N.
Proof.
  unfold hex_value, between.
  change (ord "0") with 48%N. change (ord "9") with 57%N.
  change (ord "a") with 97%N. change (ord "f") with 102%N.
  change (ord "A") with 65%N. change (ord "F") with 70%N.
  repeat match goal with
         | |- context [(?a <=? ?b)%N] => destruct (N.leb_spec a b)
         end; simpl; intros [= <-]; lia.
Qed.

Lemma hex_value_lt (ch d : N) : hex_value ch = Some d -> (d < 16)%N.
Proof. intros H%hex_value_Some. lia. Qed.

(** A hexadecimal digit is no white space, sign, underscore, [x] or [#],
    and [int] leaves it as it is. *)
Lemma hex_value_plain (U : unicode) (ch d : N) :
  hex_value ch = Some d ->
  to_ascii U ch = ch /\ c_isspace ch = false
  /\ (ch =? ord "+")%N = false /\ (ch =? ord "-")%N = false
  /\ (ch =? ord "_")%N = false /\ (ch =? ord "x")%N = false
  /\ (ch =? ord "X")%N = false /\ (ord "#" =? ch)%N = false.
Proof.
  intros H%hex_value_Some. unfold to_ascii, c_isspace, between.
  change (ord "+") with 43%N. change (ord "-") with 45%N.
  change (ord "_") with 95%N. change (ord "x") with 120%N.
  change (ord "X") with 88%N. change (ord "#") with 35%N.
  change (ord " ") with 32%N.
  assert ((ch <? 127)%N = true) as -> by (apply N.ltb_lt; lia).
  repeat split; try (apply N.eqb_neq; lia).
  apply orb_false_iff. split; [|apply N.eqb_neq; lia].
  apply andb_false_iff.
  destruct (N.leb_spec 9 ch), (N.leb_spec ch 13); auto; lia.
Qed.

Lemma scan_digits_hex (chs : str) (ds : list N) (acc : N) :
  hex_digits chs ds ->
  scan_digits false acc chs
  = Some (fold_left (fun acc d => 16 * acc + d)%N ds acc, []).
Proof.
  intros H. revert acc. induction H as [|ch d chs ds Hd _ IH]; intros acc.
  - done.
  - cbn [scan_digits]. destruct (hex_value_plain (Unicode (fun _ => false)
      (fun _ => false) (fun _ => None)) ch d Hd) as (_ & _ & _ & _ & -> & _).
    rewrite Hd. apply IH.
Qed.

Lemma lstrip_keep (p : N -> bool) (ch : N) (s : str) :
  p ch = false -> lstrip p (ch :: s) = ch :: s.
Proof. simpl. by intros ->. Qed.

(** [int(s, 16)] of a row of hexadecimal digits is their value. *)
Lemma int16_hex_digits (U : unicode) (chs : str) (ds : list N) :
  chs <> [] -> hex_digits chs ds ->
  int16 U chs = Some (Z.of_N (digits_value ds)).
Proof.
  intros Hne H. unfold int16.
  assert (to_ascii U <$> chs = chs) as ->.
  { clear Hne. induction H as [|ch d chs ds Hd _ IH]; [done|].
    rewrite fmap_cons, IH. f_equal. by eapply hex_value_plain. }
  destruct H as [|ch d chs ds Hd H]; [done|].
  destruct (hex_value_plain U ch d Hd)
    as (_ & Hsp & Hplus & Hminus & Hus & _).
  rewrite lstrip_keep by done. rewrite Hplus, Hminus.
  assert (match ch :: chs with
          | zero :: x :: s' =>
              if (zero =? ord "0")%N && ((x =? ord "x")%N || (x =? ord "X")%N)
              then match s' with
                   | ch :: s'' => if (ch =? ord "_")%N then s'' else s'
                   | [] => s'
                   end
              else ch :: chs
          | _ => ch :: chs
          end = ch :: chs) as ->.
  { destruct H as [|x dx chs ds Hx H]; [done|].
    destruct (hex_value_plain U x dx Hx) as (_ & _ & _ & _ & _ & -> & -> & _).
    by rewrite andb_false_r. }
  rewrite Hus. cbn [mbind option_bind].
  rewrite (scan_digits_hex (ch :: chs) (d :: ds)) by by constructor.
  cbn [mbind option_bind length lstrip]. by case_decide.
Qed.

(** ** Colours and their names *)

Lemma land_255 (v : Z) : Z.land v 255 = (v mod 256)%Z.
Proof. change 255%Z with (Z.ones 8). by rewrite Z.land_ones. Qed.

Lemma rgb_of_int_valid (v : Z) : valid_color (rgb_of_int v).
Proof.
  unfold rgb_of_int, valid_color. rewrite !land_255.
  pose proof (Z.mod_pos_bound (Z.shiftr v 16) 256).
  pose proof (Z.mod_pos_bound (Z.shiftr v 8) 256).
  pose proof (Z.mod_pos_bound v 256). lia.
Qed.

(** The three bytes of a number below [256 ^ 3]. *)
Lemma rgb_of_int_bytes (r g b : Z) :
  (0 <= r <= 255)%Z -> (0 <= g <= 255)%Z -> (0 <= b <= 255)%Z ->
  rgb_of_int (65536 * r + 256 * g + b) = (r, g, b).
Proof.
  intros Hr Hg Hb. unfold rgb_of_int.
  rewrite !land_255, !Z.shiftr_div_pow2 by lia.
  change (2 ^ 16)%Z with 65536%Z. change (2 ^ 8)%Z with 256%Z.
  repeat f_equal; Z.div_mod_to_equations; lia.
Qed.

Lemma rgb_from_hex_valid (U : unicode) (h : str) (c : Color) :
  _rgb_from_hex U h = Some c -> valid_color c.
Proof.
  unfold _rgb_from_hex. destruct (int16 U _) as [v|]; [|done].
  intros [= <-]. apply rgb_of_int_valid.
Qed.

Lemma lstrip_hashes (k : nat) (ch : N) (s : str) :
  (ord "#" =? ch)%N = false ->
  lstrip (N.eqb (ord "#")) (replicate k (ord "#") ++ ch :: s) = ch :: s.
Proof.
  intros Hch. induction k as [|k IH].
  - by apply lstrip_keep.
  - cbn [replicate app lstrip]. by rewrite N.eqb_refl.
Qed.

(** Six hexadecimal digits after any number of [#] are read as three
    bytes. *)
Lemma rgb_from_hex_six (U : unicode) (k : nat) (c1 c2 c3 c4 c5 c6 : N)
    (d1 d2 d3 d4 d5 d6 : N) :
  hex_digits [c1; c2; c3; c4; c5; c6] [d1; d2; d3; d4; d5; d6] ->
  _rgb_from_hex U (replicate k (ord "#") ++ [c1; c2; c3; c4; c5; c6])
  = Some (Z.of_N (16 * d1 + d2), Z.of_N (16 * d3 + d4),
          Z.of_N (16 * d5 + d6))%N.
Proof.
  intros H. unfold _rgb_from_hex.
  assert (hex_value c1 = Some d1) as H1 by by inversion H.
  rewrite lstrip_hashes by by eapply (hex_value_plain U).
  rewrite decide_False by done.
  rewrite (int16_hex_digits U [c1; c2; c3; c4; c5; c6] _ ltac:(done) H).
  cbn [mbind option_bind].
  assert (forall c d, hex_value c = Some d -> (d < 16)%N) as Hlt
    by apply hex_value_lt.
  repeat match goal with
         | H : hex_digits _ _ |- _ => inversion H; subst; clear H
         | H : Forall2 _ _ _ |- _ => inversion H; subst; clear H
         end.
  repeat match goal with
         | H : hex_value _ = Some _ |- _ => apply Hlt in H
         end.
  f_equal. unfold digits_value. cbn [fold_left].
  rewrite <- (rgb_of_int_bytes (Z.of_N (16 * d1 + d2)) (Z.of_N (16 * d3 + d4))
                (Z.of_N (16 * d5 + d6))) by lia.
  f_equal. lia.
Qed.

Lemma format_02x_bytes_true : format_02x_bytes = true.
Proof. vm_compute. reflexivity. Qed.

(** ['{:02x}'] writes a byte as its two hexadecimal digits. *)
Lemma format_02x_byte (n : Z) :
  (0 <= n <= 255)%Z ->
  exists hi lo, format_02x n = [hi; lo]
    /\ hex_value hi = Some (Z.to_N (n / 16))
    /\ hex_value lo = Some (Z.to_N (n mod 16)).
Proof.
  intros Hn. pose proof format_02x_bytes_true as H.
  unfold format_02x_bytes in H. rewrite forallb_forall in H.
  specialize (H n). destruct (format_02x n) as [|hi [|lo [|]]];
    try (discriminate H; apply list_elem_of_In, elem_of_seqZ; lia).
  exists hi, lo. split; [done|]. eapply bool_decide_eq_true_1, H.
  apply list_elem_of_In, elem_of_seqZ. lia.
Qed.

Lemma rgb_from_hex_hex_from_rgb (U : unicode) (c : Color) :
  valid_color c -> _rgb_from_hex U (_hex_from_rgb c) = Some c.
Proof.
  destruct c as [[r g] b]. intros (Hr & Hg & Hb). unfold _hex_from_rgb.
  destruct (format_02x_byte r Hr) as (c1 & c2 & -> & H1 & H2).
  destruct (format_02x_byte g Hg) as (c3 & c4 & -> & H3 & H4).
  destruct (format_02x_byte b Hb) as (c5 & c6 & -> & H5 & H6).
  change (ord "#" :: [c1; c2] ++ [c3; c4] ++ [c5; c6])
    with (replicate 1 (ord "#") ++ [c1; c2; c3; c4; c5; c6]).
  rewrite (rgb_from_hex_six U 1 c1 c2 c3 c4 c5 c6 _ _ _ _ _ _)
    by (repeat constructor; done).
  f_equal. repeat f_equal; Z.div_mod_to_equations; lia.
Qed.

(** X7: the name [_hex_from_rgb] gives a colour with channels in 0..255 is
    [#] and six hexadecimal digits, and [_rgb_from_hex] reads it back as
    that colour. *)
Theorem hex_round_trip (U : unicode) (c : Color) :
  valid_color c ->
  length (_hex_from_rgb c) = 7
  /\ _rgb_from_hex U (_hex_from_rgb c) = Some c.
Proof.
  intros Hc. split; [|by apply rgb_from_hex_hex_from_rgb].
  destruct c as [[r g] b]. destruct Hc as (Hr & Hg & Hb).
  unfold _hex_from_rgb.
  destruct (format_02x_byte r Hr) as (c1 & c2 & -> & _).
  destruct (format_02x_byte g Hg) as (c3 & c4 & -> & _).
  by destruct (format_02x_byte b Hb) as (c5 & c6 & -> & _).
Qed.

(** X8: three hexadecimal digits, small or capital, after any number of
    [#] are read with every digit doubled: the digit [d] gives the channel
    [17 * d]. *)
Theorem rgb_from_hex_shorthand (U : unicode) (k : nat) (c1 c2 c3 d1 d2 d3 : N) :
  hex_digits [c1; c2; c3] [d1; d2; d3] ->
  _rgb_from_hex U (replicate k (ord "#") ++ [c1; c2; c3])
  = Some (Z.of_N (17 * d1), Z.of_N (17 * d2), Z.of_N (17 * d3))%N.
Proof.
  intros H.
  assert (hex_digits [c1; c1; c2; c2; c3; c3] [d1; d1; d2; d2; d3; d3]) as H6.
  { inversion H as [|? ? ? ? H1 H']; subst.
    inversion H' as [|? ? ? ? H2 H'']; subst.
    inversion H'' as [|? ? ? ? H3 _]; subst. repeat constructor; done. }
  pose proof (rgb_from_hex_six U 0 _ _ _ _ _ _ _ _ _ _ _ _ H6) as Hsix.
  unfold _rgb_from_hex in *.
  assert (hex_value c1 = Some d1) as H1 by by inversion H.
  rewrite lstrip_hashes by by eapply (hex_value_plain U).
  rewrite decide_True by done.
  cbn [replicate app] in Hsix. rewrite lstrip_keep in Hsix
    by by eapply (hex_value_plain U).
  rewrite decide_False in Hsix by done.
  change (double_chars [c1; c2; c3]) with [c1; c1; c2; c2; c3; c3].
  rewrite Hsix. repeat f_equal; lia.
Qed.

(** ** Stripping *)

Lemma lstrip_suffix (p : N -> bool) (s : str) : lstrip p s `suffix_of` s.
Proof.
  induction s as [|ch s IH]; [done|]. simpl. destruct (p ch); [|done].
  by apply suffix_cons_r.
Qed.

Lemma lstrip_head (p : N -> bool) (s : str) (ch : N) :
  head (lstrip p s) = Some ch -> p ch = false.
Proof.
  induction s as [|c s IH]; [done|]. simpl. destruct (p c) eqn:Hc; [done|].
  by intros [= <-].
Qed.

Lemma lstrip_id (p : N -> bool) (s : str) :
  (forall ch, head s = Some ch -> p ch = false) -> lstrip p s = s.
Proof. destruct s as [|ch s]; [done|]. intros H. apply lstrip_keep. by apply H. Qed.

Lemma lstrip_snoc_keep (p : N -> bool) (s : str) (ch : N) :
  p ch = false -> lstrip p (s ++ [ch]) = lstrip p s ++ [ch].
Proof.
  intros Hch. induction s as [|c s IH]; simpl; [by rewrite Hch|].
  by destruct (p c).
Qed.

Lemma rstrip_prefix (p : N -> bool) (s : str) : rstrip p s `prefix_of` s.
Proof.
  unfold rstrip. destruct (lstrip_suffix p (reverse s)) as [k Hk].
  exists (reverse k). apply (inj reverse).
  by rewrite reverse_app, !reverse_involutive.
Qed.

Lemma rstrip_last (p : N -> bool) (s : str) (ch : N) :
  last (rstrip p s) = Some ch -> p ch = false.
Proof. unfold rstrip. rewrite last_reverse. apply lstrip_head. Qed.

Lemma rstrip_id (p : N -> bool) (s : str) :
  (forall ch, last s = Some ch -> p ch = false) -> rstrip p s = s.
Proof.
  intros H. unfold rstrip. rewrite lstrip_id, reverse_involutive; [done|].
  intros ch. rewrite head_reverse. apply H.
Qed.

Lemma rstrip_cons_keep (p : N -> bool) (ch : N) (s : str) :
  p ch = false -> rstrip p (ch :: s) = ch :: rstrip p s.
Proof.
  intros Hch. unfold rstrip.
  by rewrite reverse_cons, lstrip_snoc_keep, reverse_app by done.
Qed.

Lemma strip_head (p : N -> bool) (s : str) (ch : N) :
  head (strip p s) = Some ch -> p ch = false.
Proof.
  unfold strip. destruct (lstrip p s) as [|c s'] eqn:Hs.
  - done.
  - assert (p c = false) as Hc by (apply (lstrip_head p s); by rewrite Hs).
    rewrite rstrip_cons_keep by done. by intros [= <-].
Qed.

Lemma strip_last (p : N -> bool) (s : str) (ch : N) :
  last (strip p s) = Some ch -> p ch = false.
Proof. apply rstrip_last. Qed.

Lemma strip_Forall (P : N -> Prop) (p : N -> bool) (s : str) :
  Forall P s -> Forall P (strip p s).
Proof.
  intros H. unfold strip.
  destruct (lstrip_suffix p s) as [k Hk]. rewrite Hk in H.
  apply Forall_app in H as [_ H].
  destruct (rstrip_prefix p (lstrip p s)) as [k' Hk']. rewrite Hk' in H.
  by apply Forall_app in H as [H _].
Qed.

Lemma strip_id (p : N -> bool) (s : str) :
  (forall ch, head s = Some ch -> p ch = false) ->
  (forall ch, last s = Some ch -> p ch = false) -> strip p s = s.
Proof. intros Hh Hl. unfold strip. rewrite lstrip_id by done. by apply rstrip_id. Qed.

(** ** File names *)

Lemma slug_char_fixed (U : unicode) (ch : N) :
  slug_char U ch = true ->
  (if isalnum U ch || (ch =? ord "-")%N || (ch =? ord "_")%N then ch
   else ord "_") = ch.
Proof. unfold slug_char. by intros ->. Qed.

Lemma slug_char_replaced (U : unicode) (ch : N) :
  slug_char U (if isalnum U ch || (ch =? ord "-")%N || (ch =? ord "_")%N
               then ch else ord "_") = true.
Proof.
  destruct (isalnum U ch || (ch =? ord "-")%N || (ch =? ord "_")%N) eqn:H.
  - done.
  - unfold slug_char. by rewrite N.eqb_refl, orb_true_r.
Qed.

Lemma slug_char_palette (U : unicode) :
  Forall (fun ch => slug_char U ch = true) (str_of "palette").
Proof. repeat constructor. Qed.

(** No character that [_slugify] keeps separates the parts of a path or
    of a file name. *)
Lemma slug_char_no_separator (U : unicode) (ch : N) :
  slug_char U ch = true ->
  ch <> ord "/" /\ ch <> backslash /\ ch <> ord "." /\ ch <> ord ":"
  /\ ch <> 0%N.
Proof.
  intros H. repeat split; intros ->; vm_compute in H; discriminate.
Qed.

Lemma slugify_chars (U : unicode) (name : str) :
  Forall (fun ch => slug_char U ch = true) (_slugify U name).
Proof.
  unfold _slugify.
  match goal with |- context [strip ?p ?s] => set (v := s); set (s' := strip p v) end.
  assert (Forall (fun ch => slug_char U ch = true) s') as Hs.
  { apply strip_Forall, Forall_fmap, Forall_forall.
    intros ch _. apply slug_char_replaced. }
  destruct s'; [apply slug_char_palette | done].
Qed.

(** X9: whatever the name, [_slugify] gives a text that is not empty, is
    made of letters, digits, [-] and [_] only, so that it holds no path
    separator, dot, colon or NUL, and neither starts nor ends with [_]. *)
Theorem slugify_file_stem (U : unicode) (name : str) :
  _slugify U name <> []
  /\ (forall ch, ch ∈ _slugify U name ->
        (isalnum U ch = true \/ ch = ord "-" \/ ch = ord "_")
        /\ ch <> ord "/" /\ ch <> backslash /\ ch <> ord "." /\ ch <> ord ":"
        /\ ch <> 0%N)
  /\ head (_slugify U name) <> Some (ord "_")
  /\ last (_slugify U name) <> Some (ord "_").
Proof.
  split; [|split; [|split]].
  - unfold _slugify. by destruct (strip _ _).
  - intros ch Hch.
    pose proof (proj1 (Forall_forall _ _) (slugify_chars U name) ch Hch) as H.
    split; [|by apply (slug_char_no_separator U)].
    unfold slug_char in H. rewrite !orb_true_iff, !N.eqb_eq in H. tauto.
  - unfold _slugify. destruct (strip _ _) as [|c s] eqn:Hs; [done|].
    intros Hh. rewrite <- Hs in Hh. apply strip_head in Hh.
    by rewrite N.eqb_refl in Hh.
  - unfold _slugify. destruct (strip _ _) as [|c s] eqn:Hs; [done|].
    intros Hl. rewrite <- Hs in Hl. apply strip_last in Hl.
    by rewrite N.eqb_refl in Hl.
Qed.

(** X10: [_slugify] changes none of its own results. *)
Theorem slugify_idempotent (U : unicode) (name : str) :
  _slugify U (_slugify U name) = _slugify U name.
Proof.
  destruct (slugify_file_stem U name) as (Hne & _ & Hh & Hl).
  pose proof (slugify_chars U name) as Hch.
  set (s := _slugify U name) in *. unfold _slugify at 1.
  assert ((fun ch => if isalnum U ch || (ch =? ord "-")%N || (ch =? ord "_")%N
                     then ch else ord "_") <$> s = s) as ->.
  { clearbody s. clear Hne Hh Hl. induction Hch as [|ch s Hc _ IH]; [done|].
    rewrite fmap_cons, IH. f_equal. by apply slug_char_fixed. }
  rewrite strip_id.
  - by destruct s.
  - intros ch Hc. apply N.eqb_neq. intros <-. by apply Hh.
  - intros ch Hc. apply N.eqb_neq. intros <-. by apply Hl.
Qed.

(** ** Palette files *)

Lemma stripped_entry_valid (U : unicode) (text : str) (c : Color) :
  stripped_entry U text = Some c -> valid_color c.
Proof.
  unfold stripped_entry. destruct (strip _ _); [done|].
  apply rgb_from_hex_valid.
Qed.

(** X11: whatever a palette file holds, every colour that
    [_parse_palette_file] reads from it has its three channels in
    0..255. *)
Theorem parsed_colors_in_range (U : unicode) (file : palette_file)
    (cols : list Color) :
  _parse_palette_file U file = Some cols -> Forall valid_color cols.
Proof.
  intros H. apply Forall_forall. intros c Hc. revert H.
  destruct file as [data | lines | rows |]; simpl; [| | |done].
  - destruct (match data with
              | JDict d => first_list_value d data
              | _ => data
              end) as [| | | | |l|]; try done.
    intros [= <-]. apply list_elem_of_omap in Hc as (hx & _ & Hhx).
    destruct hx; try done. by eapply rgb_from_hex_valid.
  - intros [= <-]. apply list_elem_of_omap in Hc as (ln & _ & Hln).
    by eapply stripped_entry_valid.
  - intros [= <-]. apply list_elem_of_omap in Hc as (row & _ & Hrow).
    destruct row; [done|]. by eapply stripped_entry_valid.
Qed.

(** X12: a palette of colours with channels in 0..255 that [save_palettes]
    has written is read back by [_parse_palette_file] as it was, in the
    same order. *)
Theorem saved_file_round_trip (U : unicode) (cols : list Color) :
  Forall valid_color cols ->
  _parse_palette_file U (saved_file cols) = Some cols.
Proof.
  intros H. simpl. f_equal.
  induction H as [|c cols Hc _ IH]; [done|].
  rewrite fmap_cons. cbn [omap list_omap].
  rewrite rgb_from_hex_hex_from_rgb by done. by rewrite IH.
Qed.

(** ** The palette editor *)

Lemma elem_of_list_insert_inv (lst : list Color) (i : nat) (v c : Color) :
  c ∈ <[i := v]> lst -> c = v \/ c ∈ lst.
Proof.
  intros [k Hk]%list_elem_of_lookup_1.
  apply list_lookup_insert_Some in Hk as [(-> & -> & _) | [_ Hk]]; [by left|].
  right. by eapply list_elem_of_lookup_2.
Qed.

Lemma NoDup_list_insert (lst : list Color) (i : nat) (v : Color) :
  NoDup lst -> v ∉ lst -> NoDup (<[i := v]> lst).
Proof.
  intros Hnd. revert i. induction Hnd as [|x l Hx Hnd IH]; intros i Hv.
  - destruct i; constructor.
  - apply not_elem_of_cons in Hv as [Hvx Hv]. destruct i as [|i]; simpl.
    + by constructor.
    + constructor; [|by apply IH].
      intros [->|?]%elem_of_list_insert_inv; done.
Qed.

Lemma swap_items_Permutation (i j : nat) (lst : list Color) :
  swap_items i j lst ≡ₚ lst.
Proof.
  unfold swap_items.
  destruct (lst !! j) as [a|] eqn:Ha; [|done].
  destruct (lst !! i) as [b|] eqn:Hb; [|done].
  by apply Permutation_insert_swap.
Qed.

Lemma swap_items_length (i j : nat) (lst : list Color) :
  length (swap_items i j lst) = length lst.
Proof. apply Permutation_length, swap_items_Permutation. Qed.

Lemma swap_items_lookup (i j k : nat) (lst : list Color) :
  i < length lst -> j < length lst ->
  swap_items i j lst !! k
  = if decide (k = j) then lst !! i
    else if decide (k = i) then lst !! j else lst !! k.
Proof.
  intros Hi Hj. unfold swap_items.
  destruct (lookup_lt_is_Some_2 lst j Hj) as [a Ha].
  destruct (lookup_lt_is_Some_2 lst i Hi) as [b Hb].
  rewrite Ha, Hb. case_decide as Hkj.
  - subst k. by rewrite list_lookup_insert_eq by by rewrite length_insert.
  - rewrite list_lookup_insert_ne by done. case_decide as Hki.
    + subst k. by rewrite list_lookup_insert_eq.
    + by rewrite list_lookup_insert_ne.
Qed.

Lemma swap_items_swap_items (i j : nat) (lst : list Color) :
  i < length lst -> j < length lst ->
  swap_items j i (swap_items i j lst) = lst.
Proof.
  intros Hi Hj. apply list_eq. intros k.
  rewrite swap_items_lookup by by rewrite swap_items_length.
  rewrite !swap_items_lookup by done.
  repeat case_decide; congruence.
Qed.

Lemma well_formed_alter (f : list Color -> list Color) (name : string)
    (pallettes : gmap string (list Color)) :
  (forall lst, NoDup lst -> Forall valid_color lst ->
     NoDup (f lst) /\ Forall valid_color (f lst)) ->
  well_formed pallettes -> well_formed (alter f name pallettes).
Proof.
  intros Hf Hwf n lst. destruct (decide (n = name)) as [->|Hne].
  - rewrite lookup_alter_eq. destruct (pallettes !! name) as [l|] eqn:Hl; [|done].
    intros [= <-]. by apply Hf; apply (Hwf name l).
  - rewrite lookup_alter_ne by done. apply Hwf.
Qed.

Lemma well_formed_insert (lst : list Color) (name : string)
    (pallettes : gmap string (list Color)) :
  NoDup lst -> Forall valid_color lst ->
  well_formed pallettes -> well_formed (<[name := lst]> pallettes).
Proof.
  intros Hnd Hv Hwf n l. destruct (decide (n = name)) as [->|Hne].
  - rewrite lookup_insert_eq. by intros [= <-].
  - rewrite lookup_insert_ne by done. apply Hwf.
Qed.

(** X13: the dialog that adds or edits a colour keeps the palettes well
    formed, whatever text is entered: no colour comes to stand twice in a
    palette and every stored channel is in 0..255. Unless it reports
    [ADDED] it changes nothing. *)
Theorem add_from_dialog_well_formed (U : unicode) (name : string)
    (hex_var : str) (on_update_index : option nat)
    (pallettes : gmap string (list Color)) :
  well_formed pallettes ->
  well_formed (add_from_dialog U name hex_var on_update_index pallettes).2
  /\ ((add_from_dialog U name hex_var on_update_index pallettes).1 <> ADDED ->
      (add_from_dialog U name hex_var on_update_index pallettes).2 = pallettes).
Proof.
  intros Hwf. unfold add_from_dialog.
  destruct (pallettes !! name) as [lst|] eqn:Hlst; [|done].
  destruct (Hwf name lst Hlst) as [Hnd Hv].
  destruct (int16 U _) as [v|]; [|done].
  case_decide as Hin; [done|].
  destruct on_update_index as [i|].
  - case_decide as Hi; [|done]. split; [|done]. simpl.
    apply well_formed_insert; [by apply NoDup_list_insert | | done].
    apply Forall_insert; [done | apply rgb_of_int_valid].
  - split; [|done]. simpl. apply well_formed_insert; [| |done].
    + apply NoDup_app. split; [done|]. split; [|apply NoDup_singleton].
      by intros x Hx ->%list_elem_of_singleton.
    + apply Forall_app. split; [done|].
      constructor; [apply rgb_of_int_valid | constructor].
Qed.

(** X14: moving a row up or down changes no palette but in the order of
    its colours, and these moves and the removal of a row keep the palettes
    well formed. *)
Theorem rows_keep_well_formed (name : string) (idx : nat)
    (pallettes : gmap string (list Color)) :
  (forall n, default [] (move_up name idx pallettes !! n)
             ≡ₚ default [] (pallettes !! n))
  /\ (forall n, default [] (move_down name idx pallettes !! n)
                ≡ₚ default [] (pallettes !! n))
  /\ (well_formed pallettes ->
      well_formed (move_up name idx pallettes)
      /\ well_formed (move_down name idx pallettes)
      /\ well_formed (remove_color name idx pallettes)).
Proof.
  assert (forall i j n, default [] (alter (swap_items i j) name pallettes !! n)
                        ≡ₚ default [] (pallettes !! n)) as Hperm.
  { intros i j n. destruct (decide (n = name)) as [->|Hne].
    - rewrite lookup_alter_eq. destruct (pallettes !! name); [|done].
      apply swap_items_Permutation.
    - by rewrite lookup_alter_ne. }
  assert (forall i j, well_formed pallettes ->
            well_formed (alter (swap_items i j) name pallettes)) as Hswap.
  { intros i j. apply well_formed_alter. intros lst Hnd Hv.
    by rewrite (swap_items_Permutation i j lst). }
  unfold move_up, move_down, remove_color.
  split; [|split; [|intros Hwf; split; [|split]]].
  - intros n. by case_decide.
  - intros n. by case_decide.
  - case_decide; [done | by apply Hswap].
  - case_decide; [done | by apply Hswap].
  - apply well_formed_alter; [|done]. intros lst Hnd Hv. split.
    + by apply (sublist_NoDup _ lst), sublist_delete.
    + by apply Forall_delete.
Qed.

(** X15: moving a row up and then the same colour down again, or down and
    then up again, gives back the palettes as they were; after the move up
    the colour of row [idx] stands in row [idx - 1]. *)
Theorem move_up_move_down (name : string) (idx : nat)
    (pallettes : gmap string (list Color)) (lst : list Color) :
  pallettes !! name = Some lst ->
  0 < idx < length lst ->
  move_down name (idx - 1) (move_up name idx pallettes) = pallettes
  /\ move_up name idx (move_down name (idx - 1) pallettes) = pallettes
  /\ exists lst', move_up name idx pallettes !! name = Some lst'
       /\ lst' !! (idx - 1) = lst !! idx /\ lst' !! idx = lst !! (idx - 1).
Proof.
  intros Hlst Hidx. unfold move_up, move_down.
  rewrite (decide_False (P := idx <= 0)) by lia.
  rewrite lookup_alter_eq, Hlst. simpl.
  rewrite swap_items_length, !decide_False by lia.
  replace (idx - 1 + 1) with idx by lia.
  split; [|split].
  - apply map_eq. intros n. destruct (decide (n = name)) as [->|Hne].
    + rewrite !lookup_alter_eq, Hlst. simpl. f_equal.
      apply swap_items_swap_items; lia.
    + by rewrite !lookup_alter_ne.
  - apply map_eq. intros n. destruct (decide (n = name)) as [->|Hne].
    + rewrite !lookup_alter_eq, Hlst. simpl. f_equal.
      apply swap_items_swap_items; lia.
    + by rewrite !lookup_alter_ne.
  - eexists. split; [done|].
    rewrite !swap_items_lookup by lia.
    rewrite decide_False, !decide_True by lia. done.
Qed.

(** ** Names for new palettes *)

Lemma name_taken_spec pallettes options name :
  name_taken pallettes options name = true
  <-> name ∈ taken_names pallettes options.
Proof.
  unfold name_taken, taken_names.
  rewrite orb_true_iff, !bool_decide_eq_true, elem_of_union,
    elem_of_list_to_set. done.
Qed.

Lemma taken_names_size pallettes options :
  base.size (taken_names pallettes options)
  <= base.size pallettes + length options.
Proof.
  unfold taken_names. rewrite size_union_alt, size_dom.
  assert (base.size (list_to_set options ∖ dom pallettes : gset string)
          <= length options); [|lia].
  etrans; [apply subseteq_size, subseteq_difference_l; reflexivity|].
  clear. induction options as [|o options IH].
  - by rewrite list_to_set_nil, size_empty.
  - rewrite list_to_set_cons, size_union_alt, size_singleton. cbn [length].
    assert (base.size (list_to_set options ∖ {[o]} : gset string)
            <= base.size (list_to_set options : gset string)); [|lia].
    by apply subseteq_size, subseteq_difference_l.
Qed.

(** Of a candidate and the [n] suffixed names after it, all different,
    one is free when at most [n] names are taken. *)
Lemma free_candidate (T : gset string) (name candidate : string) (i n : nat) :
  base.size T <= n ->
  (forall k, i < k -> candidate <> name +:+ " " +:+ pretty k) ->
  candidate ∉ T
  \/ exists k, i < k <= i + n /\ (name +:+ " " +:+ pretty k) ∉ T.
Proof.
  intros Hsize Hfirst.
  set (cand := fun k : nat => name +:+ " " +:+ pretty k).
  set (cs := candidate :: (cand <$> seq (i + 1) n)).
  destruct (decide (Exists (fun c => c ∉ T) cs)) as [Hex | Hno].
  - apply Exists_exists in Hex as (c & Hc & Hfree).
    apply elem_of_cons in Hc as [-> | (k & -> & Hk)%list_elem_of_fmap];
      [by left|].
    apply elem_of_seq in Hk. right. exists k. split; [lia | done].
  - exfalso. apply not_Exists_Forall in Hno; [|apply _].
    assert (NoDup cs) as Hnd.
    { apply NoDup_cons. split.
      - intros (k & Hk & Hin%elem_of_seq)%list_elem_of_fmap.
        apply (Hfirst k); [lia | done].
      - apply NoDup_fmap_2; [|apply NoDup_seq].
        intros k1 k2 Hk. unfold cand in Hk.
        apply String.app_inj, String.app_inj in Hk.
        by apply pretty_nat_inj in Hk. }
    assert (list_to_set cs ⊆ T) as Hsub.
    { intros c Hc%elem_of_list_to_set.
      rewrite Forall_forall in Hno. specialize (Hno c Hc). simpl in Hno.
      by apply dec_stable. }
    apply subseteq_size in Hsub.
    rewrite size_list_to_set in Hsub by done.
    unfold cs in Hsub. simpl in Hsub.
    rewrite length_fmap, length_seq in Hsub. lia.
Qed.

Lemma next_free_finds (taken : string -> bool) (name : string)
    (fuel i : nat) (candidate : string) :
  taken candidate = false
  \/ (exists k, i < k <= i + fuel
        /\ taken (name +:+ " " +:+ pretty k) = false) ->
  exists free, next_free fuel taken name i candidate = Some free
    /\ taken free = false.
Proof.
  revert i candidate. induction fuel as [|fuel IH]; intros i candidate H.
  - destruct H as [H | (k & Hk & _)]; [|lia].
    exists candidate. simpl. by rewrite H.
  - simpl. destruct (taken candidate) eqn:Hc; [|by exists candidate].
    destruct H as [H | (k & Hk & Hfree)]; [done|].
    apply IH. destruct (decide (k = i + 1)) as [->|Hne]; [by left|].
    right. exists k. split; [lia | done].
Qed.

(** As many rounds as there are taken names are enough. *)
Lemma next_free_bounded (taken : string -> bool) (T : gset string)
    (name candidate : string) (fuel i : nat) :
  (forall c, taken c = true <-> c ∈ T) ->
  base.size T <= fuel ->
  (forall k, i < k -> candidate <> name +:+ " " +:+ pretty k) ->
  exists free, next_free fuel taken name i candidate = Some free /\ free ∉ T.
Proof.
  intros HT Hsize Hfirst.
  assert (forall c, c ∉ T -> taken c = false) as Hfree.
  { intros c Hc. apply not_true_is_false. by rewrite HT. }
  destruct (next_free_finds taken name fuel i candidate) as (free & Hrun & Hfr).
  { destruct (free_candidate T name candidate i fuel Hsize Hfirst)
      as [Hc | (k & Hk & Hc)]; [left | right; exists k]; auto. }
  exists free. split; [done|]. rewrite <- HT. by rewrite Hfr.
Qed.

Lemma suffix_1_first (name : string) (k : nat) :
  1 < k -> name +:+ " " +:+ pretty 1 <> name +:+ " " +:+ pretty k.
Proof.
  intros Hk Heq. apply String.app_inj, String.app_inj in Heq.
  apply pretty_nat_inj in Heq. lia.
Qed.

Lemma unsuffixed_first (name suffix : string) :
  name <> name +:+ " " +:+ suffix.
Proof.
  induction name as [|c name IH]; [done|].
  intros Heq.
  change (String c name +:+ " " +:+ suffix)
    with (String c (name +:+ " " +:+ suffix)) in Heq.
  injection Heq as Heq. by apply IH.
Qed.

(** X16: the searches for a free palette name end after at most as many
    rounds of their loop as there are names to avoid: palettes and menu
    options for the suggestion of [analyze_done] and for [import_palette],
    palettes for [load_palettes]. The name [analyze_done] suggests and the
    name [import_palette] takes are the name of no palette and of no menu
    option; the name [load_palettes] takes is the name of no palette. *)
Theorem free_name_found (fuel : nat) (pallettes : gmap string (list Color))
    (options : list string) (stem : string) :
  base.size pallettes + length options <= fuel ->
  (exists name, suggested_name fuel pallettes options stem = Some name
     /\ (name ∉ dom pallettes) /\ (name ∉ options))
  /\ (exists name, suffixed_name fuel pallettes options stem = Some name
        /\ (name ∉ dom pallettes) /\ (name ∉ options))
  /\ (forall rounds, base.size pallettes <= rounds ->
        exists name, loaded_name rounds pallettes stem = Some name
          /\ (name ∉ dom pallettes)).
Proof.
  intros Hfuel.
  pose proof (taken_names_size pallettes options) as Hsize.
  assert (forall name candidate i,
            (forall k, i < k -> candidate <> name +:+ " " +:+ pretty k) ->
            exists free,
              next_free fuel (name_taken pallettes options) name i candidate
              = Some free
              /\ (free ∉ dom pallettes) /\ (free ∉ options)) as Hboth.
  { intros name candidate i Hfirst.
    destruct (next_free_bounded (name_taken pallettes options)
                (taken_names pallettes options) name candidate fuel i)
      as (free & Hrun & Hfr); [apply name_taken_spec | lia | done |].
    exists free. split; [done|]. unfold taken_names in Hfr.
    rewrite elem_of_union, elem_of_list_to_set in Hfr. tauto. }
  split; [|split].
  - apply Hboth. intros k _. apply unsuffixed_first.
  - apply Hboth. intros k Hk. by apply suffix_1_first.
  - intros rounds Hrounds.
    apply (next_free_bounded _ (dom pallettes)).
    + intros c. apply bool_decide_eq_true.
    + by rewrite size_dom.
    + intros k Hk. by apply suffix_1_first.
Qed.

(** ** Saving the discovered palette *)

(** X6: when a discovery run has handed over an image and its palette was
    saved under a name by [_do_save], mapping that image onto the saved
    palette changes no pixel of it; the second run hands over an image when
    it is not canceled and its threshold converts to a float. *)
Theorem saved_palette_fits cfg g orig img out name overwrite options saved
    cfg2 g2 orig2 :
  get_pallette cfg = "Simplify Pallette" ->
  original_image cfg = Some orig ->
  heap g !! orig = Some img ->
  result_image (analyze_image_worker cfg g) = Some out ->
  saved_colors (analyze_image_worker cfg g).2 <> [] ->
  _do_save name overwrite (analyze_image_worker cfg g).2 (pallettes cfg) options
  = Some saved ->
  name <> "Simplify Pallette" ->
  get_pallette cfg2 = name ->
  pallettes cfg2 = saved.1 ->
  original_image cfg2 = Some orig2 ->
  heap g2 !! orig2 = Some out ->
  (cancel_req cfg2 = None ->
   is_Some (float_of_int (similarity_threshold cfg2)) ->
   is_Some (result_image (analyze_image_worker cfg2 g2)))
  /\ forall out2, result_image (analyze_image_worker cfg2 g2) = Some out2 ->
       size out2 = size out
       /\ forall x y, x < (size out).1 -> y < (size out).2 ->
            px out2 (x, y) = px out (x, y).
Proof.
  intros Hmode Ho Himg Hout Hne Hsave Hname Hmode2 Hpals Ho2 Hout2.
  destruct (discovery_result cfg g orig img out Hmode Ho Himg Hout)
    as (Hsize & Hpx & _).
  destruct (saved_colors (analyze_image_worker cfg g).2) as [|first rest]
    eqn:Hpal; [done|].
  unfold _do_save in Hsave. case_decide; [done|].
  destruct (name_taken _ _ _ && negb overwrite); [done|].
  injection Hsave as <-. simpl in Hpals.
  destruct (fixed_palette_result cfg2 g2 orig2 out first rest) as [Hex Hres];
    try done.
  { congruence. }
  { by rewrite Hpals, Hmode2, lookup_insert_eq, Hpal. }
  split; [done|]. intros out2 Hr2.
  destruct (Hres out2 Hr2) as (_ & Hs2 & Hpx2). split; [done|].
  intros x y Hx Hy. rewrite Hpx2 by done.
  apply find_nearest_member, Hpx; by rewrite <- Hsize.
Qed.

(** ** Sorting a palette *)

Lemma SFcompare_antisym (a b : spec_float) :
  SFcompare b a = CompOpp <$> SFcompare a b.
Proof.
  destruct a as [sa | sa | | sa ma ea], b as [sb | sb | | sb mb eb];
    try done; try (by destruct sa); try (by destruct sb);
    try (by destruct sa, sb).
  simpl. rewrite (Z.compare_antisym eb ea).
  change (Pos.compare_cont Eq mb ma) with (mb ?= ma)%positive.
  change (Pos.compare_cont Eq ma mb) with (ma ?= mb)%positive.
  rewrite (Pos.compare_antisym mb ma).
  destruct sa, sb; try done; simpl;
    destruct (eb ?= ea)%Z; simpl; try done;
    by destruct (mb ?= ma)%positive.
Qed.

Lemma SFeqb_sym (a b : spec_float) : SFeqb a b = SFeqb b a.
Proof.
  unfold SFeqb. rewrite (SFcompare_antisym b a).
  by destruct (SFcompare b a) as [[]|].
Qed.

Lemma SFltb_asym (a b : spec_float) : SFltb a b = true -> SFltb b a = false.
Proof.
  unfold SFltb. rewrite (SFcompare_antisym a b).
  by destruct (SFcompare a b) as [[]|].
Qed.

Lemma color_lt_asym (c1 c2 : Color) :
  color_lt c1 c2 = true -> color_lt c2 c1 = false.
Proof.
  destruct c1 as [[r1 g1] b1], c2 as [[r2 g2] b2]. unfold color_lt.
  rewrite (Z.eqb_sym r2 r1), (Z.eqb_sym g2 g1).
  destruct (Z.eqb_spec r1 r2), (Z.eqb_spec g1 g2); lia.
Qed.

Lemma key_lt_asym (k1 k2 : spec_float * Color) :
  key_lt k1 k2 = true -> key_lt k2 k1 = false.
Proof.
  unfold key_lt. rewrite (SFeqb_sym k2.1 k1.1).
  destruct (SFeqb k1.1 k2.1); [apply color_lt_asym | apply SFltb_asym].
Qed.

Lemma insert_sorted_Permutation k l : insert_sorted k l ≡ₚ k :: l.
Proof.
  induction l as [|k' l IH]; simpl; [done|].
  destruct (key_lt k k'); [done|]. by rewrite IH, Permutation_swap.
Qed.

Lemma py_sorted_Permutation l : py_sorted l ≡ₚ l.
Proof.
  unfold py_sorted.
  assert (forall acc, fold_left (fun acc k => insert_sorted k acc) l acc
                      ≡ₚ acc ++ l) as H; [|apply H].
  induction l as [|k l IH]; intros acc; simpl.
  - by rewrite app_nil_r.
  - rewrite IH, insert_sorted_Permutation. apply Permutation_middle.
Qed.

Lemma insert_sorted_ordered k l : ordered l -> ordered (insert_sorted k l).
Proof.
  induction l as [|k1 l IH]; intros Hl.
  - done.
  - cbn [insert_sorted]. destruct (key_lt k k1) eqn:Hk.
    + split; [by apply key_lt_asym | done].
    + destruct Hl as [Hk1 Hl]. specialize (IH Hl). split; [|done].
      destruct l as [|k2 l]; [done|]. cbn [insert_sorted] in *.
      by destruct (key_lt k k2).
Qed.

Lemma py_sorted_ordered l : ordered (py_sorted l).
Proof.
  unfold py_sorted.
  assert (forall acc, ordered acc ->
            ordered (fold_left (fun acc k => insert_sorted k acc) l acc)) as H;
    [|by apply H].
  induction l as [|k l IH]; intros acc Hacc; [done|].
  by apply IH, insert_sorted_ordered.
Qed.

Lemma mapM_sort_key_snd cols keys :
  mapM sort_key cols = Some keys ->
  snd <$> keys = cols /\ Forall (fun k => sort_key k.2 = Some k) keys.
Proof.
  intros H%mapM_Some. induction H as [|c k cols keys Hk _ [IH1 IH2]].
  - done.
  - assert (k.2 = c) as Hc.
    { unfold sort_key in Hk. destruct (luminance c); [|done].
      by injection Hk as <-. }
    split; [by rewrite fmap_cons, IH1, Hc|]. constructor; [by rewrite Hc | done].
Qed.

Lemma mapM_sort_key_keys keys :
  Forall (fun k => sort_key k.2 = Some k) keys ->
  mapM sort_key (snd <$> keys) = Some keys.
Proof.
  intros H. apply mapM_Some. induction H as [|k keys Hk _ IH]; [constructor|].
  rewrite fmap_cons. by constructor.
Qed.

Lemma bytes_are_floats_true : bytes_are_floats = true.
Proof. vm_compute. reflexivity. Qed.

Lemma sort_key_valid c : valid_color c -> is_Some (sort_key c).
Proof.
  assert (forall n, (0 <= n <= 255)%Z -> is_Some (float_of_int n)) as Hf.
  { intros n Hn. pose proof bytes_are_floats_true as H.
    unfold bytes_are_floats in H. rewrite forallb_forall in H.
    eapply bool_decide_eq_true_1, H, list_elem_of_In, elem_of_seqZ. lia. }
  destruct c as [[r g] b]. intros (Hr & Hg & Hb).
  unfold sort_key, luminance.
  destruct (Hf r Hr) as [fr ->], (Hf g Hg) as [fg ->], (Hf b Hb) as [fb ->].
  by eexists.
Qed.

(** X17: [_sort_palette_colors] gives the colours it is given, each as
    often as it was given; when the channels are in 0..255 no key overflows
    and in the result no colour is followed by one with a smaller key
    [(luminance, colour)]. *)
Theorem sort_palette_colors_sorted (cols : list Color) :
  _sort_palette_colors cols ≡ₚ cols
  /\ (Forall valid_color cols ->
      exists keys, mapM sort_key (_sort_palette_colors cols) = Some keys
        /\ ordered keys).
Proof.
  unfold _sort_palette_colors. split.
  - destruct (mapM sort_key cols) as [keys|] eqn:Hkeys; [|done].
    apply mapM_sort_key_snd in Hkeys as [<- _].
    by rewrite py_sorted_Permutation.
  - intros Hv.
    destruct (mapM sort_key cols) as [keys|] eqn:Hkeys.
    + apply mapM_sort_key_snd in Hkeys as [_ Hk].
      exists (py_sorted keys). split; [|apply py_sorted_ordered].
      apply mapM_sort_key_keys. by rewrite py_sorted_Permutation.
    + exfalso. apply eq_None_not_Some in Hkeys. apply Hkeys.
      apply mapM_is_Some. eapply Forall_impl; [done|]. apply sort_key_valid.
Qed.

(** ** The progress bar *)

Lemma SFleb_not_SFltb (a b : spec_float) : SFleb a b = true -> SFltb b a = false.
Proof.
  unfold SFleb, SFltb. rewrite (SFcompare_antisym a b).
  by destruct (SFcompare a b) as [[]|].
Qed.

Lemma poll_percentage (s : wstate) :
  percentage (progress s) -> _poll_progress s = progress s.
Proof.
  intros [H0 H100]. unfold _poll_progress. cbv zeta.
  by rewrite (SFleb_not_SFltb _ _ H0), (SFleb_not_SFltb _ _ H100).
Qed.

Lemma count_pixel_percentage total xy s :
  percentage (progress s) -> percentage (progress (count_pixel total xy s)).
Proof.
  intros H. unfold count_pixel. cbv zeta.
  case_decide; [|done]. case_decide; [done|]. apply clamp_percent_range.
Qed.

Lemma run_loops_percentage cfg l width height s :
  percentage (progress s) ->
  percentage (progress (run_loops cfg l width height s)).
Proof.
  intros H.
  apply (run_loops_preserve (fun s => percentage (progress s))); try done.
  - intros total xy s1 _. apply count_pixel_percentage.
  - intros a xy s1 Hs1.
    by destruct (simplify_pixel_frame a l xy s1) as (h & P & K & ->).
  - intros pal xy s1 Hs1.
    by destruct (map_pixel_frame pal l xy s1) as (h & K & ->).
Qed.

(** X18: however a run on a loaded image ends, the progress it leaves is
    between 0.0 and 100.0, so that the clamping of [_poll_progress] changes
    nothing: the progress bar shows the stored value. *)
Theorem progress_is_percentage cfg g orig img :
  original_image cfg = Some orig ->
  heap g !! orig = Some img ->
  let s := (analyze_image_worker cfg g).2 in
  percentage (progress s) /\ _poll_progress s = progress s.
Proof.
  intros Ho Himg s.
  assert (percentage (progress s)) as H; [|split; [done | by apply poll_percentage]].
  unfold s.
  destruct (float_of_int (similarity_threshold cfg)) as [f|] eqn:Hthr;
    [|rewrite (worker_overflow _ _ _ _ Ho Himg Hthr);
      apply clamp_percent_range].
  rewrite (worker_unfold _ _ _ _ Ho Himg) by eauto.
  set (l := fresh (dom (heap g))).
  pose proof (run_loops_percentage cfg l (size img).1 (size img).2
                (start_run l img g) (clamp_percent_range _)) as Hrun.
  unfold conclude. destruct (raised _); [done|]. destruct (canceled _); [done|].
  apply clamp_percent_range.
Qed.

(** * The further theorems at samples *)

Lemma discovery_result_on_palette_witness :
  get_pallette (discover 95 None) = "Simplify Pallette"
  /\ original_image (discover 95 None) = Some 0
  /\ heap (loaded two_pixels) !! 0 = Some two_pixels
  /\ result_image (analyze_image_worker (discover 95 None) (loaded two_pixels))
     = Some discovered_two
  /\ size discovered_two = size two_pixels.
Proof.
  assert (result_image
            (analyze_image_worker (discover 95 None) (loaded two_pixels))
          = Some discovered_two) as H by reflexivity.
  do 3 (split; [reflexivity|]). split; [exact H|].
  exact (proj1 (discovery_result_on_palette (discover 95 None)
                  (loaded two_pixels) 0 two_pixels discovered_two
                  eq_refl eq_refl eq_refl H)).
Defined.

Lemma threshold_100_keeps_image_witness :
  get_pallette (discover 100 None) = "Simplify Pallette"
  /\ similarity_threshold (discover 100 None) = 100%Z
  /\ original_image (discover 100 None) = Some 0
  /\ heap (loaded two_pixels) !! 0 = Some two_pixels
  /\ heap (analyze_image_worker (discover 100 None) (loaded two_pixels)).2
       !! fresh (dom (heap (loaded two_pixels)))
     = Some two_pixels.
Proof.
  do 4 (split; [reflexivity|]).
  exact (proj1 (threshold_100_keeps_image (discover 100 None)
                  (loaded two_pixels) 0 two_pixels
                  eq_refl eq_refl eq_refl eq_refl)).
Defined.

Lemma allowed_sq_monotone_witness :
  (0 <= 50 <= 95)%Z /\ (95 <= 100)%Z
  /\ int_gt_float 50000 (allowed_sq 50) = true
  /\ int_gt_float 50000 (allowed_sq 95) = true.
Proof.
  assert (0 <= 50 <= 95)%Z as H1 by lia.
  assert (95 <= 100)%Z as H2 by lia.
  assert (int_gt_float 50000 (allowed_sq 50) = true) as H3
    by (vm_compute; reflexivity).
  split; [exact H1|]. split; [exact H2|]. split; [exact H3|].
  exact (allowed_sq_monotone 50 95 50000 H1 H2 H3).
Defined.

Lemma hex_round_trip_witness :
  valid_color (255, 160, 122)%Z
  /\ _hex_from_rgb (255, 160, 122)%Z = str_of "#ffa07a"
  /\ _rgb_from_hex ascii_only (_hex_from_rgb (255, 160, 122)%Z)
     = Some (255, 160, 122)%Z.
Proof.
  assert (valid_color (255, 160, 122)%Z) as H by (unfold valid_color; lia).
  split; [exact H|]. split; [reflexivity|].
  exact (proj2 (hex_round_trip ascii_only (255, 160, 122)%Z H)).
Defined.

Lemma rgb_from_hex_shorthand_witness :
  hex_digits (str_of "fA0") [15; 10; 0]%N
  /\ _rgb_from_hex ascii_only (str_of "#fA0") = Some (255, 170, 0)%Z.
Proof.
  assert (hex_digits (str_of "fA0") [15; 10; 0]%N) as H
    by (repeat constructor).
  split; [exact H|].
  exact (rgb_from_hex_shorthand ascii_only 1 _ _ _ _ _ _ H).
Defined.

Lemma parsed_colors_in_range_witness :
  _parse_palette_file ascii_only
    (TxtFile [str_of "#fA0 "; str_of ""; str_of "no colour"; str_of "-1"])
  = Some [(255, 170, 0)%Z; (255, 255, 255)%Z]
  /\ Forall valid_color [(255, 170, 0)%Z; (255, 255, 255)%Z].
Proof.
  assert (_parse_palette_file ascii_only
            (TxtFile [str_of "#fA0 "; str_of ""; str_of "no colour";
                      str_of "-1"])
          = Some [(255, 170, 0)%Z; (255, 255, 255)%Z]) as H by reflexivity.
  split; [exact H|].
  exact (parsed_colors_in_range ascii_only _ _ H).
Defined.

Lemma black_white_valid : Forall valid_color black_white.
Proof. repeat constructor; lia. Qed.

Lemma saved_file_round_trip_witness :
  Forall valid_color black_white
  /\ _parse_palette_file ascii_only (saved_file black_white) = Some black_white.
Proof.
  split; [exact black_white_valid|].
  exact (saved_file_round_trip ascii_only black_white black_white_valid).
Defined.

Lemma bw_palettes_well_formed : well_formed bw_palettes.
Proof.
  intros name lst H. unfold bw_palettes in H.
  apply lookup_singleton_Some in H as [_ <-].
  split; [|exact black_white_valid].
  apply (bool_decide_unpack _). by vm_compute.
Qed.

Lemma add_from_dialog_well_formed_witness :
  well_formed bw_palettes
  /\ add_from_dialog ascii_only "bw" (str_of " ffa07a") None bw_palettes
     = (ADDED, {[ "bw" := black_white ++ [(255, 160, 122)%Z] ]})
  /\ well_formed
       (add_from_dialog ascii_only "bw" (str_of " ffa07a") None bw_palettes).2.
Proof.
  split; [exact bw_palettes_well_formed|]. split; [reflexivity|].
  exact (proj1 (add_from_dialog_well_formed ascii_only "bw" (str_of " ffa07a")
                  None bw_palettes bw_palettes_well_formed)).
Defined.

Lemma move_up_move_down_witness :
  bw_palettes !! "bw" = Some black_white
  /\ 0 < 1 < length black_white
  /\ move_up "bw" 1 bw_palettes
     = {[ "bw" := [(255, 255, 255)%Z; (0, 0, 0)%Z] ]}
  /\ move_down "bw" (1 - 1) (move_up "bw" 1 bw_palettes) = bw_palettes.
Proof.
  assert (0 < 1 < length black_white) as H by (simpl; lia).
  split; [reflexivity|]. split; [exact H|]. split; [reflexivity|].
  exact (proj1 (move_up_move_down "bw" 1 bw_palettes black_white eq_refl H)).
Defined.

Lemma free_name_found_witness :
  base.size bw_palettes + length ["Simplify Pallette"; "bw"] <= 3
  /\ suffixed_name 3 bw_palettes ["Simplify Pallette"; "bw"] "bw" = Some "bw 1"
  /\ loaded_name 1 bw_palettes "bw" = Some "bw 1"
  /\ exists name,
       suggested_name 3 bw_palettes ["Simplify Pallette"; "bw"] "bw" = Some name
       /\ (name ∉ dom bw_palettes) /\ (name ∉ ["Simplify Pallette"; "bw"]).
Proof.
  assert (base.size bw_palettes + length ["Simplify Pallette"; "bw"] <= 3) as H
    by (unfold bw_palettes; rewrite map_size_singleton; simpl; lia).
  split; [exact H|]. split; [reflexivity|]. split; [reflexivity|].
  exact (proj1 (free_name_found 3 bw_palettes ["Simplify Pallette"; "bw"] "bw" H)).
Defined.

Lemma saved_palette_fits_witness :
  get_pallette (discover 95 None) = "Simplify Pallette"
  /\ result_image (analyze_image_worker (discover 95 None) (loaded two_pixels))
     = Some discovered_two
  /\ saved_colors (analyze_image_worker (discover 95 None) (loaded two_pixels)).2
     <> []
  /\ _do_save "mine" false
       (analyze_image_worker (discover 95 None) (loaded two_pixels)).2
       (pallettes (discover 95 None)) ["Simplify Pallette"]
     = Some saved_mine
  /\ "mine" <> "Simplify Pallette"
  /\ heap (loaded discovered_two) !! 0 = Some discovered_two
  /\ is_Some (float_of_int (similarity_threshold onto_mine))
  /\ is_Some (result_image (analyze_image_worker onto_mine (loaded discovered_two))).
Proof.
  assert (result_image
            (analyze_image_worker (discover 95 None) (loaded two_pixels))
          = Some discovered_two) as H1 by reflexivity.
  assert (saved_colors
            (analyze_image_worker (discover 95 None) (loaded two_pixels)).2
          <> []) as H2 by (vm_compute; discriminate).
  assert (_do_save "mine" false
            (analyze_image_worker (discover 95 None) (loaded two_pixels)).2
            (pallettes (discover 95 None)) ["Simplify Pallette"]
          = Some saved_mine) as H3 by reflexivity.
  assert ("mine" <> "Simplify Pallette") as H4 by discriminate.
  assert (is_Some (float_of_int (similarity_threshold onto_mine))) as H5
    by (eexists; reflexivity).
  split; [reflexivity|]. split; [exact H1|]. split; [exact H2|].
  split; [exact H3|]. split; [exact H4|]. split; [reflexivity|].
  split; [exact H5|].
  exact (proj1 (saved_palette_fits (discover 95 None) (loaded two_pixels) 0
                  two_pixels discovered_two "mine" false ["Simplify Pallette"]
                  saved_mine onto_mine (loaded discovered_two) 0
                  eq_refl eq_refl eq_refl H1 H2 H3 H4 eq_refl eq_refl eq_refl
                  eq_refl)
           eq_refl H5).
Defined.

Lemma progress_is_percentage_witness :
  original_image (discover 95 None) = Some 0
  /\ heap (loaded two_pixels) !! 0 = Some two_pixels
  /\ _poll_progress (analyze_image_worker (discover 95 None) (loaded two_pixels)).2
     = float_of_Z 100
  /\ percentage
       (progress (analyze_image_worker (discover 95 None) (loaded two_pixels)).2).
Proof.
  do 2 (split; [reflexivity|]). split; [reflexivity|].
  exact (proj1 (progress_is_percentage (discover 95 None) (loaded two_pixels)
                  0 two_pixels eq_refl eq_refl)).
Defined.
